(** * DataPak: container format, codec, reader, builder and VFS overlay

    A shallow embedding of the DataPak sources (src/src/*.cpp and
    src/include/datapak/*.hpp) together with the properties of the
    specification that are checked against them.

    Conventions of the embedding.
    - Fixed-width unsigned integers are values of [Z]; every place where
      the C++ code converts or adds with wrap-around has the reduction
      written out ([u32], [u64], [uInt]).
    - [std::vector<std::byte>] is [list byte]; [std::string] is [string].
    - [std::unordered_map<std::string, T>] is [gmap string T].
    - [std::expected<T, E>] is [expected T E].
    - Structures are written to and read from files through
      [reinterpret_cast]/[memcpy]; the host is little-endian, as the format
      description requires, so a w-byte integer occupies w bytes, least
      significant first ([le_bytes], [le_value]).
    - Allocation failure ([std::bad_alloc], [std::length_error]) is outside
      the model, and so are I/O faults on an opened output stream other
      than running past the largest file offset.  A call that throws has
      no counterpart here: the properties of [open] and of the directory
      load that depend on it bound the sizes and counts read from the file
      ([within_limits], [small_count]).
    - An input path that names a directory, on which the host opens a
      stream whose reads fail, is outside [filesystem.read_file]: the
      properties about inputs that cannot be read speak of paths at which
      nothing exists or at which a regular file lies. *)

From Stdlib Require Import ZArith List Lia String Ascii.
From Stdlib Require Import Strings.Byte.
From Stdlib Require OrderedTypeEx.
From Equations Require Import Equations.
From stdpp Require Import base gmap list strings sorting.

Set Warnings "-register-all".

Open Scope Z_scope.

(** ** Generic helpers *)

Inductive expected (T E : Type) : Type :=
| ok (value : T)
| unexpected (error : E).
Arguments ok {T E} value.
Arguments unexpected {T E} error.

Definition inspect {A} (a : A) : {b | a = b} := exist _ a eq_refl.

#[global] Instance byte_eq_decision : EqDecision byte := Byte.byte_eq_dec.

Definition u32 (n : Z) : Z := n mod 2 ^ 32.
Definition u64 (n : Z) : Z := n mod 2 ^ 64.

(** [v.size()] of a byte vector and of a string, as an integer. *)
Definition vsize (v : list byte) : Z := Z.of_nat (length v).
Definition str_size (s : string) : Z := Z.of_nat (String.length s).

(** ** Little-endian object representation *)

Definition byte_of_Z (z : Z) : byte :=
  match Byte.of_N (Z.to_N (z mod 256)) with
  | Some b => b
  | None => x00
  end.

Definition Z_of_byte (b : byte) : Z := Z.of_N (Byte.to_N b).

(** The [n] bytes of the object representation of an unsigned integer. *)
Fixpoint le_bytes (n : nat) (z : Z) : list byte :=
  match n with
  | O => []
  | S n' => byte_of_Z z :: le_bytes n' (z / 256)
  end.

(** The unsigned integer whose object representation is [bs]. *)
Fixpoint le_value (bs : list byte) : Z :=
  match bs with
  | [] => 0
  | b :: bs' => Z_of_byte b + 256 * le_value bs'
  end.

(** [memcpy(dst, src + pos, n)]: the [n] bytes of [src] from offset [pos]. *)
Definition slice (src : list byte) (pos n : Z) : list byte :=
  firstn (Z.to_nat n) (skipn (Z.to_nat pos) src).

(** A read of [got] bytes into a buffer that held [old]: the bytes not
    reached by a short read keep their previous value. *)
Definition overwrite (old got : list byte) : list byte :=
  got ++ skipn (length got) old.

(** ** format.hpp *)
Module format.

Definition MAGIC_NUMBER : Z := 0x50414B46.
Definition FORMAT_VERSION : Z := 1.

(** [enum class compression_method : std::uint8_t]: any 8-bit tag can be
    held (a directory read from a file is not validated), three are named. *)
Definition compression_method : Type := byte.
Definition none : compression_method := x00.
Definition deflate : compression_method := x01.
Definition zstd : compression_method := x02.

Record archive_header := {
  magic : Z;
  version : Z;
  directory_offset : Z;
  directory_count : Z;
  reserved : Z
}.

Record directory_entry := {
  filename : string;
  data_offset : Z;
  compressed_size : Z;
  uncompressed_size : Z;
  compression : compression_method
}.

Definition sizeof_header : Z := 24.

(** Object representation of [archive_header] (4 + 4 + 8 + 4 + 4 bytes, no
    padding). *)
Definition header_bytes (h : archive_header) : list byte :=
  le_bytes 4 (magic h) ++ le_bytes 4 (version h) ++
  le_bytes 8 (directory_offset h) ++ le_bytes 4 (directory_count h) ++
  le_bytes 4 (reserved h).

Definition header_of_bytes (bs : list byte) : archive_header :=
  {| magic := le_value (slice bs 0 4);
     version := le_value (slice bs 4 4);
     directory_offset := le_value (slice bs 8 8);
     directory_count := le_value (slice bs 16 4);
     reserved := le_value (slice bs 20 4) |}.

End format.
Export format.

(** ** zlib, the external codec

    zlib is not part of the repository.  Its two one-shot transformations
    are parameters ([codec]); the streaming calls [deflate(strm, Z_FINISH)]
    and [inflate(strm, Z_NO_FLUSH)] that the engine drives are described on
    top of them, following the zlib manual: a call delivers as much pending
    output as fits in [avail_out], and reports the final status once the
    output is drained. *)
Module zlib.

Definition Z_OK : Z := 0.
Definition Z_STREAM_END : Z := 1.
Definition Z_NEED_DICT : Z := 2.
Definition Z_STREAM_ERROR : Z := -2.
Definition Z_DATA_ERROR : Z := -3.
Definition Z_MEM_ERROR : Z := -4.
Definition Z_BUF_ERROR : Z := -5.

(** What inflating a complete input gives: the bytes decoded, the return
    code of the call that stops, and the input left unread then. *)
Record inflate_result := {
  inf_output : list byte;
  inf_ret : Z;
  inf_avail_in : Z
}.

Class codec := {
  deflate_bytes : list byte -> list byte;
  inflate_bytes : list byte -> inflate_result
}.


Record z_stream := {
  pending : list byte;   (* output not yet delivered to the caller *)
  end_ret : Z;           (* return code once the output is drained *)
  end_avail_in : Z;      (* avail_in once the output is drained *)
  avail_in : Z;
  avail_out : Z
}.

Section calls.
Context {C : codec}.

(** [deflateInit] followed by pointing [next_in]/[avail_in] at [input]. *)
Definition deflate_stream (input : list byte) : z_stream :=
  {| pending := deflate_bytes input; end_ret := Z_STREAM_END;
     end_avail_in := 0; avail_in := vsize input; avail_out := 0 |}.

(** [inflateInit] followed by pointing [next_in]/[avail_in] at [input]. *)
Definition inflate_stream (input : list byte) : z_stream :=
  let r := inflate_bytes input in
  {| pending := inf_output r; end_ret := inf_ret r;
     end_avail_in := inf_avail_in r; avail_in := vsize input;
     avail_out := 0 |}.

(** [deflate(&strm, Z_FINISH)] with [avail_out = space]: returns the code,
    the bytes written to [next_out] and the stream afterwards. *)
Definition deflate (strm : z_stream) (space : Z) : Z * list byte * z_stream :=
  let written := firstn (Z.to_nat space) (pending strm) in
  let rest := skipn (Z.to_nat space) (pending strm) in
  (match rest with [] => Z_STREAM_END | _ :: _ => Z_OK end,
   written,
   {| pending := rest; end_ret := end_ret strm;
      end_avail_in := end_avail_in strm; avail_in := 0;
      avail_out := space - vsize written |}).

(** [inflate(&strm, Z_NO_FLUSH)] with [avail_out = space]. *)
Definition inflate (strm : z_stream) (space : Z) : Z * list byte * z_stream :=
  if space <=? vsize (pending strm) then
    let written := firstn (Z.to_nat space) (pending strm) in
    (Z_OK, written,
     {| pending := skipn (Z.to_nat space) (pending strm);
        end_ret := end_ret strm; end_avail_in := end_avail_in strm;
        avail_in := avail_in strm; avail_out := space - vsize written |})
  else
    (end_ret strm, pending strm,
     {| pending := []; end_ret := end_ret strm;
        end_avail_in := end_avail_in strm; avail_in := end_avail_in strm;
        avail_out := space - vsize (pending strm) |}).
End calls.

#[global] Opaque deflate inflate.

End zlib.

(** ** compression.cpp *)
Module compression_engine.
Import zlib.

Inductive compression_error :=
| invalid_method
| compression_failed
| decompression_failed
| buffer_too_small.

Definition chunk_size : Z := 16384.

(** [static_cast<uInt>(n)]: zlib's [uInt] is a 32-bit [unsigned int]. *)
Definition uInt (n : Z) : Z := n mod 2 ^ 32.

Section engine.
Context {C : codec}.

(** The [do { ... } while (stream.avail_out == 0)] loop of
    [deflate_compress]; [compressed] is the vector filled so far. *)
Equations? deflate_compress_loop (stream : z_stream) (compressed : list byte)
  : expected (list byte) compression_error
  by wf (length (pending stream)) lt :=
  deflate_compress_loop stream compressed
    with inspect (deflate stream chunk_size) := {
    | exist _ (result, written, stream') Hcall
        with inspect (result =? Z_STREAM_ERROR) := {
      | exist _ true _ => unexpected compression_failed
      | exist _ false _ with inspect (avail_out stream' =? 0) := {
        | exist _ true Hfull =>
            deflate_compress_loop stream' (compressed ++ written)
        | exist _ false _ =>
            if negb (result =? Z_STREAM_END)
            then unexpected compression_failed
            else ok (compressed ++ written) } } }.
Proof.
  assert (Hspace : 0 < chunk_size) by reflexivity.
  revert Hcall Hspace. generalize chunk_size as space. intros space Hcall Hspace.
  with_strategy transparent [deflate] (unfold deflate in Hcall).
  injection Hcall as _ Hw Hs. subst stream' written.
  cbn [pending avail_out] in Hfull |- *. apply Z.eqb_eq in Hfull.
  unfold vsize in Hfull.
  rewrite length_take in Hfull. rewrite length_drop. lia.
Qed.

Definition deflate_compress (data : list byte)
  : expected (list byte) compression_error :=
  (* deflateInit is taken to return Z_OK *)
  let stream := deflate_stream (slice data 0 (uInt (vsize data))) in
  deflate_compress_loop stream [].

(** The [do { ... } while (stream.avail_out == 0 && result != Z_STREAM_END)]
    loop of [deflate_decompress]; on leaving it returns the last result
    code and the stream together with the bytes gathered. *)
Equations? deflate_decompress_loop (stream : z_stream) (decompressed : list byte)
  : expected (Z * z_stream * list byte) compression_error
  by wf (length (pending stream)) lt :=
  deflate_decompress_loop stream decompressed
    with inspect (inflate stream chunk_size) := {
    | exist _ (result, written, stream') Hcall
        with inspect ((result =? Z_STREAM_ERROR) || (result =? Z_DATA_ERROR)
                      || (result =? Z_MEM_ERROR))%bool := {
      | exist _ true _ => unexpected decompression_failed
      | exist _ false _
          with inspect ((avail_out stream' =? 0)
                        && negb (result =? Z_STREAM_END))%bool := {
        | exist _ true Hfull =>
            deflate_decompress_loop stream' (decompressed ++ written)
        | exist _ false _ =>
            ok (result, stream', decompressed ++ written) } } }.
Proof.
  assert (Hspace : 0 < chunk_size) by reflexivity.
  revert Hcall Hspace. generalize chunk_size as space. intros space Hcall Hspace.
  with_strategy transparent [inflate] (unfold inflate in Hcall).
  destruct (space <=? vsize (pending stream)) eqn:Hle.
  - injection Hcall as _ Hw Hs. subst stream' written.
    apply Z.leb_le in Hle. unfold vsize in Hle.
    cbn [pending]. rewrite length_drop. lia.
  - injection Hcall as Hr Hw Hs. subst stream' written result.
    apply Z.leb_gt in Hle. apply andb_prop in Hfull as [Hfull _].
    cbn [avail_out] in Hfull. apply Z.eqb_eq in Hfull. lia.
Qed.

Definition deflate_decompress (compressed_data : list byte)
    (uncompressed_size : Z) : expected (list byte) compression_error :=
  (* inflateInit is taken to return Z_OK; uncompressed_size only sizes
     the reservation of the output vector *)
  let stream :=
    inflate_stream (slice compressed_data 0 (uInt (vsize compressed_data))) in
  match deflate_decompress_loop stream [] with
  | unexpected e => unexpected e
  | ok (result, stream', decompressed) =>
      if (negb (result =? Z_STREAM_END) && (0 <? avail_in stream'))%bool
      then unexpected decompression_failed
      else ok decompressed
  end.

Definition compress (data : list byte) (method : compression_method)
  : expected (list byte) compression_error :=
  if decide (method = format.none) then ok data
  else if decide (method = format.deflate) then deflate_compress data
  else unexpected invalid_method.

Definition decompress (compressed_data : list byte)
    (method : compression_method) (uncompressed_size : Z)
  : expected (list byte) compression_error :=
  if decide (method = format.none) then ok compressed_data
  else if decide (method = format.deflate)
       then deflate_decompress compressed_data uncompressed_size
  else unexpected invalid_method.
End engine.

End compression_engine.

(** ** vfstream.cpp *)

(** [vfstreambuf]: a get area over the owned vector; [gpos] is
    [gptr() - eback()] and [egptr() - eback()] is [data_.size()]. *)
Module vfstreambuf.

Record t := { data_ : list byte; gpos : Z }.

Inductive seekdir := beg | cur | end_.

Definition make (data : list byte) : t := {| data_ := data; gpos := 0 |}.

(** [None] stands for [traits_type::eof()]. *)
Definition underflow (b : t) : option byte :=
  if gpos b <? vsize (data_ b)
  then nth_error (data_ b) (Z.to_nat (gpos b))
  else None.

(** Returns the count read, the bytes copied to [s], and the buffer. *)
Definition xsgetn (b : t) (count : Z) : Z * list byte * t :=
  let available := vsize (data_ b) - gpos b in
  let to_read := Z.min count available in
  if 0 <? to_read
  then (to_read, slice (data_ b) (gpos b) to_read,
        {| data_ := data_ b; gpos := gpos b + to_read |})
  else (to_read, [], b).

(** [which_is_in] tells whether [which == std::ios_base::in]; the
    position returned is [-1] on failure. *)
Definition seekoff (b : t) (off : Z) (way : seekdir) (which_is_in : bool)
  : Z * t :=
  if negb which_is_in then (-1, b)
  else
    let new_pos :=
      match way with
      | beg => off
      | cur => gpos b + off
      | end_ => vsize (data_ b) + off
      end in
    if ((new_pos <? 0) || (vsize (data_ b) <? new_pos))%bool then (-1, b)
    else (new_pos, {| data_ := data_ b; gpos := new_pos |}).

Definition seekpos (b : t) (sp : Z) (which_is_in : bool) : Z * t :=
  seekoff b sp beg which_is_in.

End vfstreambuf.

(** [vfstream]: a [std::istream] whose buffer is a [vfstreambuf].  The
    members below are the [std::istream] operations the library calls on
    it, with the state bits the standard prescribes. *)
Module vfstream.

Record t := {
  buffer_ : vfstreambuf.t;
  eofbit : bool;
  failbit : bool;
  gcount : Z
}.

Definition make (data : list byte) : t :=
  {| buffer_ := vfstreambuf.make data; eofbit := false; failbit := false;
     gcount := 0 |}.

(** The whole content a reader of the stream can obtain. *)
Definition contents (s : t) : list byte := vfstreambuf.data_ (buffer_ s).

Definition seekg (s : t) (off : Z) (way : vfstreambuf.seekdir) : t :=
  if failbit s
  then {| buffer_ := buffer_ s; eofbit := false; failbit := true;
          gcount := gcount s |}
  else
    let '(r, b) := vfstreambuf.seekoff (buffer_ s) off way true in
    {| buffer_ := b; eofbit := false; failbit := (r =? -1);
       gcount := gcount s |}.

Definition tellg (s : t) : Z :=
  if failbit s then -1
  else fst (vfstreambuf.seekoff (buffer_ s) 0 vfstreambuf.cur true).

(** [read(dst, n)]: the bytes stored to [dst] and the stream afterwards. *)
Definition read (s : t) (n : Z) : list byte * t :=
  if (eofbit s || failbit s)%bool
  then ([], {| buffer_ := buffer_ s; eofbit := eofbit s; failbit := true;
               gcount := 0 |})
  else
    let '(k, got, b) := vfstreambuf.xsgetn (buffer_ s) n in
    let short := negb (k =? n) in
    (got, {| buffer_ := b; eofbit := short; failbit := short; gcount := k |}).

End vfstream.

(** ** The host file system and [std::ifstream] / [std::ofstream] *)
Module filesystem.

Inductive node :=
| regular_file (contents : list byte)
| directory (entries : list (string * node))
| other.

(** A [std::filesystem::path] as its sequence of components below the
    root of the model. *)
Definition path : Type := list string.

Fixpoint lookup (n : node) (p : path) : option node :=
  match p with
  | [] => Some n
  | c :: p' =>
      match n with
      | directory entries =>
          (fix find (es : list (string * node)) : option node :=
             match es with
             | [] => None
             | (name, child) :: es' =>
                 if decide (name = c) then lookup child p' else find es'
             end) entries
      | _ => None
      end
  end.

(** The bytes an input stream opened on [p] delivers, if it opens. *)
Definition read_file (root : node) (p : path) : option (list byte) :=
  match lookup root p with
  | Some (regular_file contents) => Some contents
  | _ => None
  end.

Definition parent (p : path) : path := removelast p.

(** Whether an output stream can be opened (created or truncated) on [p]. *)
Definition creatable (root : node) (p : path) : bool :=
  match p with
  | [] => false
  | _ :: _ =>
      match lookup root (parent p) with
      | Some (directory _) =>
          match lookup root p with
          | None | Some (regular_file _) => true
          | Some _ => false
          end
      | _ => false
      end
  end.

(** [std::filesystem::recursive_directory_iterator]: every entry below
    [n], each directory followed by what it contains, with the path
    relative to [n].  The order among siblings is the one of the model. *)
Fixpoint walk (n : node) : list (path * node) :=
  match n with
  | directory entries =>
      (fix go (es : list (string * node)) : list (path * node) :=
         match es with
         | [] => []
         | (name, child) :: es' =>
             (([name], child)
                :: map (fun '(p, m) => (name :: p, m)) (walk child))
               ++ go es'
         end) entries
  | _ => []
  end.

End filesystem.

Module ifstream.

Record t := {
  is_open : bool;
  contents : list byte;
  pos : Z;
  eofbit : bool;
  failbit : bool;
  gcount : Z
}.

(** A default-constructed stream, not associated with a file. *)
Definition closed : t :=
  {| is_open := false; contents := []; pos := 0; eofbit := false;
     failbit := false; gcount := 0 |}.

(** [open(path, std::ios::binary)] on a default-constructed stream. *)
Definition open (file : option (list byte)) : t :=
  match file with
  | Some c =>
      {| is_open := true; contents := c; pos := 0; eofbit := false;
         failbit := false; gcount := 0 |}
  | None =>
      {| is_open := false; contents := []; pos := 0; eofbit := false;
         failbit := true; gcount := 0 |}
  end.

(** Conversion of a 64-bit unsigned offset to [std::streamoff]. *)
Definition streamoff (n : Z) : Z := if n <? 2 ^ 63 then n else n - 2 ^ 64.

(** [seekg(p)]: clears [eofbit]; does nothing on a failed stream; a
    negative offset or a closed file makes the seek fail.  Seeking past
    the end of the file is allowed. *)
Definition seekg (s : t) (p : Z) : t :=
  if failbit s
  then {| is_open := is_open s; contents := contents s; pos := pos s;
          eofbit := false; failbit := true; gcount := gcount s |}
  else if (negb (is_open s) || (p <? 0))%bool
  then {| is_open := is_open s; contents := contents s; pos := pos s;
          eofbit := false; failbit := true; gcount := gcount s |}
  else {| is_open := is_open s; contents := contents s; pos := p;
          eofbit := false; failbit := false; gcount := gcount s |}.

(** [read(dst, n)]: the bytes stored to [dst] and the stream afterwards;
    a short read sets [eofbit] and [failbit]. *)
Definition read (s : t) (n : Z) : list byte * t :=
  if (eofbit s || failbit s)%bool
  then ([], {| is_open := is_open s; contents := contents s; pos := pos s;
               eofbit := eofbit s; failbit := true; gcount := 0 |})
  else
    let got := slice (contents s) (pos s) n in
    let short := vsize got <? n in
    (got, {| is_open := is_open s; contents := contents s;
             pos := pos s + vsize got; eofbit := short; failbit := short;
             gcount := vsize got |}).

End ifstream.

Module ofstream.

Record t := {
  is_open : bool;
  contents : list byte;
  pos : Z;
  failbit : bool
}.

(** [std::ofstream output(path, std::ios::binary)]: truncates. *)
Definition open (can_open : bool) : t :=
  {| is_open := can_open; contents := []; pos := 0;
     failbit := negb can_open |}.

(** The largest file offset, that of [std::streamoff]. *)
Definition max_offset : Z := 2 ^ 63 - 1.

(** [write(src, n)] at the put position, over what is there or past it.
    The host refuses a write that would carry the file past the largest
    offset, and the stream is then in a failed state. *)
Definition write (s : t) (bytes : list byte) : t :=
  if failbit s then s
  else if max_offset <? pos s + vsize bytes
  then {| is_open := is_open s; contents := contents s; pos := pos s;
          failbit := true |}
  else
    {| is_open := is_open s;
       contents := firstn (Z.to_nat (pos s)) (contents s) ++ bytes
                   ++ skipn (Z.to_nat (pos s + vsize bytes)) (contents s);
       pos := pos s + vsize bytes; failbit := false |}.

Definition tellp (s : t) : Z := if failbit s then -1 else pos s.

Definition seekp (s : t) (p : Z) : t :=
  if failbit s then s
  else {| is_open := is_open s; contents := contents s; pos := p;
          failbit := false |}.

End ofstream.

(** ** archive.cpp *)
Module archive.

Inductive archive_error :=
| file_not_found
| invalid_format
| read_error
| compression_error
| entry_not_found.

Inductive access_mode := disk | memory.

Record t := {
  mode_ : access_mode;
  file_stream_ : ifstream.t;
  memory_data_ : list byte;
  directory_ : gmap string directory_entry
}.

Definition with_stream (a : t) (s : ifstream.t) : t :=
  {| mode_ := mode_ a; file_stream_ := s; memory_data_ := memory_data_ a;
     directory_ := directory_ a |}.

Definition with_directory (a : t) (d : gmap string directory_entry) : t :=
  {| mode_ := mode_ a; file_stream_ := file_stream_ a;
     memory_data_ := memory_data_ a; directory_ := d |}.

(** The insertion that ends an iteration of the directory loop. *)
Definition insert_entry (entry : directory_entry)
    (d : gmap string directory_entry) : gmap string directory_entry :=
  if decide (filename entry = EmptyString) then d
  else <[filename entry := entry]> d.

(** One iteration of the [for] loop of [load_directory]: the archive
    and [current_pos] afterwards, or the error returned.  In memory mode
    a [memcpy] whose bounds check was passed only through wrap-around is
    undefined in C++; here it copies the bytes that exist. *)
Definition load_entry (a : t) (current_pos : Z)
  : expected (t * Z) archive_error :=
  match mode_ a with
  | disk =>
      let s := ifstream.seekg (file_stream_ a) (ifstream.streamoff current_pos) in
      let '(got, s) := ifstream.read s 4 in
      let filename_length := le_value (overwrite (le_bytes 4 0) got) in
      let '(name, s) :=
        if ((0 <? filename_length) && (filename_length <? 4096))%bool then
          let '(got, s) := ifstream.read s filename_length in
          (string_of_list_byte
             (overwrite (repeat x00 (Z.to_nat filename_length)) got), s)
        else (EmptyString, s) in
      let '(got, s) := ifstream.read s 8 in
      let e_data_offset := le_value (overwrite (le_bytes 8 0) got) in
      let '(got, s) := ifstream.read s 8 in
      let e_compressed_size := le_value (overwrite (le_bytes 8 0) got) in
      let '(got, s) := ifstream.read s 8 in
      let e_uncompressed_size := le_value (overwrite (le_bytes 8 0) got) in
      let '(got, s) := ifstream.read s 1 in
      let e_compression := hd x00 (overwrite [x00] got) in
      let entry :=
        {| filename := name; data_offset := e_data_offset;
           compressed_size := e_compressed_size;
           uncompressed_size := e_uncompressed_size;
           compression := e_compression |} in
      ok ({| mode_ := mode_ a; file_stream_ := s;
             memory_data_ := memory_data_ a;
             directory_ := insert_entry entry (directory_ a) |},
          u64 (current_pos + (4 + filename_length + 8 + 8 + 8 + 1)))
  | memory =>
      let mem := memory_data_ a in
      if vsize mem <? u64 (current_pos + 4) then unexpected read_error
      else
        let filename_length := le_value (slice mem current_pos 4) in
        let current_pos := u64 (current_pos + 4) in
        if vsize mem <? u64 (current_pos + filename_length)
        then unexpected read_error
        else
          let name :=
            if ((0 <? filename_length) && (filename_length <? 4096))%bool
            then string_of_list_byte (slice mem current_pos filename_length)
            else EmptyString in
          let current_pos := u64 (current_pos + filename_length) in
          if vsize mem <? u64 (current_pos + 8 + 8 + 8 + 1)
          then unexpected read_error
          else
            let e_data_offset := le_value (slice mem current_pos 8) in
            let current_pos := u64 (current_pos + 8) in
            let e_compressed_size := le_value (slice mem current_pos 8) in
            let current_pos := u64 (current_pos + 8) in
            let e_uncompressed_size := le_value (slice mem current_pos 8) in
            let current_pos := u64 (current_pos + 8) in
            let e_compression := hd x00 (slice mem current_pos 1) in
            let current_pos := u64 (current_pos + 1) in
            let entry :=
              {| filename := name; data_offset := e_data_offset;
                 compressed_size := e_compressed_size;
                 uncompressed_size := e_uncompressed_size;
                 compression := e_compression |} in
            ok (with_directory a (insert_entry entry (directory_ a)),
                current_pos)
  end.

(** The [for (i = 0; i < header.directory_count; ++i)] loop, [count]
    iterations from [current_pos]. *)
Fixpoint load_entries (count : nat) (a : t) (current_pos : Z)
  : expected t archive_error :=
  match count with
  | O => ok a
  | S count' =>
      match load_entry a current_pos with
      | unexpected e => unexpected e
      | ok (a', current_pos') => load_entries count' a' current_pos'
      end
  end.

(** Reading and checking the header, the first part of [load_directory];
    gives the header and the archive (its stream has moved). *)
Definition load_header (a : t) : expected (archive_header * t) archive_error :=
  match mode_ a with
  | disk =>
      if negb (ifstream.is_open (file_stream_ a))
      then unexpected file_not_found
      else
        let s := ifstream.seekg (file_stream_ a) 0 in
        let '(got, s) := ifstream.read s sizeof_header in
        if (ifstream.failbit s || negb (ifstream.gcount s =? sizeof_header))%bool
        then unexpected read_error
        else ok (header_of_bytes (overwrite (repeat x00 24) got),
                 with_stream a s)
  | memory =>
      if vsize (memory_data_ a) <? sizeof_header
      then unexpected invalid_format
      else ok (header_of_bytes (slice (memory_data_ a) 0 sizeof_header), a)
  end.

Definition load_directory (a : t) : expected t archive_error :=
  match load_header a with
  | unexpected e => unexpected e
  | ok (header, a) =>
      if negb (magic header =? MAGIC_NUMBER) then unexpected invalid_format
      else if negb (version header =? FORMAT_VERSION)
      then unexpected invalid_format
      else
        load_entries (Z.to_nat (directory_count header))
          (with_directory a ∅) (directory_offset header)
  end.

(** The constructor; [None] when it throws [std::runtime_error]. *)
Definition make (fs : filesystem.node) (path : filesystem.path)
    (mode : access_mode) : option t :=
  let a :=
    match mode with
    | disk =>
        {| mode_ := disk;
           file_stream_ := ifstream.open (filesystem.read_file fs path);
           memory_data_ := []; directory_ := ∅ |}
    | memory =>
        {| mode_ := memory; file_stream_ := ifstream.closed;
           memory_data_ :=
             match filesystem.read_file fs path with
             | Some contents => contents
             | None => []
             end;
           directory_ := ∅ |}
    end in
  match load_directory a with
  | ok a' => Some a'
  | unexpected _ => None
  end.

Definition create (fs : filesystem.node) (path : filesystem.path)
  : expected t archive_error :=
  match make fs path disk with
  | Some a => ok a
  | None => unexpected read_error
  end.

Definition contains (a : t) (name : string) : bool :=
  match directory_ a !! name with
  | Some _ => true
  | None => false
  end.

(** The keys of the directory, in the (unspecified) order of the map. *)
Definition list_files (a : t) : list string :=
  (map_to_list (directory_ a)).*1.

(** [file_stream_] is [mutable]: the archive comes back with the stream
    as the read left it. *)
Definition read_file_data (a : t) (entry : directory_entry)
  : expected (list byte) archive_error * t :=
  match mode_ a with
  | disk =>
      let s := ifstream.seekg (file_stream_ a)
                 (ifstream.streamoff (data_offset entry)) in
      let n := ifstream.streamoff (compressed_size entry) in
      let '(got, s) := ifstream.read s n in
      let data :=
        overwrite (repeat x00 (Z.to_nat (compressed_size entry))) got in
      if (ifstream.failbit s || negb (ifstream.gcount s =? n))%bool
      then (unexpected read_error, with_stream a s)
      else (ok data, with_stream a s)
  | memory =>
      if vsize (memory_data_ a)
         <? u64 (data_offset entry + compressed_size entry)
      then (unexpected read_error, a)
      else (ok (slice (memory_data_ a) (data_offset entry)
                  (compressed_size entry)), a)
  end.

Section open.
Context {C : zlib.codec}.

Definition open (a : t) (name : string)
  : expected vfstream.t archive_error * t :=
  match directory_ a !! name with
  | None => (unexpected entry_not_found, a)
  | Some entry =>
      let '(data_result, a') := read_file_data a entry in
      match data_result with
      | unexpected e => (unexpected e, a')
      | ok data =>
          if decide (compression entry = none)
          then (ok (vfstream.make data), a')
          else
            match compression_engine.decompress data (compression entry)
                    (uncompressed_size entry) with
            | unexpected _ => (unexpected compression_error, a')
            | ok decompressed => (ok (vfstream.make decompressed), a')
            end
      end
  end.
End open.

End archive.

(** ** archive_builder.cpp *)
Module archive_builder.

Inductive builder_error :=
| file_not_found
| write_error
| compression_error
| invalid_path.

Record file_entry := {
  source_path : filesystem.path;
  archive_path : string;
  compression : compression_method
}.

Record t := {
  files_ : list file_entry;
  default_compression_ : compression_method
}.

Definition make (default_compression : compression_method) : t :=
  {| files_ := []; default_compression_ := default_compression |}.

Definition set_default_compression (b : t) (method : compression_method) : t :=
  {| files_ := files_ b; default_compression_ := method |}.

Definition file_count (b : t) : nat := length (files_ b).

Definition add_file (b : t) (source : filesystem.path) (name : string)
    (method : compression_method) : t :=
  let method :=
    if decide (method = none) then default_compression_ b else method in
  {| files_ := files_ b ++ [ {| source_path := source; archive_path := name;
                                compression := method |} ];
     default_compression_ := default_compression_ b |}.

(** [s.back()], when [s] is not empty. *)
Fixpoint back (s : string) : option ascii :=
  match s with
  | EmptyString => None
  | String c EmptyString => Some c
  | String _ s' => back s'
  end.

(** [std::replace(s.begin(), s.end(), from, to)]. *)
Fixpoint replace (from to : ascii) (s : string) : string :=
  match s with
  | EmptyString => EmptyString
  | String c s' =>
      String (if decide (c = from) then to else c) (replace from to s')
  end.

(** The archive path that [add_directory] gives to the file found at the
    relative path [rel]; components are joined with the separator of the
    host, a slash. *)
Definition entry_archive_path (archive_prefix : string)
    (rel : filesystem.path) : string :=
  let name :=
    match back archive_prefix with
    | Some c =>
        if decide (c = "/"%char) then archive_prefix
        else (archive_prefix ++ "/")%string
    | None => archive_prefix
    end in
  let name := (name ++ String.concat "/" rel)%string in
  replace "\"%char "/"%char name.

Definition add_directory (b : t) (fs : filesystem.node)
    (directory_path : filesystem.path) (archive_prefix : string)
    (method : compression_method) : t :=
  match filesystem.lookup fs directory_path with
  | Some (filesystem.directory entries) =>
      let method :=
        if decide (method = none) then default_compression_ b else method in
      fold_left
        (fun b '(rel, n) =>
           match n with
           | filesystem.regular_file _ =>
               add_file b (directory_path ++ rel)
                 (entry_archive_path archive_prefix rel) method
           | _ => b
           end)
        (filesystem.walk (filesystem.directory entries)) b
  | _ => b
  end.

(** The bytes of one directory record, in the order [build] writes them. *)
Definition entry_bytes (entry : directory_entry) : list byte :=
  le_bytes 4 (u32 (str_size (filename entry)))
  ++ list_byte_of_string (filename entry)
  ++ le_bytes 8 (data_offset entry)
  ++ le_bytes 8 (compressed_size entry)
  ++ le_bytes 8 (uncompressed_size entry)
  ++ [format.compression entry].

Section build.
Context {C : zlib.codec}.

(** The first loop of [build]: for each file, read it, compress it,
    append it to the output and record its directory entry. *)
Fixpoint write_files (fs : filesystem.node) (files : list file_entry)
    (output : ofstream.t) (directory : list directory_entry)
    (current_offset : Z)
  : expected (ofstream.t * list directory_entry) builder_error * ofstream.t :=
  match files with
  | [] => (ok (output, directory), output)
  | file :: files' =>
      match filesystem.read_file fs (source_path file) with
      | None => (unexpected file_not_found, output)
      | Some data =>
          let compressed :=
            if decide (compression file = none)
            then ok (data, [])   (* [std::move(data)] leaves [data] empty;
                                    its size is read further down *)
            else
              match compression_engine.compress data (compression file) with
              | ok c => ok (c, data)
              | unexpected _ => unexpected compression_error
              end in
          match compressed with
          | unexpected e => (unexpected e, output)
          | ok (compressed_data, data) =>
              let output := ofstream.write output compressed_data in
              if ofstream.failbit output
              then (unexpected write_error, output)
              else
                let entry :=
                  {| filename := archive_path file;
                     data_offset := current_offset;
                     compressed_size := vsize compressed_data;
                     uncompressed_size := vsize data;
                     format.compression := compression file |} in
                write_files fs files' output (directory ++ [entry])
                  (u64 (current_offset + vsize compressed_data))
          end
      end
  end.

(** The second loop of [build]: the directory records. *)
Fixpoint write_directory (directory : list directory_entry)
    (output : ofstream.t) : expected ofstream.t builder_error * ofstream.t :=
  match directory with
  | [] => (ok output, output)
  | entry :: directory' =>
      let output := ofstream.write output (entry_bytes entry) in
      if ofstream.failbit output then (unexpected write_error, output)
      else write_directory directory' output
  end.

(** [build]: the result, and the bytes left in the output file. *)
Definition build (b : t) (fs : filesystem.node)
    (output_path : filesystem.path)
  : expected unit builder_error * list byte :=
  let output := ofstream.open (filesystem.creatable fs output_path) in
  if ofstream.failbit output
  then (unexpected write_error, ofstream.contents output)
  else
    let header :=
      {| magic := MAGIC_NUMBER; version := FORMAT_VERSION;
         directory_offset := 0;
         directory_count := u32 (Z.of_nat (length (files_ b)));
         reserved := 0 |} in
    let output := ofstream.write output (header_bytes header) in
    if ofstream.failbit output
    then (unexpected write_error, ofstream.contents output)
    else
      match write_files fs (files_ b) output [] sizeof_header with
      | (unexpected e, output) => (unexpected e, ofstream.contents output)
      | (ok (output, directory), _) =>
          let header :=
            {| magic := magic header; version := version header;
               directory_offset := u64 (ofstream.tellp output);
               directory_count := directory_count header;
               reserved := reserved header |} in
          match write_directory directory output with
          | (unexpected e, output) =>
              (unexpected e, ofstream.contents output)
          | (ok output, _) =>
              let output := ofstream.seekp output 0 in
              let output := ofstream.write output (header_bytes header) in
              if ofstream.failbit output
              then (unexpected write_error, ofstream.contents output)
              else (ok tt, ofstream.contents output)
          end
      end.
End build.

End archive_builder.

(** ** vfs.cpp *)
Module vfs.

Inductive vfs_error := archive_error | file_not_found | cache_error.

Inductive search_order := mount_order | reverse_mount_order.

Record t := {
  archives_ : list archive.t;
  cache_enabled_ : bool;
  search_order_ : search_order;
  cache_ : gmap string (list byte)
}.

(** A default-constructed VFS. *)
Definition make : t :=
  {| archives_ := []; cache_enabled_ := true;
     search_order_ := reverse_mount_order; cache_ := ∅ |}.

Definition enable_cache (v : t) (enable : bool) : t :=
  {| archives_ := archives_ v; cache_enabled_ := enable;
     search_order_ := search_order_ v; cache_ := cache_ v |}.

Definition clear_cache (v : t) : t :=
  {| archives_ := archives_ v; cache_enabled_ := cache_enabled_ v;
     search_order_ := search_order_ v; cache_ := ∅ |}.

Definition cache_size (v : t) : nat := size (cache_ v).

Definition set_search_order (v : t) (order : search_order) : t :=
  {| archives_ := archives_ v; cache_enabled_ := cache_enabled_ v;
     search_order_ := order; cache_ := cache_ v |}.

Definition get_search_order (v : t) : search_order := search_order_ v.

Definition mount (v : t) (fs : filesystem.node) (archive_path : filesystem.path)
    (mode : archive.access_mode) : expected unit vfs_error * t :=
  match archive.make fs archive_path mode with
  | Some arch =>
      (ok tt,
       {| archives_ := archives_ v ++ [arch];
          cache_enabled_ := cache_enabled_ v;
          search_order_ := search_order_ v; cache_ := cache_ v |})
  | None => (unexpected archive_error, v)
  end.

(** The block run on a successful open when caching is on: read the
    whole stream into a vector and rewind it. *)
Definition drain (stream : vfstream.t) : list byte * vfstream.t :=
  let stream := vfstream.seekg stream 0 vfstreambuf.end_ in
  let size := vfstream.tellg stream in
  let stream := vfstream.seekg stream 0 vfstreambuf.beg in
  let data := repeat x00 (Z.to_nat size) in
  let '(got, stream) := vfstream.read stream size in
  (overwrite data got, vfstream.seekg stream 0 vfstreambuf.beg).

Section open.
Context {C : zlib.codec}.

(** The body shared by the two search loops of [open], over the
    archives in the order visited: the stream of the first archive that
    contains the name and opens it, and the archives as the visits left
    them. *)
Fixpoint search (archs : list archive.t) (name : string)
  : option vfstream.t * list archive.t :=
  match archs with
  | [] => (None, [])
  | arch :: archs' =>
      if archive.contains arch name then
        let '(result, arch') := archive.open arch name in
        match result with
        | ok stream => (Some stream, arch' :: archs')
        | unexpected _ =>
            let '(found, archs'') := search archs' name in
            (found, arch' :: archs'')
        end
      else
        let '(found, archs'') := search archs' name in
        (found, arch :: archs'')
  end.

(** [open]: the result and the VFS afterwards.  The caching block that
    each loop runs before its [return] is applied here to the stream the
    search found. *)
Definition open (v : t) (name : string)
  : expected vfstream.t vfs_error * t :=
  match (if cache_enabled_ v then cache_ v !! name else None) with
  | Some data => (ok (vfstream.make data), v)
  | None =>
      let '(found, archs) :=
        match search_order_ v with
        | reverse_mount_order =>
            let '(found, visited) := search (rev (archives_ v)) name in
            (found, rev visited)
        | mount_order => search (archives_ v) name
        end in
      match found with
      | Some stream =>
          if cache_enabled_ v then
            let '(data, stream) := drain stream in
            (ok stream,
             {| archives_ := archs; cache_enabled_ := cache_enabled_ v;
                search_order_ := search_order_ v;
                cache_ := <[name := data]> (cache_ v) |})
          else
            (ok stream,
             {| archives_ := archs; cache_enabled_ := cache_enabled_ v;
                search_order_ := search_order_ v; cache_ := cache_ v |})
      | None =>
          (unexpected file_not_found,
           {| archives_ := archs; cache_enabled_ := cache_enabled_ v;
              search_order_ := search_order_ v; cache_ := cache_ v |})
      end
  end.
End open.

Definition contains (v : t) (name : string) : bool :=
  if (cache_enabled_ v
      && bool_decide (is_Some (cache_ v !! name)))%bool then true
  else
    match search_order_ v with
    | reverse_mount_order =>
        existsb (fun arch => archive.contains arch name) (rev (archives_ v))
    | mount_order =>
        existsb (fun arch => archive.contains arch name) (archives_ v)
    end.

(** [std::ranges::sort] on strings: the order is that of [operator<],
    which compares byte by byte as unsigned values and puts a proper
    prefix first.  The order is total and antisymmetric, so the sorted
    sequence is determined whatever algorithm produces it. *)
Definition string_le (a b : string) : Prop := (a <=? b)%string = true.

#[global] Instance string_le_dec : RelDecision string_le :=
  fun a b => decide ((a <=? b)%string = true).

Definition sort (names : list string) : list string :=
  merge_sort string_le names.

(** [erase(std::ranges::unique(v).begin(), v.end())]: of every run of
    equal neighbours one element is kept. *)
Fixpoint unique (names : list string) : list string :=
  match names with
  | [] => []
  | x :: names' =>
      let rest := unique names' in
      match names' with
      | [] => [x]
      | y :: _ => if decide (x = y) then rest else x :: rest
      end
  end.

Definition list_files (v : t) : list string :=
  unique (sort (flat_map archive.list_files (archives_ v))).

End vfs.

(** ** A stand-in codec and sample data

    Concrete runs of the embedding need some codec.  [stored] frames the
    input behind the two-byte zlib header without compressing it, and
    rejects anything that does not start with that header. *)
Module samples.
Import zlib.

Definition stored_deflate (b : list byte) : list byte := x78 :: x01 :: b.

Definition stored_inflate (c : list byte) : inflate_result :=
  if decide (firstn 2 c = [x78; x01])
  then {| inf_output := skipn 2 c; inf_ret := Z_STREAM_END; inf_avail_in := 0 |}
  else {| inf_output := []; inf_ret := Z_DATA_ERROR; inf_avail_in := vsize c |}.

Definition stored : codec :=
  {| deflate_bytes := stored_deflate; inflate_bytes := stored_inflate |}.

Definition bytes (s : string) : list byte := list_byte_of_string s.

(** Two source trees sharing the name [common.txt]. *)
Definition tree_a : filesystem.node :=
  filesystem.directory
    [ ("common.txt"%string, filesystem.regular_file (bytes "from A"));
      ("only_a.txt"%string, filesystem.regular_file (bytes "a")) ].

Definition tree_b : filesystem.node :=
  filesystem.directory
    [ ("common.txt"%string, filesystem.regular_file (bytes "from B"));
      ("sub"%string,
        filesystem.directory
          [ ("only_b.txt"%string, filesystem.regular_file (bytes "b")) ]) ].

Definition sources : filesystem.node :=
  filesystem.directory
    [ ("a"%string, tree_a); ("b"%string, tree_b);
      ("out"%string, filesystem.directory []) ].

Definition builder_a : archive_builder.t :=
  archive_builder.add_directory (archive_builder.make format.deflate) sources
    ["a"%string] ""%string format.none.

Definition builder_b : archive_builder.t :=
  archive_builder.add_directory (archive_builder.make format.none) sources
    ["b"%string] ""%string format.none.

Definition pak_a : list byte :=
  (archive_builder.build (C := stored) builder_a sources
     ["out"%string; "a.pak"%string]).2.

Definition pak_b : list byte :=
  (archive_builder.build (C := stored) builder_b sources
     ["out"%string; "b.pak"%string]).2.

(** A container whose only entry carries the reserved tag [zstd]: the
    directory loads, and opening the entry fails in the codec. *)
Definition pak_bad : list byte :=
  header_bytes
    {| magic := MAGIC_NUMBER; version := FORMAT_VERSION;
       directory_offset := 24; directory_count := 1; reserved := 0 |}
  ++ archive_builder.entry_bytes
       {| filename := "common.txt"; data_offset := 24; compressed_size := 0;
          uncompressed_size := 0; compression := zstd |}.

Definition disk_fs : filesystem.node :=
  filesystem.directory
    [ ("a.pak"%string, filesystem.regular_file pak_a);
      ("b.pak"%string, filesystem.regular_file pak_b);
      ("bad.pak"%string, filesystem.regular_file pak_bad) ].

(** A VFS with the given archives mounted in order. *)
Definition mounted (paks : list (string * archive.access_mode)) : vfs.t :=
  fold_left (fun v '(name, mode) => (vfs.mount v disk_fs [name] mode).2)
    paks vfs.make.

Definition vfs_a_b : vfs.t :=
  mounted [ ("a.pak"%string, archive.memory); ("b.pak"%string, archive.disk) ].

Definition vfs_a_bad : vfs.t :=
  mounted [ ("a.pak"%string, archive.memory);
            ("bad.pak"%string, archive.memory) ].

Definition empty_archive : archive.t :=
  {| archive.mode_ := archive.memory; archive.file_stream_ := ifstream.closed;
     archive.memory_data_ := []; archive.directory_ := ∅ |}.

(** The Reader constructed on a file of [disk_fs]. *)
Definition reader (name : string) (mode : archive.access_mode) : archive.t :=
  match archive.make disk_fs [name] mode with
  | Some a => a
  | None => empty_archive
  end.

Definition reader_a : archive.t := reader "a.pak" archive.memory.
Definition reader_b : archive.t := reader "b.pak" archive.disk.
Definition reader_bad : archive.t := reader "bad.pak" archive.memory.

(** Mount A, open [common.txt] (now cached), then mount B. *)
Definition vfs_a_cached : vfs.t :=
  (vfs.open (C := stored) (mounted [ ("a.pak"%string, archive.memory) ])
     "common.txt").2.


End samples.

(** Reading a stream from where it stands to its end, as a consumer of
    the stream does. *)
Definition read_to_end (s : vfstream.t) : list byte :=
  (vfstream.read s
     (vsize (vfstream.contents s) - vfstreambuf.gpos (vfstream.buffer_ s))).1.

(** The round trip of the codec on [b] under method [m]:
    [decompress(compress(b, m), m, |b|)] returns exactly [b]. *)
Definition round_trip {C : zlib.codec} (b : list byte)
    (m : compression_method) : Prop :=
  exists c, compression_engine.compress b m = ok c /\
            compression_engine.decompress c m (vsize b) = ok b.

(** The result codes on which [deflate_decompress] gives up. *)
Definition inflate_failed (result : Z) : bool :=
  ((result =? zlib.Z_STREAM_ERROR) || (result =? zlib.Z_DATA_ERROR)
   || (result =? zlib.Z_MEM_ERROR))%bool.

(** The number of bytes in 4 GiB. *)
Definition four_GiB : nat := Z.to_nat (2 ^ 32).

(** The calls a client can make on a builder once it is constructed. *)
Inductive builder_call :=
| call_add_file (source : filesystem.path) (name : string)
    (method : compression_method)
| call_add_directory (fs : filesystem.node)
    (directory_path : filesystem.path) (archive_prefix : string)
    (method : compression_method)
| call_set_default_compression (method : compression_method).

Definition run_call (b : archive_builder.t) (c : builder_call)
  : archive_builder.t :=
  match c with
  | call_add_file source name method =>
      archive_builder.add_file b source name method
  | call_add_directory fs directory_path archive_prefix method =>
      archive_builder.add_directory b fs directory_path archive_prefix method
  | call_set_default_compression method =>
      archive_builder.set_default_compression b method
  end.

Definition run_calls (b : archive_builder.t) (cs : list builder_call)
  : archive_builder.t :=
  fold_left run_call cs b.

(** The method [add_file] and [add_directory] record for an argument. *)
Definition effective_method (b : archive_builder.t)
    (method : compression_method) : compression_method :=
  if decide (method = format.none)
  then archive_builder.default_compression_ b
  else method.

(** An output stream that is good and whose put position is at its end. *)
Definition appending (s : ofstream.t) : Prop :=
  ofstream.failbit s = false /\
  ofstream.pos s = vsize (ofstream.contents s) /\
  ofstream.pos s <= ofstream.max_offset.

(** ** Vocabulary for the overlay properties *)

(** The archives in the order [open] visits them. *)
Definition visit_order (v : vfs.t) : list archive.t :=
  match vfs.search_order_ v with
  | vfs.mount_order => vfs.archives_ v
  | vfs.reverse_mount_order => rev (vfs.archives_ v)
  end.

(** The cached bytes [open] would return for a name, if any. *)
Definition cache_hit (v : vfs.t) (name : string) : option (list byte) :=
  if vfs.cache_enabled_ v then vfs.cache_ v !! name else None.

(** The stream an archive yields for a name when its directory contains
    the name and its [open] succeeds. *)
Definition serves {C : zlib.codec} (a : archive.t) (name : string)
  : option vfstream.t :=
  if archive.contains a name then
    match (archive.open a name).1 with
    | ok stream => Some stream
    | unexpected _ => None
    end
  else None.

(** The first archive of a list that serves a name. *)
Fixpoint first_served {C : zlib.codec} (archs : list archive.t)
    (name : string) : option vfstream.t :=
  match archs with
  | [] => None
  | a :: archs' =>
      match serves a name with
      | Some stream => Some stream
      | None => first_served archs' name
      end
  end.

(** Opening a sequence of names, keeping the VFS. *)
Definition open_all {C : zlib.codec} (v : vfs.t) (names : list string) : vfs.t :=
  fold_left (fun v name => (vfs.open v name).2) names v.

(** Every cache entry equals what a fresh open (empty cache) produces. *)
Definition cache_fresh {C : zlib.codec} (v : vfs.t) : Prop :=
  forall name data,
    vfs.cache_ v !! name = Some data ->
    exists stream,
      (vfs.open (vfs.clear_cache v) name).1 = ok stream /\
      read_to_end stream = data.

(** ** Vocabulary for directory loading *)

(** A directory record as it lies in a file: the declared name length,
    the name bytes that follow it, and the 25 bytes of the fixed fields. *)
Record raw_record := {
  declared_length : Z;
  name_bytes : list byte;
  fixed_fields : list byte
}.

Definition raw_bytes (r : raw_record) : list byte :=
  le_bytes 4 (declared_length r) ++ name_bytes r ++ fixed_fields r.

(** The record is framed: the bytes it declares are there. *)
Definition framed (r : raw_record) : Prop :=
  0 <= declared_length r < 2 ^ 32 /\
  vsize (name_bytes r) = declared_length r /\
  vsize (fixed_fields r) = 25.

(** A [filename_length] of 0, or of 4096 or more. *)
Definition malformed (r : raw_record) : bool :=
  ((declared_length r =? 0) || (4096 <=? declared_length r))%bool.

Definition record_entry (r : raw_record) : directory_entry :=
  {| filename := string_of_list_byte (name_bytes r);
     data_offset := le_value (slice (fixed_fields r) 0 8);
     compressed_size := le_value (slice (fixed_fields r) 8 8);
     uncompressed_size := le_value (slice (fixed_fields r) 16 8);
     compression := hd x00 (slice (fixed_fields r) 24 1) |}.

(** The directory obtained from the records that are not malformed,
    inserted in order, a later name replacing an earlier one. *)
Definition load_records (rs : list raw_record)
    (d : gmap string directory_entry) : gmap string directory_entry :=
  fold_left
    (fun d r =>
       if malformed r then d
       else <[filename (record_entry r) := record_entry r]> d)
    rs d.

(** The archive reads [file]: through a good open stream in disk mode,
    from its buffer in memory mode. *)
Definition backed_by (a : archive.t) (file : list byte) : Prop :=
  match archive.mode_ a with
  | archive.disk =>
      ifstream.is_open (archive.file_stream_ a) = true /\
      ifstream.contents (archive.file_stream_ a) = file /\
      ifstream.failbit (archive.file_stream_ a) = false
  | archive.memory => archive.memory_data_ a = file
  end.

(** A container whose directory holds two malformed records, one with
    length 0 and one with length 4096, between two regular ones. *)
Module gap_sample.

Definition fields (offset csize usize : Z) (tag : byte) : list byte :=
  le_bytes 8 offset ++ le_bytes 8 csize ++ le_bytes 8 usize ++ [tag].

Definition records : list raw_record :=
  [ {| declared_length := 1; name_bytes := samples.bytes "x";
       fixed_fields := fields 24 2 2 x00 |};
    {| declared_length := 0; name_bytes := [];
       fixed_fields := fields 24 2 2 x00 |};
    {| declared_length := 4096; name_bytes := repeat x41 4096;
       fixed_fields := fields 24 2 2 x00 |};
    {| declared_length := 1; name_bytes := samples.bytes "y";
       fixed_fields := fields 25 1 1 x00 |} ].

Definition header : archive_header :=
  {| magic := MAGIC_NUMBER; version := FORMAT_VERSION; directory_offset := 26;
     directory_count := 4; reserved := 0 |}.

Definition pak : list byte :=
  header_bytes header ++ samples.bytes "hi" ++ flat_map raw_bytes records ++ [].

Definition fs : filesystem.node :=
  filesystem.directory [ ("gap.pak"%string, filesystem.regular_file pak) ].

End gap_sample.


(** ** Vocabulary for the container layout *)

(** What [build] appends to the data region for one source and the size
    it records as uncompressed, when the method is one it can apply. *)
Definition stored_blob {C : zlib.codec} (method : compression_method)
    (data : list byte) : option (list byte * Z) :=
  if decide (method = format.none) then Some (data, 0)
  else
    match compression_engine.compress data method with
    | ok c => Some (c, vsize data)
    | unexpected _ => None
    end.

(** The data region and the directory of a container, computed from the
    file list without streams: each blob lies at the running offset. *)
Fixpoint layout {C : zlib.codec} (fs : filesystem.node)
    (files : list archive_builder.file_entry) (offset : Z)
  : option (list byte * list directory_entry) :=
  match files with
  | [] => Some ([], [])
  | file :: files' =>
      match filesystem.read_file fs (archive_builder.source_path file) with
      | None => None
      | Some data =>
          match stored_blob (archive_builder.compression file) data with
          | None => None
          | Some (blob, recorded) =>
              match layout fs files' (offset + vsize blob) with
              | None => None
              | Some (rest, directory) =>
                  Some (blob ++ rest,
                        {| filename := archive_builder.archive_path file;
                           data_offset := offset;
                           compressed_size := vsize blob;
                           uncompressed_size := recorded;
                           compression := archive_builder.compression file |}
                        :: directory)
              end
          end
      end
  end.

(** The header [build] leaves in a completed container. *)
Definition final_header (count data_size : Z) : archive_header :=
  {| magic := MAGIC_NUMBER; version := FORMAT_VERSION;
     directory_offset := sizeof_header + data_size;
     directory_count := u32 count; reserved := 0 |}.

(** A directory entry as the record [build] writes for it. *)
Definition entry_record (e : directory_entry) : raw_record :=
  {| declared_length := u32 (str_size (filename e));
     name_bytes := list_byte_of_string (filename e);
     fixed_fields :=
       le_bytes 8 (data_offset e) ++ le_bytes 8 (compressed_size e)
       ++ le_bytes 8 (uncompressed_size e) ++ [compression e] |}.

(** A name the reader keeps: not empty, shorter than 4096 bytes. *)
Definition loadable_name (name : string) : Prop :=
  0 < str_size name < 4096.

(** The archive as the constructor sets it up before [load_directory]. *)
Definition unloaded (fs : filesystem.node) (path : filesystem.path)
    (mode : archive.access_mode) : archive.t :=
  match mode with
  | archive.disk =>
      {| archive.mode_ := archive.disk;
         archive.file_stream_ := ifstream.open (filesystem.read_file fs path);
         archive.memory_data_ := []; archive.directory_ := ∅ |}
  | archive.memory =>
      {| archive.mode_ := archive.memory;
         archive.file_stream_ := ifstream.closed;
         archive.memory_data_ :=
           match filesystem.read_file fs path with
           | Some contents => contents
           | None => []
           end;
         archive.directory_ := ∅ |}
  end.


(** The entry [e] describes [file]: it carries its name and method, and
    the blob stored for its source lies in the data region [data], which
    starts at offset [base] of the container, where [e] says. *)
Definition placed {C : zlib.codec} (fs : filesystem.node) (data : list byte)
    (base : Z) (file : archive_builder.file_entry) (e : directory_entry)
  : Prop :=
  filename e = archive_builder.archive_path file /\
  compression e = archive_builder.compression file /\
  exists src blob pre post,
    filesystem.read_file fs (archive_builder.source_path file) = Some src /\
    stored_blob (archive_builder.compression file) src
    = Some (blob, uncompressed_size e) /\
    data = pre ++ blob ++ post /\
    data_offset e = base + vsize pre /\
    compressed_size e = vsize blob.

(** The entry as a reader gets it back from its record: the recorded
    sizes and offset are kept to 64 bits. *)
Definition reloaded (e : directory_entry) : directory_entry :=
  {| filename := filename e; data_offset := u64 (data_offset e);
     compressed_size := u64 (compressed_size e);
     uncompressed_size := u64 (uncompressed_size e);
     compression := compression e |}.

(** An archive that has loaded [directory] and reads [file]. *)
Definition loaded (a : archive.t) (file : list byte)
    (directory : gmap string directory_entry) : Prop :=
  backed_by a file /\ archive.directory_ a = directory.

#[global] Instance loadable_name_dec name : Decision (loadable_name name) :=
  decide (0 < str_size name /\ str_size name < 4096).

(** A disk-mode reader whose stream has failed. *)
Definition poisoned (a : archive.t) : Prop :=
  archive.mode_ a = archive.disk /\
  ifstream.failbit (archive.file_stream_ a) = true.

(** The error [load_directory] returns for a file that is missing, or
    present with [present = true], when no header can be read from it. *)
Definition no_header_error (mode : archive.access_mode) (present : bool)
  : archive.archive_error :=
  match mode with
  | archive.disk =>
      if present then archive.read_error else archive.file_not_found
  | archive.memory => archive.invalid_format
  end.

(** The get position of a stream buffer lies within its data. *)
Definition in_range (b : vfstreambuf.t) : Prop :=
  0 <= vfstreambuf.gpos b <= vsize (vfstreambuf.data_ b).

(** The relative paths of the regular files among the entries found by a
    directory walk, in the order of the walk. *)
Definition regular_files (found : list (filesystem.path * filesystem.node))
  : list filesystem.path :=
  flat_map (fun '(rel, n) =>
              match n with
              | filesystem.regular_file _ => [rel]
              | _ => []
              end) found.

(** The entry [add_directory] records for the file at [rel]. *)
Definition added_entry (b : archive_builder.t)
    (directory_path : filesystem.path) (archive_prefix : string)
    (method : compression_method) (rel : filesystem.path)
  : archive_builder.file_entry :=
  {| archive_builder.source_path := directory_path ++ rel;
     archive_builder.archive_path :=
       archive_builder.entry_archive_path archive_prefix rel;
     archive_builder.compression := effective_method b method |}.

(** The header [build] writes first, before the offset of the directory
    is known. *)
Definition placeholder_header (count : Z) : archive_header :=
  {| magic := MAGIC_NUMBER; version := FORMAT_VERSION; directory_offset := 0;
     directory_count := u32 count; reserved := 0 |}.

(** Strictly before, in the order of [std::string]. *)
Definition string_lt (a b : string) : Prop := (a ?= b)%string = Lt.

(** ** Vocabulary for the limits of a Reader's calls *)

(** The entry recorded under a name, if there is one, has sizes that a
    byte vector can take and a range whose end does not wrap in 64 bits.
    Within these limits [open] gets its vectors (beyond them
    archive.cpp:175 and compression.cpp:94 throw [std::length_error]
    instead of returning) and the copy of the memory mode stays inside the
    buffer once the bounds check has passed. *)
Definition within_limits (a : archive.t) (name : string) : Prop :=
  match archive.directory_ a !! name with
  | Some e =>
      compressed_size e < 2 ^ 63 /\ uncompressed_size e < 2 ^ 63 /\
      data_offset e + compressed_size e < 2 ^ 64
  | None => True
  end.

(** The largest directory count for which the properties below take the
    reservation of archive.cpp:60 to succeed on the host. *)
Definition small_count : Z := 65536.

(** A container whose first record declares a name of 4096 bytes of
    which only 30 are in the file, followed by a regular record. *)
Module short_sample.

Definition records : list raw_record :=
  [ {| declared_length := 4096; name_bytes := repeat x41 30;
       fixed_fields := gap_sample.fields 24 2 2 x00 |};
    {| declared_length := 1; name_bytes := samples.bytes "y";
       fixed_fields := gap_sample.fields 25 1 1 x00 |} ].

Definition header : archive_header :=
  {| magic := MAGIC_NUMBER; version := FORMAT_VERSION; directory_offset := 26;
     directory_count := 2; reserved := 0 |}.

Definition pak : list byte :=
  header_bytes header ++ samples.bytes "hi" ++ flat_map raw_bytes records.

Definition fs : filesystem.node :=
  filesystem.directory [ ("short.pak"%string, filesystem.regular_file pak) ].

End short_sample.

(** A container with one entry inside the file and one whose range ends
    beyond it, read in disk mode; [after_failure] is the Reader as the
    open of the second entry leaves it. *)
Module poison_sample.

Definition records : list raw_record :=
  [ {| declared_length := 1; name_bytes := samples.bytes "x";
       fixed_fields := gap_sample.fields 24 2 2 x00 |};
    {| declared_length := 1; name_bytes := samples.bytes "y";
       fixed_fields := gap_sample.fields 24 1000 1000 x00 |} ].

Definition header : archive_header :=
  {| magic := MAGIC_NUMBER; version := FORMAT_VERSION; directory_offset := 26;
     directory_count := 2; reserved := 0 |}.

Definition pak : list byte :=
  header_bytes header ++ samples.bytes "hi" ++ flat_map raw_bytes records.

Definition fs : filesystem.node :=
  filesystem.directory [ ("p.pak"%string, filesystem.regular_file pak) ].

Definition reader : archive.t :=
  match archive.make fs ["p.pak"%string] archive.disk with
  | Some a => a
  | None => samples.empty_archive
  end.


End poison_sample.

(** * Properties *)

(** ** Bytes and little-endian integers *)

Lemma Z_of_byte_bounds b : 0 <= Z_of_byte b < 256.
Proof.
  unfold Z_of_byte. pose proof (Byte.to_N_bounded b). lia.
Qed.

Lemma Z_of_byte_of_Z z : Z_of_byte (byte_of_Z z) = z mod 256.
Proof.
  unfold Z_of_byte, byte_of_Z.
  pose proof (Z.mod_pos_bound z 256 ltac:(lia)) as Hb.
  destruct (Byte.of_N (Z.to_N (z mod 256))) as [b|] eqn:E.
  - apply Byte.to_of_N in E. rewrite E. lia.
  - apply Byte.of_N_None_iff in E. lia.
Qed.

Lemma byte_of_Z_of_byte b : byte_of_Z (Z_of_byte b) = b.
Proof.
  unfold byte_of_Z. pose proof (Z_of_byte_bounds b) as Hb.
  rewrite Z.mod_small by lia. unfold Z_of_byte. rewrite N2Z.id.
  now rewrite Byte.of_to_N.
Qed.

Lemma length_le_bytes n z : length (le_bytes n z) = n.
Proof. revert z. induction n as [|n IH]; intros z; cbn; [done|]. now rewrite IH. Qed.

Lemma vsize_le_bytes n z : vsize (le_bytes n z) = Z.of_nat n.
Proof. unfold vsize. now rewrite length_le_bytes. Qed.

Lemma le_value_bounds bs : 0 <= le_value bs < 256 ^ vsize bs.
Proof.
  unfold vsize. induction bs as [|b bs IH]; cbn [le_value length].
  - cbn. lia.
  - pose proof (Z_of_byte_bounds b). rewrite Nat2Z.inj_succ, Z.pow_succ_r by lia.
    lia.
Qed.

Lemma le_value_le_bytes n z : le_value (le_bytes n z) = z mod 256 ^ Z.of_nat n.
Proof.
  revert z. induction n as [|n IH]; intros z.
  - cbn. now rewrite Z.mod_1_r.
  - cbn [le_bytes le_value]. rewrite IH, Z_of_byte_of_Z.
    rewrite Nat2Z.inj_succ, Z.pow_succ_r by lia.
    rewrite (Z.rem_mul_r z 256 (256 ^ Z.of_nat n)) by lia. lia.
Qed.

Lemma le_value_le_bytes_small n z :
  0 <= z < 256 ^ Z.of_nat n -> le_value (le_bytes n z) = z.
Proof. intros H. rewrite le_value_le_bytes. now apply Z.mod_small. Qed.

Lemma vsize_app (a b : list byte) : vsize (a ++ b) = vsize a + vsize b.
Proof. unfold vsize. rewrite length_app. lia. Qed.

Lemma vsize_nonneg (a : list byte) : 0 <= vsize a.
Proof. unfold vsize. lia. Qed.

Lemma slice_app_exact (pre mid post : list byte) :
  slice (pre ++ mid ++ post) (vsize pre) (vsize mid) = mid.
Proof.
  unfold slice, vsize. rewrite !Nat2Z.id.
  rewrite drop_app_length. now rewrite take_app_length.
Qed.

Lemma slice_0_all (l : list byte) : slice l 0 (vsize l) = l.
Proof. unfold slice, vsize. rewrite Nat2Z.id. cbn. apply firstn_all. Qed.

Lemma slice_0_prefix (a b : list byte) : slice (a ++ b) 0 (vsize a) = a.
Proof. apply (slice_app_exact [] a b). Qed.

Lemma overwrite_full (old got : list byte) :
  length old = length got -> overwrite old got = got.
Proof.
  intros H. unfold overwrite. rewrite <- H, drop_all. apply app_nil_r.
Qed.

(** ** The codec (compression.cpp) *)
Section codec_properties.
Import zlib compression_engine.
Context {C : codec}.

Lemma deflate_unfold (strm : z_stream) space :
  deflate strm space =
  (match drop (Z.to_nat space) (pending strm) with
   | [] => Z_STREAM_END
   | _ :: _ => Z_OK
   end,
   take (Z.to_nat space) (pending strm),
   {| pending := drop (Z.to_nat space) (pending strm);
      end_ret := end_ret strm; end_avail_in := end_avail_in strm;
      avail_in := 0;
      avail_out := space - vsize (take (Z.to_nat space) (pending strm)) |}).
Proof. with_strategy transparent [deflate] (unfold deflate). reflexivity. Qed.

Lemma inflate_unfold (strm : z_stream) space :
  inflate strm space =
  if space <=? vsize (pending strm) then
    (Z_OK, take (Z.to_nat space) (pending strm),
     {| pending := drop (Z.to_nat space) (pending strm);
        end_ret := end_ret strm; end_avail_in := end_avail_in strm;
        avail_in := avail_in strm;
        avail_out := space - vsize (take (Z.to_nat space) (pending strm)) |})
  else
    (end_ret strm, pending strm,
     {| pending := []; end_ret := end_ret strm;
        end_avail_in := end_avail_in strm; avail_in := end_avail_in strm;
        avail_out := space - vsize (pending strm) |}).
Proof. with_strategy transparent [inflate] (unfold inflate). reflexivity. Qed.

Lemma deflate_compress_loop_step stream compressed :
  deflate_compress_loop stream compressed =
  let '(result, written, stream') := deflate stream chunk_size in
  if result =? Z_STREAM_ERROR then unexpected compression_failed
  else if avail_out stream' =? 0
       then deflate_compress_loop stream' (compressed ++ written)
       else if negb (result =? Z_STREAM_END)
            then unexpected compression_failed
            else ok (compressed ++ written).
Proof.
  funelim (deflate_compress_loop stream compressed);
    rewrite Hcall; cbn beta iota;
    repeat match goal with
           | H : (_ =? _) = _ |- _ => rewrite H
           end; reflexivity.
Qed.

Lemma deflate_decompress_loop_step stream decompressed :
  deflate_decompress_loop stream decompressed =
  let '(result, written, stream') := inflate stream chunk_size in
  if ((result =? Z_STREAM_ERROR) || (result =? Z_DATA_ERROR)
      || (result =? Z_MEM_ERROR))%bool
  then unexpected decompression_failed
  else if ((avail_out stream' =? 0) && negb (result =? Z_STREAM_END))%bool
       then deflate_decompress_loop stream' (decompressed ++ written)
       else ok (result, stream', decompressed ++ written).
Proof.
  funelim (deflate_decompress_loop stream decompressed);
    rewrite Hcall; cbn beta iota;
    repeat match goal with
           | H : _ = true |- _ => rewrite H
           | H : _ = false |- _ => rewrite H
           end; reflexivity.
Qed.

(** With zlib delivering its output chunk by chunk, the compression loop
    gathers exactly the pending output. *)
Lemma deflate_compress_loop_ok stream compressed :
  deflate_compress_loop stream compressed = ok (compressed ++ pending stream).
Proof.
  remember (length (pending stream)) as n eqn:Hn.
  revert stream compressed Hn.
  induction n as [n IH] using lt_wf_ind. intros stream compressed Hn.
  rewrite deflate_compress_loop_step.
  assert (Hspace : 0 < chunk_size) by reflexivity.
  revert Hspace. generalize chunk_size as space. intros space Hspace.
  rewrite deflate_unfold.
  cbn [avail_out]. unfold vsize. rewrite length_take.
  destruct (drop (Z.to_nat space) (pending stream)) as [|x rest] eqn:Hdrop.
  - change (Z_STREAM_END =? Z_STREAM_ERROR) with false. cbn match.
    assert (Hlen : (length (pending stream) <= Z.to_nat space)%nat).
    { apply (f_equal length) in Hdrop. rewrite length_drop in Hdrop.
      cbn in Hdrop. lia. }
    rewrite take_ge by lia.
    destruct (space - Z.of_nat (Z.to_nat space `min` length (pending stream)) =? 0)
      eqn:Hfull.
    + apply Z.eqb_eq in Hfull.
      rewrite (IH 0%nat); cbn [pending]; [|lia|reflexivity].
      now rewrite app_nil_r.
    + reflexivity.
  - change (Z_OK =? Z_STREAM_ERROR) with false. cbn match.
    assert (Hlen : (Z.to_nat space < length (pending stream))%nat).
    { apply (f_equal length) in Hdrop. rewrite length_drop in Hdrop.
      cbn in Hdrop. lia. }
    replace (space - Z.of_nat (Z.to_nat space `min` length (pending stream)) =? 0)
      with true by (symmetry; apply Z.eqb_eq; lia).
    rewrite (IH (length (x :: rest))); cbn [pending]; [| |reflexivity].
    + rewrite <- app_assoc, <- Hdrop. now rewrite take_drop.
    + rewrite <- Hdrop, length_drop. lia.
Qed.

Lemma deflate_compress_ok data :
  deflate_compress data =
  ok (deflate_bytes (slice data 0 (uInt (vsize data)))).
Proof.
  unfold deflate_compress. rewrite deflate_compress_loop_ok. reflexivity.
Qed.

(** The decompression loop leaves with the status zlib reports at the end
    of its output, having gathered all of it. *)
Lemma deflate_decompress_loop_result stream decompressed :
  if inflate_failed (end_ret stream)
  then deflate_decompress_loop stream decompressed
       = unexpected decompression_failed
  else exists stream',
      deflate_decompress_loop stream decompressed
      = ok (end_ret stream, stream', decompressed ++ pending stream)
      /\ avail_in stream' = end_avail_in stream.
Proof.
  remember (length (pending stream)) as n eqn:Hn.
  revert stream decompressed Hn.
  induction n as [n IH] using lt_wf_ind. intros stream decompressed Hn.
  rewrite deflate_decompress_loop_step.
  assert (Hspace : 0 < chunk_size) by reflexivity.
  revert Hspace. generalize chunk_size as space. intros space Hspace.
  rewrite inflate_unfold. unfold vsize.
  destruct (space <=? Z.of_nat (length (pending stream))) eqn:Hle.
  - apply Z.leb_le in Hle. cbn [avail_out].
    change ((Z_OK =? Z_STREAM_ERROR) || (Z_OK =? Z_DATA_ERROR)
            || (Z_OK =? Z_MEM_ERROR))%bool with false.
    change (negb (Z_OK =? Z_STREAM_END)) with true. cbn match.
    rewrite length_take.
    replace (space - Z.of_nat (Z.to_nat space `min` length (pending stream)) =? 0)
      with true by (symmetry; apply Z.eqb_eq; lia).
    cbn [andb].
    specialize (IH (length (drop (Z.to_nat space) (pending stream)))).
    specialize (IH ltac:(rewrite length_drop; lia)
                  {| pending := drop (Z.to_nat space) (pending stream);
                     end_ret := end_ret stream;
                     end_avail_in := end_avail_in stream;
                     avail_in := avail_in stream;
                     avail_out := space - Z.of_nat (Z.to_nat space `min` length (pending stream)) |}
                  (decompressed ++ take (Z.to_nat space) (pending stream))
                  eq_refl).
    cbn [end_ret pending end_avail_in] in IH.
    destruct (inflate_failed (end_ret stream)); [exact IH|].
    destruct IH as (stream' & Heq & Hin). exists stream'. split; [|exact Hin].
    rewrite Heq, <- app_assoc, take_drop. reflexivity.
  - apply Z.leb_gt in Hle. fold (inflate_failed (end_ret stream)).
    destruct (inflate_failed (end_ret stream)); [reflexivity|].
    cbn [avail_out].
    replace (space - Z.of_nat (length (pending stream)) =? 0)
      with false by (symmetry; apply Z.eqb_neq; lia).
    cbn [andb]. eexists. split; reflexivity.
Qed.

Lemma deflate_decompress_eq compressed_data uncompressed_size :
  deflate_decompress compressed_data uncompressed_size =
  let r := inflate_bytes
             (slice compressed_data 0 (uInt (vsize compressed_data))) in
  if inflate_failed (inf_ret r) then unexpected decompression_failed
  else if (negb (inf_ret r =? Z_STREAM_END) && (0 <? inf_avail_in r))%bool
       then unexpected decompression_failed
       else ok (inf_output r).
Proof.
  unfold deflate_decompress.
  pose proof (deflate_decompress_loop_result
                (inflate_stream
                   (slice compressed_data 0 (uInt (vsize compressed_data))))
                []) as H.
  cbn [inflate_stream end_ret pending end_avail_in] in H. cbn zeta.
  destruct (inflate_failed _).
  - rewrite H. reflexivity.
  - destruct H as (stream' & -> & ->). reflexivity.
Qed.



Lemma compress_deflate data :
  compress data format.deflate =
  ok (deflate_bytes (slice data 0 (uInt (vsize data)))).
Proof. unfold compress. cbn. apply deflate_compress_ok. Qed.

Lemma round_trip_none b : round_trip b format.none.
Proof. exists b. split; reflexivity. Qed.


(** An input whose length is a multiple of 2^32 reaches zlib as the empty
    input. *)
Lemma compress_deflate_wrapped data :
  uInt (vsize data) = 0 ->
  compress data format.deflate = ok (deflate_bytes []).
Proof.
  intros H. rewrite compress_deflate, H. reflexivity.
Qed.

End codec_properties.


Lemma vsize_repeat (x : byte) n : vsize (repeat x n) = Z.of_nat n.
Proof. unfold vsize. now rewrite repeat_length. Qed.

Lemma uInt_four_GiB : compression_engine.uInt (Z.of_nat four_GiB) = 0.
Proof.
  unfold four_GiB. rewrite Z2Nat.id by lia.
  unfold compression_engine.uInt. apply Z.mod_same. lia.
Qed.

Lemma four_GiB_pos : (0 < four_GiB)%nat.
Proof. unfold four_GiB. change 0%nat with (Z.to_nat 0). apply Z2Nat.inj_lt; lia. Qed.

Lemma repeat_neq (n : nat) : (0 < n)%nat -> repeat x00 n <> repeat x01 n.
Proof. destruct n; [lia|]. cbn. discriminate. Qed.

(** C2 (for every byte sequence b and supported method m,
    decompress(compress(b, m), m, |b|) returns exactly b): the engine hands
    zlib [static_cast<uInt>(data.size())] bytes, so two different inputs of
    2^32 bytes are both compressed as the empty input; the compressed
    forms coincide and the round trip cannot hold for both. *)
Theorem deflate_round_trip_lost_at_4GiB (C : zlib.codec) :
  let b0 := repeat x00 four_GiB in
  let b1 := repeat x01 four_GiB in
  b0 <> b1 /\
  compression_engine.compress b0 format.deflate = ok (zlib.deflate_bytes []) /\
  compression_engine.compress b1 format.deflate = ok (zlib.deflate_bytes []) /\
  ~ (round_trip b0 format.deflate /\ round_trip b1 format.deflate).
Proof.
  cbv zeta. generalize four_GiB_pos uInt_four_GiB. generalize four_GiB as n.
  intros n Hpos Hwrap.
  pose proof (repeat_neq n Hpos) as Hne.
  assert (H0 : compression_engine.compress (repeat x00 n) format.deflate
               = ok (zlib.deflate_bytes [])).
  { apply compress_deflate_wrapped. now rewrite vsize_repeat. }
  assert (H1 : compression_engine.compress (repeat x01 n) format.deflate
               = ok (zlib.deflate_bytes [])).
  { apply compress_deflate_wrapped. now rewrite vsize_repeat. }
  repeat split; try assumption.
  intros [(c0 & Hc0 & Hd0) (c1 & Hc1 & Hd1)].
  rewrite H0 in Hc0. rewrite H1 in Hc1.
  injection Hc0 as <-. injection Hc1 as <-.
  rewrite vsize_repeat in Hd0, Hd1.
  rewrite Hd0 in Hd1. injection Hd1 as Heq. now apply Hne.
Qed.

(** ** The builder (archive_builder.cpp) *)
Section builder_properties.
Import archive_builder.

Lemma effective_method_idem b m :
  effective_method b (effective_method b m) = effective_method b m.
Proof.
  unfold effective_method. destruct (decide (m = format.none)) as [->|Hm].
  - destruct (decide (default_compression_ b = format.none)) as [E|E]; congruence.
  - destruct (decide (m = format.none)); congruence.
Qed.

Lemma add_file_files b source name m :
  files_ (add_file b source name m) =
  files_ b ++ [ {| source_path := source; archive_path := name;
                   compression := effective_method b m |} ].
Proof. reflexivity. Qed.


(** What the walk of [add_directory] appends: one entry per regular file,
    all with the same method. *)
Lemma add_directory_walk (found : list (filesystem.path * filesystem.node))
    b directory_path archive_prefix m :
  let b' :=
    fold_left
      (fun b '(rel, n) =>
         match n with
         | filesystem.regular_file _ =>
             add_file b (directory_path ++ rel)
               (entry_archive_path archive_prefix rel) m
         | _ => b
         end) found b in
  default_compression_ b' = default_compression_ b /\
  exists added,
    files_ b' = files_ b ++ added /\
    Forall (fun e => compression e = effective_method b m) added.
Proof.
  revert b. induction found as [|[rel n] found IH]; intros b; cbn [fold_left].
  - split; [reflexivity|]. exists []. split; [now rewrite app_nil_r|constructor].
  - destruct n as [contents|entries|].
    + specialize (IH (add_file b (directory_path ++ rel)
                        (entry_archive_path archive_prefix rel) m)).
      cbn zeta in IH. destruct IH as (Hd & added & Hf & Hall).
      split; [now rewrite Hd|].
      rewrite Hf, add_file_files, <- app_assoc. eexists. split; [reflexivity|].
      constructor; [reflexivity|]. exact Hall.
    + apply IH.
    + apply IH.
Qed.

Lemma add_directory_files b fs directory_path archive_prefix m :
  let b' := add_directory b fs directory_path archive_prefix m in
  default_compression_ b' = default_compression_ b /\
  exists added,
    files_ b' = files_ b ++ added /\
    Forall (fun e => compression e = effective_method b m) added.
Proof.
  unfold add_directory.
  destruct (filesystem.lookup fs directory_path) as [[contents|entries|]|].
  2: { fold (effective_method b m).
       pose proof (add_directory_walk
                     (filesystem.walk (filesystem.directory entries)) b
                     directory_path archive_prefix (effective_method b m)) as H.
       rewrite effective_method_idem in H. exact H. }
  all: split; [reflexivity|]; exists []; split;
    [now rewrite app_nil_r|constructor].
Qed.

(** An uncompressed entry in the list can only come from a default that
    was [none], at construction or through [set_default_compression]. *)
Lemma run_calls_uncompressed (H : Prop) cs : forall b,
  (forall e, In e (files_ b) -> compression e = format.none -> H) ->
  (default_compression_ b = format.none -> H) ->
  (In (call_set_default_compression format.none) cs -> H) ->
  forall e, In e (files_ (run_calls b cs)) -> compression e = format.none -> H.
Proof.
  induction cs as [|c cs IH]; intros b Hfiles Hdef Hset e He Hnone.
  - exact (Hfiles e He Hnone).
  - cbn [run_calls fold_left] in He.
    assert (Hnew : forall m e', compression e' = effective_method b m ->
                                compression e' = format.none -> H).
    { intros m e' Hm Hn. rewrite Hn in Hm. unfold effective_method in Hm.
      destruct (decide (m = format.none)); [apply Hdef|]; congruence. }
    apply (IH (run_call b c)) with (e := e); try assumption.
    + destruct c as [source name m|fs dp ap m|m]; cbn [run_call]; intros e' He'.
      * rewrite add_file_files in He'. apply in_app_or in He' as [He'|He'].
        -- now apply Hfiles.
        -- destruct He' as [<-|[]]. now apply (Hnew m).
      * destruct (add_directory_files b fs dp ap m) as (_ & added & Hf & Hall).
        rewrite Hf in He'. apply in_app_or in He' as [He'|He'].
        -- now apply Hfiles.
        -- rewrite Forall_forall in Hall. apply (Hnew m).
           apply Hall. now apply list_elem_of_In.
      * now apply Hfiles.
    + destruct c as [source name m|fs dp ap m|m]; cbn [run_call].
      * exact Hdef.
      * destruct (add_directory_files b fs dp ap m) as (Hd & _).
        rewrite Hd. exact Hdef.
      * cbn. intros ->. apply Hset. now left.
    + intros Hin. apply Hset. now right.
Qed.

End builder_properties.

(** C8, as stated, fails: a builder constructed with default [deflate]
    records an uncompressed entry once [set_default_compression(none)] has
    been called. *)
Lemma uncompressed_entry_without_none_constructor :
  let b := run_calls (archive_builder.make format.deflate)
             [ call_set_default_compression format.none;
               call_add_file ["f.bin"%string] "f.bin" format.none ] in
  map archive_builder.compression (archive_builder.files_ b) = [format.none]
  /\ format.deflate <> format.none.
Proof. split; [reflexivity|discriminate]. Qed.

(** C8, amended: [add_file] and [add_directory] called with method [none]
    record the builder's current default for the entry (for each entry
    found by the walk); an uncompressed entry can only be obtained while
    the current default is [none], whether it was given to the constructor
    or set by [set_default_compression]. *)
Theorem none_argument_means_current_default (b : archive_builder.t) :
  (forall source name,
      archive_builder.files_ (archive_builder.add_file b source name format.none)
      = archive_builder.files_ b
        ++ [ {| archive_builder.source_path := source;
                archive_builder.archive_path := name;
                archive_builder.compression :=
                  archive_builder.default_compression_ b |} ]) /\
  (forall fs directory_path archive_prefix,
      exists added,
        archive_builder.files_
          (archive_builder.add_directory b fs directory_path archive_prefix
             format.none)
        = archive_builder.files_ b ++ added /\
        Forall (fun e => archive_builder.compression e
                         = archive_builder.default_compression_ b) added) /\
  (forall default_compression cs e,
      In e (archive_builder.files_
              (run_calls (archive_builder.make default_compression) cs)) ->
      archive_builder.compression e = format.none ->
      default_compression = format.none
      \/ In (call_set_default_compression format.none) cs).
Proof.
  split; [|split].
  - intros source name. reflexivity.
  - intros fs dp ap.
    destruct (add_directory_files b fs dp ap format.none) as (_ & added & Hf & Hall).
    exists added. split; [exact Hf|exact Hall].
  - intros d cs e He Hnone.
    apply (run_calls_uncompressed _ cs (archive_builder.make d)) with (e := e);
      try assumption.
    + intros e' [].
    + cbn. intros ->. now left.
    + intros Hin. now right.
Qed.

(** C9: on a path that does not exist or is not a directory,
    [add_directory] returns (it has no error to report) and leaves the
    builder, hence its file list and [file_count()], unchanged. *)
Theorem add_directory_missing_is_noop (b : archive_builder.t)
    (fs : filesystem.node) (directory_path : filesystem.path)
    (archive_prefix : string) (method : compression_method) :
  (forall entries,
      filesystem.lookup fs directory_path
      <> Some (filesystem.directory entries)) ->
  let b' := archive_builder.add_directory b fs directory_path archive_prefix
              method in
  b' = b /\
  archive_builder.files_ b' = archive_builder.files_ b /\
  archive_builder.file_count b' = archive_builder.file_count b.
Proof.
  intros Hnot. cbn zeta. unfold archive_builder.add_directory.
  destruct (filesystem.lookup fs directory_path) as [[contents|entries|]|];
    try (repeat split; reflexivity).
  now destruct (Hnot entries).
Qed.

Lemma add_directory_missing_is_noop_witness :
  archive_builder.add_directory samples.builder_a samples.sources
    ["a"%string; "common.txt"%string] ""%string format.none
  = samples.builder_a.
Proof.
  refine (proj1 (add_directory_missing_is_noop samples.builder_a
                   samples.sources ["a"%string; "common.txt"%string]
                   ""%string format.none _)).
  intros entries. vm_compute. discriminate.
Defined.

Lemma none_argument_means_current_default_witness :
  format.deflate = format.none
  \/ In (call_set_default_compression format.none)
       [ call_set_default_compression format.none;
         call_add_file ["f.bin"%string] "f.bin" format.none ].
Proof.
  refine (proj2 (proj2 (none_argument_means_current_default
                          (archive_builder.make format.deflate)))
            format.deflate _
            {| archive_builder.source_path := ["f.bin"%string];
               archive_builder.archive_path := "f.bin"%string;
               archive_builder.compression := format.none |} _ _).
  - vm_compute. left. reflexivity.
  - reflexivity.
Defined.

(** ** The container written by [build] *)
Section build_properties.
Import archive_builder.
Context {C : zlib.codec}.

Lemma write_appending s bs :
  appending s ->
  ofstream.failbit (ofstream.write s bs) = false ->
  ofstream.write s bs =
  {| ofstream.is_open := ofstream.is_open s;
     ofstream.contents := ofstream.contents s ++ bs;
     ofstream.pos := ofstream.pos s + vsize bs;
     ofstream.failbit := false |} /\
  appending (ofstream.write s bs).
Proof.
  intros (Hf & Hp & Hmax). unfold ofstream.write. rewrite Hf.
  destruct (ofstream.max_offset <? ofstream.pos s + vsize bs) eqn:Hover;
    [discriminate|].
  intros _. apply Z.ltb_ge in Hover.
  assert (Heq : take (Z.to_nat (ofstream.pos s)) (ofstream.contents s) ++ bs
                ++ drop (Z.to_nat (ofstream.pos s + vsize bs))
                     (ofstream.contents s)
                = ofstream.contents s ++ bs).
  { rewrite Hp. unfold vsize. rewrite Nat2Z.id, firstn_all.
    rewrite drop_ge by lia. now rewrite app_nil_r. }
  rewrite Heq. split; [reflexivity|].
  repeat split; cbn; [|exact Hover]. rewrite vsize_app. lia.
Qed.

(** The data loop: what it appends, and the entries it records.  Each
    entry points at the position its data was written at. *)
Lemma write_files_spec fs files : forall output directory current_offset
    output' directory' o2,
  appending output ->
  current_offset = u64 (ofstream.pos output) ->
  write_files fs files output directory current_offset
  = (ok (output', directory'), o2) ->
  appending output' /\
  (exists data, ofstream.contents output' = ofstream.contents output ++ data) /\
  exists added,
    directory' = directory ++ added /\
    map filename added = map archive_path files /\
    Forall (fun e => exists p,
                ofstream.pos output <= p /\ data_offset e = u64 p /\
                0 <= compressed_size e /\
                p + compressed_size e <= ofstream.pos output') added.
Proof.
  induction files as [|file files IH];
    intros output directory current_offset output' directory' o2 Happ Hoff Hw.
  - cbn in Hw. injection Hw as <- <- _.
    split; [assumption|]. split; [exists []; now rewrite app_nil_r|].
    exists []. rewrite app_nil_r. repeat split; constructor.
  - cbn [write_files] in Hw.
    destruct (filesystem.read_file fs (source_path file)) as [data|];
      [|discriminate].
    set (compressed :=
           if decide (compression file = format.none) then ok (data, [])
           else match compression_engine.compress data (compression file) with
                | ok c => ok (c, data)
                | unexpected _ => unexpected compression_error
                end) in Hw.
    destruct compressed as [[compressed_data data']|e]; [|discriminate].
    destruct (ofstream.failbit (ofstream.write output compressed_data))
      eqn:Hf1; [discriminate|].
    destruct (write_appending output compressed_data Happ Hf1)
      as [Hwrite Happ1].
    apply IH in Hw; [|exact Happ1|].
    2: { rewrite Hwrite. cbn [ofstream.pos].
         subst current_offset. unfold u64. rewrite Zplus_mod_idemp_l.
         reflexivity. }
    destruct Hw as (Happ' & (rest & Hrest) & added & Hdir & Hnames & Hall).
    rewrite Hwrite in Hrest, Hall.
    cbn [ofstream.contents ofstream.pos] in Hrest, Hall.
    split; [assumption|]. split.
    { exists (compressed_data ++ rest). now rewrite Hrest, <- app_assoc. }
    eexists (_ :: added). split; [|split].
    + rewrite Hdir, <- app_assoc. reflexivity.
    + cbn. now rewrite Hnames.
    + pose proof (vsize_nonneg compressed_data) as Hnn.
      assert (Hmono : ofstream.pos output + vsize compressed_data
                      <= ofstream.pos output').
      { destruct Happ' as (_ & -> & _). destruct Happ as (_ & -> & _).
        rewrite Hrest, !vsize_app. pose proof (vsize_nonneg rest). lia. }
      constructor.
      * exists (ofstream.pos output). cbn. repeat split; lia.
      * eapply Forall_impl; [exact Hall|]. cbn beta.
        intros e (p & Hp & Hrestp). exists p. split; [lia|exact Hrestp].
Qed.

Lemma write_directory_spec directory : forall output output' o2,
  appending output ->
  write_directory directory output = (ok output', o2) ->
  appending output' /\
  ofstream.contents output'
  = ofstream.contents output ++ flat_map entry_bytes directory.
Proof.
  induction directory as [|entry directory IH]; intros output output' o2 Happ Hw.
  - cbn in Hw. injection Hw as <- _. split; [assumption|].
    cbn. now rewrite app_nil_r.
  - cbn [write_directory] in Hw.
    destruct (ofstream.failbit (ofstream.write output (entry_bytes entry)))
      eqn:Hf1; [discriminate|].
    destruct (write_appending output (entry_bytes entry) Happ Hf1)
      as [Hwrite Happ1].
    apply IH in Hw; [|exact Happ1].
    destruct Hw as [Happ' Hc]. split; [assumption|].
    rewrite Hc, Hwrite. cbn [ofstream.contents flat_map].
    now rewrite <- app_assoc.
Qed.

(** Seeking to the start and writing again replaces what was there. *)
Lemma rewrite_at_start s (old new rest : list byte) :
  ofstream.failbit s = false ->
  ofstream.contents s = old ++ rest -> length old = length new ->
  vsize new <= ofstream.max_offset ->
  let s' := ofstream.write (ofstream.seekp s 0) new in
  ofstream.failbit s' = false /\ ofstream.contents s' = new ++ rest.
Proof.
  intros Hf Hc Hlen Hmax. unfold ofstream.seekp, ofstream.write. rewrite Hf.
  cbn [ofstream.failbit ofstream.pos ofstream.contents].
  replace (ofstream.max_offset <? 0 + vsize new) with false
    by (symmetry; apply Z.ltb_ge; lia).
  cbn [ofstream.failbit ofstream.contents]. split; [reflexivity|].
  rewrite Hc. change (Z.to_nat 0) with 0%nat. rewrite take_0. cbn [app].
  unfold vsize. rewrite Z.add_0_l, Nat2Z.id, <- Hlen, drop_app_length.
  reflexivity.
Qed.

(** The layout of a container that [build] completed. *)
Lemma build_layout b fs output_path bytes :
  build b fs output_path = (ok tt, bytes) ->
  exists data directory,
    let header :=
      {| magic := MAGIC_NUMBER; version := FORMAT_VERSION;
         directory_offset := u64 (sizeof_header + vsize data);
         directory_count := u32 (Z.of_nat (length (files_ b)));
         reserved := 0 |} in
    bytes = header_bytes header ++ data ++ flat_map entry_bytes directory /\
    sizeof_header + vsize data <= ofstream.max_offset /\
    map filename directory = map archive_path (files_ b) /\
    Forall (fun e => exists p,
                sizeof_header <= p /\ data_offset e = u64 p /\
                0 <= compressed_size e /\
                p + compressed_size e <= sizeof_header + vsize data) directory.
Proof.
  unfold build. intros Hb. cbv zeta in Hb.
  destruct (filesystem.creatable fs output_path); cbn [ofstream.open negb
    ofstream.failbit] in Hb; [|discriminate].
  set (header0 := {| magic := MAGIC_NUMBER; version := FORMAT_VERSION;
                     directory_offset := 0;
                     directory_count := u32 (Z.of_nat (length (files_ b)));
                     reserved := 0 |}) in Hb.
  set (out0 := ofstream.open true) in Hb.
  assert (Happ0 : appending out0) by (repeat split; discriminate).
  assert (Hlen0 : vsize (header_bytes header0) = sizeof_header).
  { unfold header_bytes. rewrite !vsize_app, !vsize_le_bytes. reflexivity. }
  destruct (ofstream.failbit (ofstream.write out0 (header_bytes header0)))
    eqn:Hf1; [discriminate|].
  destruct (write_appending out0 (header_bytes header0) Happ0 Hf1)
    as [Hwrite1 Happ1].
  destruct (write_files fs (files_ b) (ofstream.write out0 (header_bytes header0))
              [] sizeof_header) as [[[out2 directory]|e] o2] eqn:Hw;
    [|discriminate].
  apply write_files_spec in Hw; [|assumption|].
  2: { rewrite Hwrite1. cbn [ofstream.pos].
       rewrite Hlen0. reflexivity. }
  destruct Hw as (Happ2 & (data & Hdata) & added & Hdir & Hnames & Hall).
  cbn [app] in Hdir. subst directory.
  rewrite Hwrite1 in Hdata, Hall.
  cbn [ofstream.contents ofstream.pos app] in Hdata, Hall.
  change (ofstream.contents out0) with (@nil byte) in Hdata.
  change (ofstream.pos out0) with 0 in Hall.
  cbn [app] in Hdata.
  rewrite Hlen0 in Hall. cbn [Z.add] in Hall.
  destruct (write_directory added out2) as [[out3|e] o3] eqn:Hd; [|discriminate].
  apply write_directory_spec in Hd; [|assumption].
  destruct Hd as [Happ3 Hc3].
  assert (Hpos2 : ofstream.pos out2 = sizeof_header + vsize data).
  { destruct Happ2 as (_ & -> & _). rewrite Hdata, vsize_app, Hlen0.
    reflexivity. }
  unfold ofstream.tellp in Hb. rewrite (proj1 Happ2), Hpos2 in Hb.
  set (header := {| magic := magic header0 |}) in Hb.
  assert (Hlen : length (header_bytes header0) = length (header_bytes header)).
  { unfold header_bytes. now rewrite !length_app, !length_le_bytes. }
  rewrite Hdata, <- app_assoc in Hc3.
  destruct (rewrite_at_start out3 _ (header_bytes header) _ (proj1 Happ3) Hc3 Hlen)
    as [Hf4 Hc4].
  { unfold header_bytes. rewrite !vsize_app, !vsize_le_bytes. discriminate. }
  rewrite Hf4, Hc4 in Hb. injection Hb as <-.
  exists data, added. cbn zeta. split; [|split; [|split; [assumption|]]].
  - reflexivity.
  - rewrite <- Hpos2. apply Happ2.
  - rewrite Hpos2 in Hall. exact Hall.
Qed.

End build_properties.

Lemma slice_at (pre mid post : list byte) p n :
  p = vsize pre -> n = vsize mid -> slice (pre ++ mid ++ post) p n = mid.
Proof. intros -> ->. apply slice_app_exact. Qed.

Lemma slice_prefix_at (a rest : list byte) n :
  n = vsize a -> slice (a ++ rest) 0 n = a.
Proof. intros ->. apply slice_0_prefix. Qed.

Lemma header_of_header_bytes h rest :
  header_of_bytes (header_bytes h ++ rest) =
  {| magic := u32 (magic h); version := u32 (version h);
     directory_offset := u64 (directory_offset h);
     directory_count := u32 (directory_count h);
     reserved := u32 (reserved h) |}.
Proof.
  unfold header_of_bytes, header_bytes.
  set (a := le_bytes 4 (magic h)). set (b := le_bytes 4 (version h)).
  set (c := le_bytes 8 (directory_offset h)).
  set (d := le_bytes 4 (directory_count h)). set (e := le_bytes 4 (reserved h)).
  assert (Ha : vsize a = 4) by apply vsize_le_bytes.
  assert (Hb : vsize b = 4) by apply vsize_le_bytes.
  assert (Hc : vsize c = 8) by apply vsize_le_bytes.
  assert (Hd : vsize d = 4) by apply vsize_le_bytes.
  assert (He : vsize e = 4) by apply vsize_le_bytes.
  f_equal.
  - rewrite <- !app_assoc. rewrite slice_prefix_at; [|now rewrite Ha].
    apply le_value_le_bytes.
  - rewrite <- !app_assoc. rewrite (slice_at a b); [|now rewrite Ha|now rewrite Hb].
    apply le_value_le_bytes.
  - replace (((a ++ b ++ c ++ d ++ e) ++ rest))
      with ((a ++ b) ++ c ++ (d ++ e ++ rest))
      by (now rewrite <- !app_assoc).
    rewrite slice_at; [apply le_value_le_bytes| |now rewrite Hc].
    rewrite vsize_app. lia.
  - replace (((a ++ b ++ c ++ d ++ e) ++ rest))
      with ((a ++ b ++ c) ++ d ++ (e ++ rest))
      by (now rewrite <- !app_assoc).
    rewrite slice_at; [apply le_value_le_bytes| |now rewrite Hd].
    rewrite !vsize_app. lia.
  - replace (((a ++ b ++ c ++ d ++ e) ++ rest))
      with ((a ++ b ++ c ++ d) ++ e ++ rest)
      by (now rewrite <- !app_assoc).
    rewrite slice_at; [apply le_value_le_bytes| |now rewrite He].
    rewrite !vsize_app. lia.
Qed.

Lemma vsize_header_bytes h : vsize (header_bytes h) = sizeof_header.
Proof.
  unfold header_bytes. rewrite !vsize_app, !vsize_le_bytes. reflexivity.
Qed.

(** C4, as stated, fails: the container built from the sample tree starts
    with 46 4B 41 50, the little-endian bytes of the magic number, not with
    50 41 4B 46. *)
Lemma sample_container_does_not_start_with_PAKF :
  archive_builder.build (C := samples.stored) samples.builder_a
    samples.sources ["out"%string; "a.pak"%string]
  = (ok tt, samples.pak_a)
  /\ firstn 4 samples.pak_a <> [x50; x41; x4b; x46].
Proof. split; [vm_compute; reflexivity|vm_compute; discriminate]. Qed.

(** C4, amended: every container that [build] completes begins, at
    offsets 0 to 3, with the four bytes 46 4B 41 50: the magic number
    0x50414B46 stored least significant byte first. *)
Theorem built_container_starts_with_magic (C : zlib.codec)
    (b : archive_builder.t) (fs : filesystem.node)
    (output_path : filesystem.path) (container : list byte) :
  archive_builder.build b fs output_path = (ok tt, container) ->
  firstn 4 container = [x46; x4b; x41; x50] /\
  le_value (firstn 4 container) = MAGIC_NUMBER.
Proof.
  intros Hb. apply build_layout in Hb as (data & directory & Hbytes & _).
  cbn zeta in Hbytes. subst container.
  assert (H : forall rest : list byte,
             firstn 4 (header_bytes
                         {| magic := MAGIC_NUMBER; version := FORMAT_VERSION;
                            directory_offset := u64 (sizeof_header + vsize data);
                            directory_count :=
                              u32 (Z.of_nat (length (archive_builder.files_ b)));
                            reserved := 0 |} ++ rest)
             = [x46; x4b; x41; x50]) by reflexivity.
  rewrite H. split; reflexivity.
Qed.

Lemma built_container_starts_with_magic_witness :
  firstn 4 samples.pak_a = [x46; x4b; x41; x50]
  /\ le_value (firstn 4 samples.pak_a) = MAGIC_NUMBER.
Proof.
  apply (built_container_starts_with_magic samples.stored samples.builder_a
           samples.sources ["out"%string; "a.pak"%string]).
  vm_compute. reflexivity.
Defined.

(** C6: in a container that [build] completed (all sources were read),
    the header's directory offset is at least 24 and every directory
    record written at that offset describes data that ends at or before it:
    data_offset + compressed_size <= directory_offset.  The offsets and
    sizes are the numbers the 8-byte fields of the records hold: they lie
    from 24 and from 0 upwards, below 2^63. *)
Theorem built_container_offsets (C : zlib.codec) (b : archive_builder.t)
    (fs : filesystem.node) (output_path : filesystem.path)
    (container : list byte) :
  archive_builder.build b fs output_path = (ok tt, container) ->
  let header := header_of_bytes container in
  24 <= directory_offset header < 2 ^ 63 /\
  exists directory,
    skipn (Z.to_nat (directory_offset header)) container
    = flat_map archive_builder.entry_bytes directory /\
    map filename directory
    = map archive_builder.archive_path (archive_builder.files_ b) /\
    Forall (fun e => 24 <= data_offset e /\ 0 <= compressed_size e /\
                     data_offset e + compressed_size e
                     <= directory_offset header) directory.
Proof.
  intros Hb.
  apply build_layout in Hb
    as (data & directory & Hbytes & Hmax & Hnames & Hall).
  cbn zeta in Hbytes. cbn zeta.
  set (h := {| magic := MAGIC_NUMBER |}) in Hbytes.
  pose proof (vsize_nonneg data) as Hnn.
  assert (Hlt : 0 <= sizeof_header + vsize data < 2 ^ 64).
  { unfold ofstream.max_offset, sizeof_header in *. lia. }
  assert (Hoff : directory_offset (header_of_bytes container)
                 = sizeof_header + vsize data).
  { subst container. rewrite header_of_header_bytes.
    cbn [directory_offset h]. unfold u64. rewrite Z.mod_mod by lia.
    now apply Z.mod_small. }
  rewrite Hoff.
  split; [unfold ofstream.max_offset, sizeof_header in *; lia|].
  exists directory. split; [|split; [exact Hnames|]].
  - subst container. rewrite <- (vsize_header_bytes h), <- vsize_app.
    unfold vsize. rewrite Nat2Z.id, app_assoc. apply drop_app_length.
  - eapply Forall_impl; [exact Hall|]. cbn beta.
    intros e (p & Hp & Hdo & Hcs & Hend).
    rewrite Hdo. unfold u64. rewrite Z.mod_small;
      unfold sizeof_header in *; lia.
Qed.

Lemma built_container_offsets_witness :
  let header := header_of_bytes samples.pak_a in
  24 <= directory_offset header < 2 ^ 63 /\
  exists directory,
    skipn (Z.to_nat (directory_offset header)) samples.pak_a
    = flat_map archive_builder.entry_bytes directory /\
    map filename directory
    = map archive_builder.archive_path
        (archive_builder.files_ samples.builder_a) /\
    Forall (fun e => 24 <= data_offset e /\ 0 <= compressed_size e /\
                     data_offset e + compressed_size e
                     <= directory_offset header) directory.
Proof.
  apply (built_container_offsets samples.stored samples.builder_a
           samples.sources ["out"%string; "a.pak"%string]).
  vm_compute. reflexivity.
Defined.

(** ** Streams *)

Lemma read_to_end_make data : read_to_end (vfstream.make data) = data.
Proof.
  unfold read_to_end, vfstream.read, vfstream.make, vfstream.contents,
    vfstreambuf.xsgetn, vfstreambuf.make.
  cbn [vfstream.eofbit vfstream.failbit vfstream.buffer_ vfstreambuf.data_
       vfstreambuf.gpos orb].
  rewrite Z.sub_0_r, Z.min_id.
  destruct (0 <? vsize data) eqn:Hpos; cbn [fst].
  - apply slice_0_all.
  - apply Z.ltb_ge in Hpos. unfold vsize in Hpos.
    destruct data; [reflexivity|cbn in Hpos; lia].
Qed.

(** Draining a fresh stream yields its bytes and leaves it rewound. *)
Lemma drain_make data :
  exists stream,
    vfs.drain (vfstream.make data) = (data, stream) /\
    vfstream.contents stream = data /\
    read_to_end stream = data.
Proof.
  pose proof (vsize_nonneg data) as Hnn.
  assert (Hend : vfstream.seekg (vfstream.make data) 0 vfstreambuf.end_
                 = {| vfstream.buffer_ :=
                        {| vfstreambuf.data_ := data;
                           vfstreambuf.gpos := vsize data |};
                      vfstream.eofbit := false; vfstream.failbit := false;
                      vfstream.gcount := 0 |}).
  { unfold vfstream.seekg, vfstream.make, vfstreambuf.seekoff, vfstreambuf.make.
    cbn [vfstream.failbit vfstream.buffer_ vfstreambuf.data_ negb
         vfstream.gcount].
    rewrite Z.add_0_r, Z.ltb_irrefl.
    replace (vsize data <? 0) with false by (symmetry; apply Z.ltb_ge; lia).
    cbn [orb]. f_equal. apply Z.eqb_neq. lia. }
  unfold vfs.drain. rewrite Hend.
  set (s1 := {| vfstream.buffer_ := _ |}).
  assert (Htell : vfstream.tellg s1 = vsize data).
  { unfold vfstream.tellg, vfstreambuf.seekoff, s1.
    cbn [vfstream.failbit vfstream.buffer_ vfstreambuf.data_ vfstreambuf.gpos
         negb].
    rewrite Z.add_0_r, Z.ltb_irrefl.
    replace (vsize data <? 0) with false by (symmetry; apply Z.ltb_ge; lia).
    reflexivity. }
  rewrite Htell.
  assert (Hbeg : vfstream.seekg s1 0 vfstreambuf.beg = vfstream.make data).
  { unfold vfstream.seekg, vfstreambuf.seekoff, s1, vfstream.make,
      vfstreambuf.make.
    cbn [vfstream.failbit vfstream.buffer_ vfstreambuf.data_ vfstreambuf.gpos
         negb vfstream.gcount].
    replace (vsize data <? 0) with false by (symmetry; apply Z.ltb_ge; lia).
    reflexivity. }
  rewrite Hbeg.
  assert (Hread : vfstream.read (vfstream.make data) (vsize data)
                  = (data,
                     {| vfstream.buffer_ :=
                          {| vfstreambuf.data_ := data;
                             vfstreambuf.gpos := vsize data |};
                        vfstream.eofbit := false; vfstream.failbit := false;
                        vfstream.gcount := vsize data |})).
  { unfold vfstream.read, vfstream.make, vfstreambuf.xsgetn, vfstreambuf.make.
    cbn [vfstream.eofbit vfstream.failbit vfstream.buffer_ vfstreambuf.data_
         vfstreambuf.gpos orb].
    rewrite Z.sub_0_r, Z.min_id.
    destruct (0 <? vsize data) eqn:Hpos.
    - rewrite Z.eqb_refl, slice_0_all. reflexivity.
    - apply Z.ltb_ge in Hpos. rewrite Z.eqb_refl.
      assert (data = []) as ->.
      { unfold vsize in Hpos. destruct data; [reflexivity|cbn in Hpos; lia]. }
      reflexivity. }
  rewrite Hread.
  set (s2 := {| vfstream.buffer_ := _ |}).
  assert (Hrew : vfstream.seekg s2 0 vfstreambuf.beg
                 = {| vfstream.buffer_ := vfstreambuf.make data;
                      vfstream.eofbit := false; vfstream.failbit := false;
                      vfstream.gcount := vsize data |}).
  { unfold vfstream.seekg, vfstreambuf.seekoff, s2, vfstreambuf.make.
    cbn [vfstream.failbit vfstream.buffer_ vfstreambuf.data_ vfstreambuf.gpos
         negb vfstream.gcount].
    replace (vsize data <? 0) with false by (symmetry; apply Z.ltb_ge; lia).
    reflexivity. }
  rewrite Hrew. eexists. split; [|split].
  - f_equal. apply overwrite_full. rewrite repeat_length. unfold vsize. lia.
  - reflexivity.
  - apply read_to_end_make.
Qed.

(** ** The overlay (vfs.cpp) *)
Section vfs_properties.
Context {C : zlib.codec}.

Lemma archive_open_make a name stream :
  (archive.open a name).1 = ok stream ->
  stream = vfstream.make (vfstream.contents stream).
Proof.
  unfold archive.open.
  destruct (archive.directory_ a !! name) as [entry|]; [|discriminate].
  destruct (archive.read_file_data a entry) as [[data|e] a']; [|discriminate].
  destruct (decide (compression entry = format.none)).
  - cbn. now intros [= <-].
  - destruct (compression_engine.decompress _ _ _); [|discriminate].
    cbn. now intros [= <-].
Qed.

Lemma serves_make a name stream :
  serves a name = Some stream ->
  stream = vfstream.make (vfstream.contents stream).
Proof.
  unfold serves. destruct (archive.contains a name); [|discriminate].
  destruct (archive.open a name).1 eqn:E; [|discriminate].
  intros [= <-]. now apply archive_open_make in E.
Qed.

Lemma first_served_make archs name stream :
  first_served archs name = Some stream ->
  stream = vfstream.make (vfstream.contents stream).
Proof.
  induction archs as [|a archs IH]; [discriminate|]. cbn.
  destruct (serves a name) eqn:E.
  - intros [= <-]. now apply serves_make in E.
  - exact IH.
Qed.

(** The search loop returns what the first serving archive yields. *)
Lemma search_first_served archs name :
  (vfs.search archs name).1 = first_served archs name.
Proof.
  induction archs as [|a archs IH]; [reflexivity|].
  cbn [vfs.search first_served]. unfold serves.
  destruct (archive.contains a name).
  - destruct (archive.open a name) as [[stream|e] a']; cbn [fst].
    + reflexivity.
    + destruct (vfs.search archs name). exact IH.
  - destruct (vfs.search archs name). exact IH.
Qed.

Lemma first_served_app skipped archs name :
  Forall (fun x => serves x name = None) skipped ->
  first_served (skipped ++ archs) name = first_served archs name.
Proof.
  induction 1 as [|x skipped Hx _ IH]; [reflexivity|].
  cbn. now rewrite Hx.
Qed.

Lemma first_served_none archs name :
  Forall (fun x => serves x name = None) archs ->
  first_served archs name = None.
Proof.
  intros H. rewrite <- (app_nil_r archs). now rewrite first_served_app.
Qed.

(** [open] on a cache hit. *)
Lemma open_hit v name data :
  cache_hit v name = Some data ->
  vfs.open v name = (ok (vfstream.make data), v).
Proof.
  unfold cache_hit, vfs.open. now intros ->.
Qed.

(** The stream found by the search of [open]. *)
Lemma open_search v name :
  (match vfs.search_order_ v with
   | vfs.reverse_mount_order =>
       let '(found, visited) := vfs.search (rev (vfs.archives_ v)) name in
       (found, rev visited)
   | vfs.mount_order => vfs.search (vfs.archives_ v) name
   end).1 = first_served (visit_order v) name.
Proof.
  unfold visit_order. destruct (vfs.search_order_ v).
  - apply search_first_served.
  - rewrite <- search_first_served.
    destruct (vfs.search (rev (vfs.archives_ v)) name). reflexivity.
Qed.

(** [open] on a cache miss: the result and the cache afterwards. *)
Lemma open_miss v name :
  cache_hit v name = None ->
  match first_served (visit_order v) name with
  | Some stream =>
      if vfs.cache_enabled_ v then
        (vfs.open v name).1 = ok (vfs.drain stream).2 /\
        vfs.cache_ (vfs.open v name).2
        = <[name := (vfs.drain stream).1]> (vfs.cache_ v)
      else
        (vfs.open v name).1 = ok stream /\
        vfs.cache_ (vfs.open v name).2 = vfs.cache_ v
  | None =>
      (vfs.open v name).1 = unexpected vfs.file_not_found /\
      vfs.cache_ (vfs.open v name).2 = vfs.cache_ v
  end /\
  vfs.cache_enabled_ (vfs.open v name).2 = vfs.cache_enabled_ v /\
  vfs.search_order_ (vfs.open v name).2 = vfs.search_order_ v.
Proof.
  unfold cache_hit, vfs.open. intros Hmiss.
  replace (if vfs.cache_enabled_ v then vfs.cache_ v !! name else None)
    with (@None (list byte)).
  rewrite <- open_search.
  destruct (match vfs.search_order_ v with
            | vfs.mount_order => _
            | vfs.reverse_mount_order => _
            end) as [[stream|] archs]; cbn [fst].
  - destruct (vfs.cache_enabled_ v).
    + destruct (vfs.drain stream) as [data stream']. cbn. repeat split.
    + cbn. repeat split.
  - cbn. repeat split.
Qed.

End vfs_properties.

Section overlay_claims.
Context (C : zlib.codec).

Lemma cache_hit_none_cases v name :
  vfs.cache_enabled_ v = false \/ vfs.cache_ v !! name = None ->
  cache_hit v name = None.
Proof.
  unfold cache_hit. intros [->| ->]; [reflexivity|].
  now destruct (vfs.cache_enabled_ v).
Qed.

(** The stream returned when the search finds [vfstream.make data]. *)
Lemma open_miss_found v name data :
  cache_hit v name = None ->
  first_served (visit_order v) name = Some (vfstream.make data) ->
  exists stream,
    (vfs.open v name).1 = ok stream /\
    vfstream.contents stream = data /\ read_to_end stream = data /\
    vfs.cache_ (vfs.open v name).2
    = if vfs.cache_enabled_ v then <[name := data]> (vfs.cache_ v)
      else vfs.cache_ v.
Proof.
  intros Hmiss Hfound. pose proof (open_miss v name Hmiss) as [H _].
  rewrite Hfound in H. destruct (vfs.cache_enabled_ v).
  - destruct (drain_make data) as (stream & Hd & Hc & Hr). rewrite Hd in H.
    cbn [fst snd] in H. destruct H as [Ho Hcache].
    exists stream. repeat split; assumption.
  - destruct H as [Ho Hcache]. exists (vfstream.make data).
    repeat split; try assumption. apply read_to_end_make.
Qed.

(** C1, amended: with archives A1 (mounted first) and A2 (mounted
    second) that both contain the name, and the cache empty or disabled,
    [open] yields the bytes stored for the name in A2 under
    reverse_mount_order when A2's own open of the name returns a stream,
    and those stored in A1 under mount_order when A1's own open returns a
    stream; the bytes stored for the name in an archive are what its own
    open yields. *)
Theorem overlay_precedence (v : vfs.t) (a1 a2 : archive.t) (name : string) :
  vfs.archives_ v = [a1; a2] ->
  archive.contains a1 name = true ->
  archive.contains a2 name = true ->
  vfs.cache_enabled_ v = false \/ vfs.cache_ v = ∅ ->
  (forall b2,
      within_limits a2 name ->
      (archive.open a2 name).1 = ok (vfstream.make b2) ->
      exists stream,
        (vfs.open (vfs.set_search_order v vfs.reverse_mount_order) name).1
        = ok stream /\ read_to_end stream = b2) /\
  (forall b1,
      within_limits a1 name ->
      (archive.open a1 name).1 = ok (vfstream.make b1) ->
      exists stream,
        (vfs.open (vfs.set_search_order v vfs.mount_order) name).1
        = ok stream /\ read_to_end stream = b1).
Proof.
  intros Harchs Hc1 Hc2 Hcache.
  assert (Hmiss : forall order,
             cache_hit (vfs.set_search_order v order) name = None).
  { intros order. apply cache_hit_none_cases. cbn.
    destruct Hcache as [->| ->]; [now left|right; apply lookup_empty]. }
  split.
  - intros b2 _ Ho2.
    destruct (open_miss_found _ name b2 (Hmiss vfs.reverse_mount_order))
      as (stream & Ho & _ & Hr & _).
    { unfold visit_order. cbn. rewrite Harchs. cbn.
      unfold serves. now rewrite Hc2, Ho2. }
    now exists stream.
  - intros b1 _ Ho1.
    destruct (open_miss_found _ name b1 (Hmiss vfs.mount_order))
      as (stream & Ho & _ & Hr & _).
    { unfold visit_order. cbn. rewrite Harchs. cbn.
      unfold serves. now rewrite Hc1, Ho1. }
    now exists stream.
Qed.

(** C3, amended: on a cache miss a Reader that contains the name and
    whose open of it returns an error does not end the search: [open]
    walks on in search order and returns the stream of the first Reader
    whose directory contains the name and whose open returns a stream.
    The Readers concerned hold entries within the limits in which their
    open returns instead of throwing. *)
Theorem open_passes_over_failed_readers (v : vfs.t) (name : string)
    (skipped : list archive.t) (a : archive.t) (rest : list archive.t)
    (stream : vfstream.t) :
  cache_hit v name = None ->
  visit_order v = skipped ++ a :: rest ->
  Forall (fun x => serves x name = None /\ within_limits x name) skipped ->
  serves a name = Some stream ->
  within_limits a name ->
  exists stream',
    (vfs.open v name).1 = ok stream' /\
    read_to_end stream' = vfstream.contents stream.
Proof.
  intros Hmiss Hvisit Hskipped Hserves _.
  pose proof (serves_make _ _ _ Hserves) as Hmake.
  destruct (open_miss_found v name (vfstream.contents stream) Hmiss)
    as (stream' & Ho & _ & Hr & _).
  { rewrite Hvisit, first_served_app.
    - cbn. now rewrite Hserves, <- Hmake.
    - eapply Forall_impl; [exact Hskipped|]. now intros x [Hx _]. }
  now exists stream'.
Qed.


Lemma open_disabled_keeps_cache v name :
  vfs.cache_enabled_ v = false ->
  vfs.cache_ (vfs.open v name).2 = vfs.cache_ v /\
  vfs.cache_enabled_ (vfs.open v name).2 = false.
Proof.
  intros Hoff.
  assert (Hmiss : cache_hit v name = None).
  { apply cache_hit_none_cases. now left. }
  pose proof (open_miss v name Hmiss) as (H & Hen & _).
  rewrite Hoff in H, Hen. split; [|exact Hen].
  destruct (first_served (visit_order v) name); apply H.
Qed.

Lemma open_all_disabled_keeps_cache names : forall v,
  vfs.cache_enabled_ v = false ->
  vfs.cache_ (open_all v names) = vfs.cache_ v /\
  vfs.cache_enabled_ (open_all v names) = false.
Proof.
  induction names as [|name names IH]; intros v Hoff; [now split|].
  cbn [open_all fold_left].
  destruct (open_disabled_keeps_cache v name Hoff) as [Hc Hen].
  destruct (IH _ Hen) as [Hc' Hen']. unfold open_all in *.
  split; [now rewrite Hc', Hc|exact Hen'].
Qed.

(** C10: [enable_cache(false)] changes only the flag: the archives, the
    search order, the cache map and [cache_size()] stay as they were, also
    across opens made while caching is off; after [enable_cache(true)] an
    entry cached before is served again by [open] and [contains]. *)
Theorem cache_survives_disabling (v : vfs.t) :
  let off := vfs.enable_cache v false in
  (vfs.archives_ off = vfs.archives_ v /\
   vfs.search_order_ off = vfs.search_order_ v /\
   vfs.cache_ off = vfs.cache_ v /\
   vfs.cache_size off = vfs.cache_size v /\
   vfs.cache_enabled_ off = false) /\
  forall (names : list string) (name : string) (data : list byte),
    vfs.cache_ v !! name = Some data ->
    let on := vfs.enable_cache (open_all off names) true in
    vfs.cache_ on = vfs.cache_ v /\
    vfs.open on name = (ok (vfstream.make data), on) /\
    vfs.contains on name = true.
Proof.
  intros off. split; [repeat split|].
  intros names name data Hcached on.
  destruct (open_all_disabled_keeps_cache names off eq_refl) as [Hc _].
  assert (Hon : vfs.cache_ on = vfs.cache_ v) by exact Hc.
  split; [exact Hon|]. split.
  - apply open_hit. unfold cache_hit. cbn [on vfs.enable_cache
      vfs.cache_enabled_ vfs.cache_]. now rewrite Hc.
  - unfold vfs.contains. cbn [on vfs.enable_cache vfs.cache_enabled_
      vfs.cache_]. rewrite Hc. cbn [off vfs.enable_cache vfs.cache_].
    rewrite Hcached. rewrite bool_decide_eq_true_2 by eauto. reflexivity.
Qed.

End overlay_claims.

(** ** The claims on the sample archives *)

Lemma overlay_precedence_witness :
  (exists stream,
      (vfs.open (C := samples.stored)
         (vfs.set_search_order samples.vfs_a_b vfs.reverse_mount_order)
         "common.txt").1 = ok stream
      /\ read_to_end stream = samples.bytes "from B") /\
  (exists stream,
      (vfs.open (C := samples.stored)
         (vfs.set_search_order samples.vfs_a_b vfs.mount_order)
         "common.txt").1 = ok stream
      /\ read_to_end stream = samples.bytes "from A").
Proof.
  assert (Harchs : vfs.archives_ samples.vfs_a_b
                   = [samples.reader_a; samples.reader_b])
    by (vm_compute; reflexivity).
  assert (Hc1 : archive.contains samples.reader_a "common.txt" = true)
    by (vm_compute; reflexivity).
  assert (Hc2 : archive.contains samples.reader_b "common.txt" = true)
    by (vm_compute; reflexivity).
  assert (Hcache : vfs.cache_enabled_ samples.vfs_a_b = false
                   \/ vfs.cache_ samples.vfs_a_b = ∅)
    by (right; vm_compute; reflexivity).
  destruct (overlay_precedence samples.stored samples.vfs_a_b samples.reader_a
              samples.reader_b "common.txt" Harchs Hc1 Hc2 Hcache)
    as [Hreverse Hmount].
  split.
  - apply Hreverse; [|vm_compute; reflexivity].
    vm_compute. repeat split; reflexivity.
  - apply Hmount; [|vm_compute; reflexivity].
    vm_compute. repeat split; reflexivity.
Defined.

(** C1, as stated, fails: with the archives [bad.pak] (mounted first) and
    [a.pak] (mounted second), both containing [common.txt], and an empty
    cache, [open] under mount_order does not yield what the first archive
    stores (no bytes, under a method its open cannot decode): its own
    open of the name fails in the codec, and [open] returns the bytes of
    the second. *)
Lemma preferred_archive_is_not_served :
  let v :=
    vfs.set_search_order
      (samples.mounted [ ("bad.pak"%string, archive.memory);
                         ("a.pak"%string, archive.memory) ])
      vfs.mount_order in
  vfs.archives_ v = [samples.reader_bad; samples.reader_a] /\
  archive.contains samples.reader_bad "common.txt" = true /\
  archive.contains samples.reader_a "common.txt" = true /\
  vfs.cache_ v = ∅ /\
  option_map (fun e => (archive.read_file_data samples.reader_bad e).1)
    (archive.directory_ samples.reader_bad !! "common.txt"%string)
  = Some (ok []) /\
  (archive.open (C := samples.stored) samples.reader_bad "common.txt").1
  = unexpected archive.compression_error /\
  (archive.open (C := samples.stored) samples.reader_a "common.txt").1
  = ok (vfstream.make (samples.bytes "from A")) /\
  exists stream,
    (vfs.open (C := samples.stored) v "common.txt").1 = ok stream
    /\ read_to_end stream = samples.bytes "from A"
    /\ read_to_end stream <> [].
Proof.
  repeat split; try (vm_compute; reflexivity).
  eexists. split; [vm_compute; reflexivity|].
  split; [vm_compute; reflexivity|]. vm_compute. discriminate.
Qed.

(** C3, as stated, fails: under reverse_mount_order the Reader mounted
    last contains [common.txt] and fails to open it, yet [open] returns no
    error: it goes on to the Reader mounted first and returns its bytes. *)
Lemma failed_reader_is_passed_over :
  vfs.search_order_ samples.vfs_a_bad = vfs.reverse_mount_order /\
  vfs.archives_ samples.vfs_a_bad = [samples.reader_a; samples.reader_bad] /\
  archive.contains samples.reader_bad "common.txt" = true /\
  (archive.open (C := samples.stored) samples.reader_bad "common.txt").1
  = unexpected archive.compression_error /\
  exists stream,
    (vfs.open (C := samples.stored) samples.vfs_a_bad "common.txt").1
    = ok stream
    /\ read_to_end stream = samples.bytes "from A".
Proof.
  repeat split; try (vm_compute; reflexivity).
  eexists. split; vm_compute; reflexivity.
Qed.

Lemma open_passes_over_failed_readers_witness :
  exists stream',
    (vfs.open (C := samples.stored) samples.vfs_a_bad "common.txt").1
    = ok stream'
    /\ read_to_end stream' = samples.bytes "from A".
Proof.
  apply (open_passes_over_failed_readers samples.stored
           samples.vfs_a_bad "common.txt"
           [samples.reader_bad] samples.reader_a []
           (vfstream.make (samples.bytes "from A"))).
  - vm_compute. reflexivity.
  - vm_compute. reflexivity.
  - constructor; [|constructor]. split; [vm_compute; reflexivity|].
    vm_compute. repeat split; reflexivity.
  - vm_compute. reflexivity.
  - vm_compute. repeat split; reflexivity.
Defined.



Lemma cache_survives_disabling_witness :
  let off := vfs.enable_cache samples.vfs_a_cached false in
  let on :=
    vfs.enable_cache (open_all (C := samples.stored) off ["only_a.txt"%string])
      true in
  vfs.cache_size off = vfs.cache_size samples.vfs_a_cached /\
  vfs.open (C := samples.stored) on "common.txt"
  = (ok (vfstream.make (samples.bytes "from A")), on) /\
  vfs.contains on "common.txt" = true.
Proof.
  intros off on.
  assert (Hcached : vfs.cache_ samples.vfs_a_cached !! "common.txt"%string
                    = Some (samples.bytes "from A"))
    by (vm_compute; reflexivity).
  destruct (cache_survives_disabling samples.stored samples.vfs_a_cached)
    as ((_ & _ & _ & Hsize & _) & Hserved).
  destruct (Hserved ["only_a.txt"%string] "common.txt"%string
              (samples.bytes "from A") Hcached) as (_ & Hopen & Hcontains).
  split; [exact Hsize|]. split; [exact Hopen|exact Hcontains].
Defined.

(** ** Directory loading (archive.cpp) *)

Lemma vsize_slice (l : list byte) p n :
  0 <= p -> 0 <= n -> p + n <= vsize l -> vsize (slice l p n) = n.
Proof.
  unfold slice, vsize. intros Hp Hn Hle.
  rewrite length_take, length_drop. lia.
Qed.

Lemma length_slice (l : list byte) p n :
  0 <= p -> 0 <= n -> p + n <= vsize l -> length (slice l p n) = Z.to_nat n.
Proof.
  intros Hp Hn Hle. pose proof (vsize_slice l p n Hp Hn Hle) as H.
  unfold vsize in H. lia.
Qed.

Lemma slice_app_mid (pre mid post : list byte) i n :
  0 <= i -> 0 <= n -> i + n <= vsize mid ->
  slice (pre ++ mid ++ post) (vsize pre + i) n = slice mid i n.
Proof.
  unfold slice, vsize. intros Hi Hn Hle.
  rewrite Z2Nat.inj_add, Nat2Z.id by lia.
  rewrite <- drop_drop, drop_app_length.
  rewrite drop_app_le by lia. rewrite take_app_le; [reflexivity|].
  rewrite length_drop. lia.
Qed.


Lemma string_of_list_byte_nonempty (l : list byte) :
  l <> [] -> string_of_list_byte l <> EmptyString.
Proof. destruct l; [congruence|]. cbn. discriminate. Qed.

Lemma u64_small n : 0 <= n < 2 ^ 64 -> u64 n = n.
Proof. intros H. unfold u64. now apply Z.mod_small. Qed.

Lemma streamoff_small n : n < 2 ^ 63 -> ifstream.streamoff n = n.
Proof.
  intros H. unfold ifstream.streamoff.
  now replace (n <? 2 ^ 63) with true by (symmetry; apply Z.ltb_lt; lia).
Qed.

(** A read that stays inside the file. *)
Lemma ifstream_read_inside s n :
  ifstream.eofbit s = false -> ifstream.failbit s = false ->
  0 <= ifstream.pos s -> 0 <= n ->
  ifstream.pos s + n <= vsize (ifstream.contents s) ->
  ifstream.read s n =
  (slice (ifstream.contents s) (ifstream.pos s) n,
   {| ifstream.is_open := ifstream.is_open s;
      ifstream.contents := ifstream.contents s;
      ifstream.pos := ifstream.pos s + n;
      ifstream.eofbit := false; ifstream.failbit := false;
      ifstream.gcount := n |}).
Proof.
  intros He Hf Hp Hn Hle. unfold ifstream.read. rewrite He, Hf. cbn [orb].
  rewrite vsize_slice by assumption. now rewrite Z.ltb_irrefl.
Qed.

Lemma ifstream_seekg_good s p :
  ifstream.is_open s = true -> ifstream.failbit s = false -> 0 <= p ->
  ifstream.seekg s p =
  {| ifstream.is_open := true; ifstream.contents := ifstream.contents s;
     ifstream.pos := p; ifstream.eofbit := false; ifstream.failbit := false;
     ifstream.gcount := ifstream.gcount s |}.
Proof.
  intros Ho Hf Hp. unfold ifstream.seekg. rewrite Hf, Ho. cbn [negb orb].
  now replace (p <? 0) with false by (symmetry; apply Z.ltb_ge; lia).
Qed.

Section record_layout.
Variables (pre rest : list byte) (r : raw_record).
Hypothesis Hframed : framed r.

Let file := pre ++ raw_bytes r ++ rest.

Lemma vsize_raw_bytes : vsize (raw_bytes r) = 4 + declared_length r + 25.
Proof.
  destruct Hframed as (_ & Hn & Hf). unfold raw_bytes.
  rewrite !vsize_app, vsize_le_bytes, Hn, Hf. lia.
Qed.

Lemma vsize_record_file :
  vsize file = vsize pre + (4 + declared_length r + 25) + vsize rest.
Proof. unfold file. rewrite !vsize_app, vsize_raw_bytes. lia. Qed.

Lemma record_length_slice :
  slice file (vsize pre) 4 = le_bytes 4 (declared_length r).
Proof.
  destruct Hframed as (HL & Hn & Hf).
  replace (vsize pre) with (vsize pre + 0) by lia. unfold file.
  rewrite slice_app_mid; [|lia|lia|rewrite vsize_raw_bytes; lia].
  unfold raw_bytes. apply slice_prefix_at. now rewrite vsize_le_bytes.
Qed.

Lemma record_length_value :
  le_value (slice file (vsize pre) 4) = declared_length r.
Proof.
  rewrite record_length_slice. apply le_value_le_bytes_small.
  destruct Hframed as (HL & _). change (256 ^ Z.of_nat 4) with (2 ^ 32). lia.
Qed.

Lemma record_name_slice :
  slice file (vsize pre + 4) (declared_length r) = name_bytes r.
Proof.
  destruct Hframed as (HL & Hn & Hf). unfold file.
  rewrite slice_app_mid; [|lia|lia|rewrite vsize_raw_bytes; lia].
  unfold raw_bytes. apply slice_at; [now rewrite vsize_le_bytes|now rewrite Hn].
Qed.

Lemma record_fields_slice i n :
  0 <= i -> 0 <= n -> i + n <= 25 ->
  slice file (vsize pre + 4 + declared_length r + i) n
  = slice (fixed_fields r) i n.
Proof.
  destruct Hframed as (HL & Hn & Hf). intros Hi Hn' Hle. unfold file.
  replace (vsize pre + 4 + declared_length r + i)
    with (vsize pre + (4 + declared_length r + i)) by lia.
  rewrite slice_app_mid; [|lia|lia|rewrite vsize_raw_bytes; lia].
  unfold raw_bytes. rewrite app_assoc.
  replace (4 + declared_length r + i)
    with (vsize (le_bytes 4 (declared_length r) ++ name_bytes r) + i)
    by (rewrite vsize_app, vsize_le_bytes, Hn; lia).
  rewrite <- (app_nil_r (fixed_fields r)) at 1.
  apply slice_app_mid; lia.
Qed.

Lemma record_fields_slice_0 n :
  0 <= n <= 25 ->
  slice file (vsize pre + 4 + declared_length r) n
  = slice (fixed_fields r) 0 n.
Proof.
  intros Hn. rewrite <- record_fields_slice by lia. f_equal. lia.
Qed.

Lemma valid_length_not_malformed :
  ((0 <? declared_length r) && (declared_length r <? 4096))%bool
  = negb (malformed r).
Proof.
  destruct Hframed as (HL & _). unfold malformed.
  destruct (0 <? declared_length r) eqn:E1;
    destruct (declared_length r <? 4096) eqn:E2;
    destruct (declared_length r =? 0) eqn:E3;
    destruct (4096 <=? declared_length r) eqn:E4; try reflexivity;
    rewrite ?Z.ltb_lt, ?Z.ltb_ge, ?Z.eqb_eq, ?Z.eqb_neq, ?Z.leb_le, ?Z.leb_gt
      in *; lia.
Qed.

Lemma record_name_nonempty :
  malformed r = false -> filename (record_entry r) <> EmptyString.
Proof.
  destruct Hframed as (HL & Hn & _). unfold malformed. intros Hm.
  apply orb_false_elim in Hm as [Hz _]. apply Z.eqb_neq in Hz.
  cbn [record_entry filename]. apply string_of_list_byte_nonempty.
  intros E. rewrite E in Hn. change (vsize []) with 0 in Hn. lia.
Qed.

(** One iteration of the loop in memory mode, on a framed record. *)
Lemma load_entry_memory a :
  archive.mode_ a = archive.memory ->
  archive.memory_data_ a = file ->
  vsize file < 2 ^ 63 ->
  archive.load_entry a (vsize pre)
  = ok (archive.with_directory a (load_records [r] (archive.directory_ a)),
        vsize pre + vsize (raw_bytes r)).
Proof.
  intros Hmode Hmem Hsize. rewrite vsize_raw_bytes.
  pose proof vsize_record_file as Hfile.
  pose proof (vsize_nonneg pre) as Hpre.
  pose proof (vsize_nonneg rest) as Hrest.
  destruct Hframed as (HL & Hn & Hf).
  unfold archive.load_entry. rewrite Hmode, Hmem. cbv zeta.
  assert (E1 : u64 (vsize pre + 4) = vsize pre + 4) by (apply u64_small; lia).
  rewrite !E1.
  replace (vsize file <? vsize pre + 4) with false by (symmetry; apply Z.ltb_ge; lia).
  rewrite record_length_value.
  assert (E2 : u64 (vsize pre + 4 + declared_length r) = vsize pre + 4 + declared_length r) by (apply u64_small; lia).
  rewrite !E2.
  replace (vsize file <? vsize pre + 4 + declared_length r) with false
    by (symmetry; apply Z.ltb_ge; lia).
  assert (E3 : u64 (vsize pre + 4 + declared_length r + 8 + 8 + 8 + 1) = vsize pre + 4 + declared_length r + 25)
    by (rewrite u64_small; lia).
  rewrite E3.
  replace (vsize file <? vsize pre + 4 + declared_length r + 25) with false
    by (symmetry; apply Z.ltb_ge; lia).
  assert (E4 : u64 (vsize pre + 4 + declared_length r + 8) = vsize pre + 4 + declared_length r + 8) by (apply u64_small; lia).
  rewrite !E4.
  assert (E5 : u64 (vsize pre + 4 + declared_length r + 8 + 8) = vsize pre + 4 + declared_length r + 16)
    by (rewrite u64_small; lia).
  rewrite !E5.
  assert (E6 : u64 (vsize pre + 4 + declared_length r + 16 + 8) = vsize pre + 4 + declared_length r + 24)
    by (rewrite u64_small; lia).
  rewrite !E6.
  assert (E7 : u64 (vsize pre + 4 + declared_length r + 24 + 1) = vsize pre + (4 + declared_length r + 25))
    by (rewrite u64_small; lia).
  rewrite !E7.
  rewrite record_name_slice.
  replace (vsize pre + 4 + declared_length r)
    with (vsize pre + 4 + declared_length r + 0) at 1 by lia.
  rewrite !record_fields_slice by lia.
  rewrite valid_length_not_malformed.
  do 2 f_equal. f_equal. cbn [load_records fold_left]. unfold archive.insert_entry.
  destruct (malformed r) eqn:Hm; cbn [negb filename].
  - rewrite decide_True by reflexivity. reflexivity.
  - pose proof (record_name_nonempty Hm) as Hne. cbn [record_entry filename] in Hne.
    rewrite decide_False by exact Hne. reflexivity.
Qed.

(** One iteration of the loop in disk mode, on a framed record. *)
Lemma load_entry_disk a :
  archive.mode_ a = archive.disk ->
  ifstream.is_open (archive.file_stream_ a) = true ->
  ifstream.contents (archive.file_stream_ a) = file ->
  ifstream.failbit (archive.file_stream_ a) = false ->
  vsize file < 2 ^ 63 ->
  exists s',
    archive.load_entry a (vsize pre)
    = ok ({| archive.mode_ := archive.disk; archive.file_stream_ := s';
             archive.memory_data_ := archive.memory_data_ a;
             archive.directory_ :=
               load_records [r] (archive.directory_ a) |},
          vsize pre + vsize (raw_bytes r)) /\
    ifstream.is_open s' = true /\ ifstream.contents s' = file /\
    ifstream.failbit s' = false.
Proof.
  intros Hmode Hopen Hc Hfail Hsize. rewrite vsize_raw_bytes.
  pose proof vsize_record_file as Hfile.
  pose proof (vsize_nonneg pre) as Hpre.
  pose proof (vsize_nonneg rest) as Hrest.
  destruct Hframed as (HL & Hn & Hf).
  unfold archive.load_entry. rewrite Hmode.
  rewrite streamoff_small by lia.
  rewrite ifstream_seekg_good by (assumption || lia).
  rewrite Hc.
  rewrite ifstream_read_inside
    by (cbn [ifstream.eofbit ifstream.failbit ifstream.pos ifstream.contents];
        (reflexivity || lia)).
  cbn [ifstream.contents ifstream.pos ifstream.is_open].
  rewrite record_length_slice.
  rewrite overwrite_full by (now rewrite !length_le_bytes).
  rewrite le_value_le_bytes_small
    by (change (256 ^ Z.of_nat 4) with (2 ^ 32); lia).
  rewrite valid_length_not_malformed.
  assert (E : u64 (vsize pre + (4 + declared_length r + 8 + 8 + 8 + 1))
              = vsize pre + (4 + declared_length r + 25))
    by (rewrite u64_small; lia).
  rewrite E. clear E.
  destruct (malformed r) eqn:Hm; cbn [negb].
  - (* the name is not read; the fields are read from what follows it *)
    do 4 (rewrite ifstream_read_inside
           by (cbn [ifstream.eofbit ifstream.failbit ifstream.pos
                    ifstream.contents]; (reflexivity || lia));
          cbn [ifstream.contents ifstream.pos ifstream.is_open]).
    eexists. split.
    { unfold archive.insert_entry. cbn [filename load_records fold_left].
      rewrite Hm. rewrite decide_True by reflexivity. reflexivity. }
    repeat split.
  - (* the name is read, then the fields *)
    do 5 (rewrite ifstream_read_inside
           by (cbn [ifstream.eofbit ifstream.failbit ifstream.pos
                    ifstream.contents]; (reflexivity || lia));
          cbn [ifstream.contents ifstream.pos ifstream.is_open]).
    rewrite record_name_slice.
    rewrite (overwrite_full _ (name_bytes r))
      by (rewrite repeat_length; unfold vsize in Hn; lia).
    replace (vsize pre + 4 + declared_length r + 8 + 8 + 8)
      with (vsize pre + 4 + declared_length r + 24) by lia.
    replace (vsize pre + 4 + declared_length r + 8 + 8)
      with (vsize pre + 4 + declared_length r + 16) by lia.
    rewrite !record_fields_slice by lia.
    rewrite record_fields_slice_0 by lia.
    rewrite !overwrite_full
      by (rewrite ?length_le_bytes, length_slice by lia; reflexivity).
    eexists. split.
    { unfold archive.insert_entry. cbn [filename load_records fold_left].
      rewrite Hm. pose proof (record_name_nonempty Hm) as Hne.
      cbn [record_entry filename] in Hne.
      rewrite decide_False by exact Hne. reflexivity. }
    repeat split.
Qed.


End record_layout.


Lemma load_records_filter rs : forall d,
  load_records (filter (fun r => malformed r = false) rs) d = load_records rs d.
Proof.
  induction rs as [|r rs IH]; intros d; [reflexivity|].
  rewrite filter_cons. destruct (decide (malformed r = false)) as [Hm|Hm].
  - cbn [load_records fold_left]. rewrite Hm. apply IH.
  - cbn [load_records fold_left].
    destruct (malformed r); [apply IH|congruence].
Qed.

Lemma load_records_lookup rs : forall d name e,
  load_records rs d !! name = Some e ->
  d !! name = Some e \/
  exists r, In r rs /\ malformed r = false /\ e = record_entry r /\
            filename e = name.
Proof.
  induction rs as [|r rs IH]; intros d name e H; [now left|].
  cbn [load_records fold_left] in H. apply IH in H as [H|(r' & Hin & Hr')].
  - destruct (malformed r) eqn:Hm; [now left|].
    destruct (decide (filename (record_entry r) = name)) as [<-|Hne].
    + rewrite lookup_insert_eq in H. injection H as <-.
      right. exists r. repeat split; [now left|assumption].
    + rewrite lookup_insert_ne in H by assumption. now left.
  - right. exists r'. split; [now right|assumption].
Qed.

Lemma load_records_keeps rs : forall (d : gmap string directory_entry) name,
  is_Some (d !! name) -> is_Some (load_records rs d !! name).
Proof.
  induction rs as [|r rs IH]; intros d name H; [assumption|].
  cbn [load_records fold_left]. apply IH.
  destruct (malformed r); [assumption|].
  destruct (decide (filename (record_entry r) = name)) as [<-|Hne].
  - rewrite lookup_insert_eq. eauto.
  - now rewrite lookup_insert_ne.
Qed.

Lemma load_records_present rs : forall d r,
  In r rs -> malformed r = false ->
  is_Some (load_records rs d !! filename (record_entry r)).
Proof.
  induction rs as [|r0 rs IH]; intros d r Hin Hm; [destruct Hin|].
  destruct Hin as [<-|Hin].
  - cbn [load_records fold_left]. rewrite Hm. apply load_records_keeps.
    rewrite lookup_insert_eq. eauto.
  - cbn [load_records fold_left]. now apply IH.
Qed.

(** The directory loop over framed records, in either mode. *)
Lemma load_entries_framed rs : forall a pre post,
  backed_by a (pre ++ flat_map raw_bytes rs ++ post) ->
  Forall framed rs ->
  vsize (pre ++ flat_map raw_bytes rs ++ post) < 2 ^ 63 ->
  exists a',
    archive.load_entries (length rs) a (vsize pre) = ok a' /\
    archive.directory_ a' = load_records rs (archive.directory_ a).
Proof.
  induction rs as [|r rs IH]; intros a pre post Hback Hall Hsize.
  - exists a. split; reflexivity.
  - apply Forall_cons in Hall as [Hr Hall].
    cbn [flat_map length archive.load_entries] in *.
    rewrite <- app_assoc in Hback, Hsize.
    assert (Hstep : exists a1,
               archive.load_entry a (vsize pre)
               = ok (a1, vsize (pre ++ raw_bytes r)) /\
               archive.directory_ a1 = load_records [r] (archive.directory_ a) /\
               backed_by a1 (pre ++ raw_bytes r ++ flat_map raw_bytes rs ++ post)).
    { unfold backed_by in Hback. rewrite vsize_app.
      destruct (archive.mode_ a) eqn:Hmode.
      - destruct Hback as (Hopen & Hc & Hfail).
        destruct (load_entry_disk pre (flat_map raw_bytes rs ++ post) r Hr a
                    Hmode Hopen Hc Hfail Hsize) as (s' & Hload & Ho & Hc' & Hf').
        eexists. split; [exact Hload|]. split; [reflexivity|].
        unfold backed_by. cbn. repeat split; assumption.
      - pose proof (load_entry_memory pre (flat_map raw_bytes rs ++ post) r Hr a
                      Hmode Hback Hsize) as Hload.
        eexists. split; [exact Hload|]. split; [reflexivity|].
        unfold backed_by. cbn. now rewrite Hmode. }
    destruct Hstep as (a1 & Hload & Hdir & Hback1). rewrite Hload.
    specialize (IH a1 (pre ++ raw_bytes r) post).
    rewrite <- !app_assoc in IH.
    destruct (IH Hback1 Hall Hsize) as (a' & Hrest & Hdir').
    exists a'. split; [exact Hrest|].
    rewrite Hdir', Hdir. reflexivity.
Qed.

(** The header is read back from a file that starts with it. *)
Lemma load_header_ok a h rest :
  backed_by a (header_bytes h ++ rest) ->
  exists a',
    archive.load_header a
    = ok ({| magic := u32 (magic h); version := u32 (version h);
             directory_offset := u64 (directory_offset h);
             directory_count := u32 (directory_count h);
             reserved := u32 (reserved h) |}, a') /\
    archive.mode_ a' = archive.mode_ a /\
    backed_by a' (header_bytes h ++ rest).
Proof.
  intros Hback. unfold archive.load_header, backed_by in *.
  pose proof (vsize_header_bytes h) as Hlen.
  pose proof (vsize_nonneg rest) as Hrest.
  assert (Hslice : slice (header_bytes h ++ rest) 0 sizeof_header
                   = header_bytes h) by now apply slice_prefix_at.
  assert (Hhdr : header_of_bytes (header_bytes h)
                 = {| magic := u32 (magic h); version := u32 (version h);
                      directory_offset := u64 (directory_offset h);
                      directory_count := u32 (directory_count h);
                      reserved := u32 (reserved h) |}).
  { rewrite <- (app_nil_r (header_bytes h)). apply header_of_header_bytes. }
  destruct (archive.mode_ a) eqn:Hmode.
  - destruct Hback as (Hopen & Hc & Hfail). rewrite Hopen. cbn [negb].
    rewrite ifstream_seekg_good by (assumption || lia).
    rewrite ifstream_read_inside
      by (cbn [ifstream.eofbit ifstream.failbit ifstream.pos
               ifstream.contents]; rewrite ?Hc, ?vsize_app, ?Hlen;
          (reflexivity || unfold sizeof_header; lia)).
    cbn [ifstream.failbit ifstream.gcount ifstream.contents ifstream.pos orb].
    rewrite Z.eqb_refl. cbn [negb]. rewrite Hc, Hslice.
    rewrite overwrite_full
      by (rewrite repeat_length; unfold vsize, sizeof_header in Hlen; lia).
    rewrite Hhdr. eexists. split; [reflexivity|].
    unfold archive.with_stream. cbn. rewrite Hmode. repeat split.
  - rewrite Hback, vsize_app, Hlen.
    replace (sizeof_header + vsize rest <? sizeof_header) with false
      by (symmetry; apply Z.ltb_ge; lia).
    rewrite Hslice, Hhdr. exists a. rewrite Hmode. repeat split; assumption.
Qed.

(** C5, amended: a container whose directory is a sequence of framed
    records (a length, that many name bytes, the fixed fields, all present
    in the file) loads in both modes, whatever the lengths say; records
    whose length is 0 or at least 4096 are not inserted, and the records
    after them are read at their own offsets: the directory is the one the
    remaining records give. *)
Theorem malformed_entries_are_skipped (fs : filesystem.node)
    (path : filesystem.path) (mode : archive.access_mode)
    (h : archive_header) (data post : list byte) (rs : list raw_record) :
  let file := header_bytes h ++ data ++ flat_map raw_bytes rs ++ post in
  filesystem.read_file fs path = Some file ->
  magic h = MAGIC_NUMBER -> version h = FORMAT_VERSION ->
  directory_offset h = sizeof_header + vsize data ->
  directory_count h = Z.of_nat (length rs) ->
  directory_count h < 2 ^ 32 ->
  Forall framed rs ->
  vsize file < 2 ^ 63 ->
  exists a,
    archive.make fs path mode = Some a /\
    archive.directory_ a = load_records rs ∅ /\
    archive.directory_ a
    = load_records (filter (fun r => malformed r = false) rs) ∅ /\
    (forall r, In r rs -> malformed r = false ->
               archive.contains a (filename (record_entry r)) = true) /\
    (forall name e,
        archive.directory_ a !! name = Some e ->
        exists r, In r rs /\ malformed r = false /\ e = record_entry r).
Proof.
  intros file Hread Hmagic Hversion Hoff Hcount Hcount32 Hframed Hsize.
  pose proof (vsize_nonneg data) as Hdata.
  assert (Hfile63 : sizeof_header + vsize data < 2 ^ 63).
  { unfold file in Hsize. rewrite !vsize_app, vsize_header_bytes in Hsize.
    pose proof (vsize_nonneg (flat_map raw_bytes rs)).
    pose proof (vsize_nonneg post). lia. }
  set (a0 := match mode with
             | archive.disk =>
                 {| archive.mode_ := archive.disk;
                    archive.file_stream_ := ifstream.open (Some file);
                    archive.memory_data_ := []; archive.directory_ := ∅ |}
             | archive.memory =>
                 {| archive.mode_ := archive.memory;
                    archive.file_stream_ := ifstream.closed;
                    archive.memory_data_ := file; archive.directory_ := ∅ |}
             end).
  assert (Hmake : archive.make fs path mode
                  = match archive.load_directory a0 with
                    | ok a' => Some a'
                    | unexpected _ => None
                    end).
  { unfold archive.make. rewrite Hread. unfold a0. now destruct mode. }
  assert (Hback0 : backed_by a0 file).
  { unfold a0, backed_by. destruct mode; cbn; repeat split. }
  assert (Hload : exists a, archive.load_directory a0 = ok a /\
                            archive.directory_ a = load_records rs ∅).
  { unfold archive.load_directory.
    destruct (load_header_ok a0 h (data ++ flat_map raw_bytes rs ++ post) Hback0)
      as (a1 & Hhdr & Hmode1 & Hback1).
    rewrite Hhdr. cbn [magic version directory_count directory_offset].
    rewrite Hmagic, Hversion, Hoff, Hcount.
    change (u32 MAGIC_NUMBER =? MAGIC_NUMBER) with true.
    change (u32 FORMAT_VERSION =? FORMAT_VERSION) with true. cbn [negb].
    rewrite Hcount in Hcount32.
    unfold u32. rewrite Z.mod_small by lia. rewrite Nat2Z.id.
    rewrite u64_small by (unfold sizeof_header in *; lia).
    rewrite <- (vsize_header_bytes h), <- vsize_app.
    apply (load_entries_framed rs (archive.with_directory a1 ∅)
             (header_bytes h ++ data) post).
    - fold file in Hback1. rewrite <- app_assoc.
      unfold backed_by in *. cbn [archive.with_directory archive.mode_
        archive.file_stream_ archive.memory_data_]. exact Hback1.
    - exact Hframed.
    - rewrite <- app_assoc. exact Hsize. }
  destruct Hload as (a & Hload & Hdir).
  exists a. rewrite Hmake, Hload. split; [reflexivity|].
  split; [exact Hdir|]. split; [now rewrite load_records_filter|]. split.
  - intros r Hin Hm. unfold archive.contains. rewrite Hdir.
    destruct (load_records_present rs ∅ r Hin Hm) as [e ->]. reflexivity.
  - intros name e He. rewrite Hdir in He.
    apply load_records_lookup in He as [He|(r & Hin & Hm & -> & _)].
    + rewrite lookup_empty in He. discriminate.
    + exists r. repeat split; assumption.
Qed.

Lemma malformed_entries_are_skipped_witness :
  (exists a,
      archive.make gap_sample.fs ["gap.pak"%string] archive.disk = Some a /\
      archive.list_files a = ["y"%string; "x"%string]) /\
  (exists a,
      archive.make gap_sample.fs ["gap.pak"%string] archive.memory = Some a /\
      archive.list_files a = ["y"%string; "x"%string]).
Proof.
  split.
  - destruct (malformed_entries_are_skipped gap_sample.fs ["gap.pak"%string]
                archive.disk gap_sample.header (samples.bytes "hi") []
                gap_sample.records) as (a & Hmake & Hdir & _).
    + reflexivity.
    + reflexivity.
    + reflexivity.
    + reflexivity.
    + reflexivity.
    + reflexivity.
    + repeat constructor; vm_compute; (reflexivity || discriminate).
    + vm_compute. reflexivity.
    + exists a. split; [exact Hmake|].
      unfold archive.list_files. rewrite Hdir. vm_compute. reflexivity.
  - destruct (malformed_entries_are_skipped gap_sample.fs ["gap.pak"%string]
                archive.memory gap_sample.header (samples.bytes "hi") []
                gap_sample.records) as (a & Hmake & Hdir & _).
    + reflexivity.
    + reflexivity.
    + reflexivity.
    + reflexivity.
    + reflexivity.
    + reflexivity.
    + repeat constructor; vm_compute; (reflexivity || discriminate).
    + vm_compute. reflexivity.
    + exists a. split; [exact Hmake|].
      unfold archive.list_files. rewrite Hdir. vm_compute. reflexivity.
Defined.

(** C5, as stated, fails: the first record of [short.pak] declares a name
    of 4096 bytes, of which the file holds 30.  Memory mode does not skip
    it: the bounds check on the declared length comes before the test of
    the length, the load returns [read_error] and no Reader is
    constructed.  Disk mode constructs one, but the regular record that
    follows is not loaded. *)
Lemma short_malformed_record_is_not_skipped :
  malformed (hd (Build_raw_record 0 [] []) short_sample.records) = true /\
  archive.load_directory
    (unloaded short_sample.fs ["short.pak"%string] archive.memory)
  = unexpected archive.read_error /\
  archive.make short_sample.fs ["short.pak"%string] archive.memory = None /\
  exists a,
    archive.make short_sample.fs ["short.pak"%string] archive.disk = Some a /\
    archive.contains a "y" = false.
Proof.
  repeat split; try (vm_compute; reflexivity).
  eexists. split; vm_compute; reflexivity.
Qed.

(** * Further properties of the code *)

(** ** [build] against the layout of the container *)
Section layout_properties.
Import archive_builder.
Context {C : zlib.codec}.

Lemma make_unloaded fs path mode :
  archive.make fs path mode
  = match archive.load_directory (unloaded fs path mode) with
    | ok a => Some a
    | unexpected _ => None
    end.
Proof. now destruct mode. Qed.

(** The data loop follows [layout] while the output takes the bytes. *)
Lemma write_files_layout fs files : forall output directory data entries,
  appending output ->
  layout fs files (ofstream.pos output) = Some (data, entries) ->
  ofstream.pos output + vsize data <= ofstream.max_offset ->
  exists output',
    write_files fs files output directory (u64 (ofstream.pos output))
    = (ok (output', directory ++ entries), output') /\
    appending output' /\
    ofstream.contents output' = ofstream.contents output ++ data.
Proof.
  induction files as [|file files IH];
    intros output directory data entries Happ Hlay Hfit.
  - cbn in Hlay. injection Hlay as <- <-. exists output.
    rewrite !app_nil_r. repeat split; apply Happ.
  - cbn [layout] in Hlay. cbn [write_files].
    destruct (filesystem.read_file fs (source_path file)) as [src|];
      [|discriminate].
    unfold stored_blob in Hlay.
    assert (Hblob : exists blob recorded rest entries',
               (if decide (compression file = format.none)
                then ok (src, [])
                else match compression_engine.compress src (compression file) with
                     | ok c => ok (c, src)
                     | unexpected _ => unexpected compression_error
                     end) = ok (blob, recorded) /\
               layout fs files (ofstream.pos output + vsize blob)
               = Some (rest, entries') /\
               data = blob ++ rest /\
               entries =
               {| filename := archive_path file;
                  data_offset := ofstream.pos output;
                  compressed_size := vsize blob;
                  uncompressed_size := vsize recorded;
                  format.compression := compression file |} :: entries').
    { destruct (decide (compression file = format.none)).
      - destruct (layout fs files (ofstream.pos output + vsize src))
          as [[rest entries']|] eqn:Hrest; [|discriminate].
        injection Hlay as <- <-. exists src, [], rest, entries'.
        repeat split. exact Hrest.
      - destruct (compression_engine.compress src (compression file))
          as [c|]; [|discriminate].
        destruct (layout fs files (ofstream.pos output + vsize c))
          as [[rest entries']|] eqn:Hrest; [|discriminate].
        injection Hlay as <- <-. exists c, src, rest, entries'.
        repeat split. exact Hrest. }
    destruct Hblob as (blob & recorded & rest & entries' & -> & Hrest & -> & ->).
    rewrite vsize_app in Hfit. pose proof (vsize_nonneg rest) as Hnn.
    assert (Hf1 : ofstream.failbit (ofstream.write output blob) = false).
    { unfold ofstream.write. destruct Happ as (-> & _ & _).
      now replace (ofstream.max_offset <? ofstream.pos output + vsize blob)
        with false by (symmetry; apply Z.ltb_ge; lia). }
    destruct (write_appending output blob Happ Hf1) as [Hwrite Happ1].
    rewrite Hf1.
    assert (Hoff : u64 (u64 (ofstream.pos output) + vsize blob)
                   = u64 (ofstream.pos (ofstream.write output blob))).
    { rewrite Hwrite. cbn [ofstream.pos]. unfold u64.
      now rewrite Zplus_mod_idemp_l. }
    rewrite Hoff.
    assert (Hpos : ofstream.pos (ofstream.write output blob)
                   = ofstream.pos output + vsize blob)
      by now rewrite Hwrite.
    destruct (IH (ofstream.write output blob)
                (directory ++
                 [{| filename := archive_path file;
                     data_offset := u64 (ofstream.pos output);
                     compressed_size := vsize blob;
                     uncompressed_size := vsize recorded;
                     format.compression := compression file |}])
                rest entries' Happ1)
      as (output' & Hw & Happ' & Hc).
    { now rewrite Hpos. }
    { rewrite Hpos. lia. }
    exists output'. rewrite Hw. split; [|split; [exact Happ'|]].
    + rewrite <- app_assoc. cbn [app].
      rewrite u64_small; [reflexivity|].
      destruct Happ as (_ & Hp & Hmax). pose proof (vsize_nonneg (ofstream.contents output)).
      unfold ofstream.max_offset in Hmax. lia.
    + rewrite Hc, Hwrite. cbn [ofstream.contents]. now rewrite <- app_assoc.
Qed.

End layout_properties.

Section build_against_layout.
Import archive_builder.
Context {C : zlib.codec}.

Lemma write_fits s bs :
  appending s -> ofstream.pos s + vsize bs <= ofstream.max_offset ->
  ofstream.failbit (ofstream.write s bs) = false.
Proof.
  intros (Hf & _ & _) Hfit. unfold ofstream.write. rewrite Hf.
  now replace (ofstream.max_offset <? ofstream.pos s + vsize bs)
    with false by (symmetry; apply Z.ltb_ge; lia).
Qed.

(** Conversely, a data loop that completes has followed [layout]. *)
Lemma write_files_done fs files : forall output directory output' directory' o2,
  appending output ->
  write_files fs files output directory (u64 (ofstream.pos output))
  = (ok (output', directory'), o2) ->
  exists data entries,
    layout fs files (ofstream.pos output) = Some (data, entries) /\
    directory' = directory ++ entries /\
    appending output' /\
    ofstream.contents output' = ofstream.contents output ++ data.
Proof.
  induction files as [|file files IH];
    intros output directory output' directory' o2 Happ Hw.
  - cbn in Hw. injection Hw as <- <- _. exists [], [].
    rewrite !app_nil_r. repeat split; apply Happ.
  - cbn [write_files] in Hw. cbn [layout]. unfold stored_blob.
    destruct (filesystem.read_file fs (source_path file)) as [src|];
      [|discriminate].
    assert (Hpos0 : 0 <= ofstream.pos output < 2 ^ 64).
    { destruct Happ as (_ & Hp & Hmax).
      pose proof (vsize_nonneg (ofstream.contents output)).
      unfold ofstream.max_offset in Hmax. lia. }
    destruct (decide (compression file = format.none)) as [Hnone|Hnone].
    + destruct (ofstream.failbit (ofstream.write output src)) eqn:Hf1;
        [discriminate|].
      destruct (write_appending output src Happ Hf1) as [Hwrite Happ1].
      assert (Hoff : u64 (u64 (ofstream.pos output) + vsize src)
                     = u64 (ofstream.pos (ofstream.write output src))).
      { rewrite Hwrite. cbn [ofstream.pos]. unfold u64.
        now rewrite Zplus_mod_idemp_l. }
      rewrite Hoff in Hw. apply IH in Hw; [|exact Happ1].
      destruct Hw as (rest & entries & Hlay & Hdir & Happ' & Hc).
      rewrite Hwrite in Hlay, Hc. cbn [ofstream.pos ofstream.contents] in Hlay, Hc.
      rewrite Hlay. eexists _, _. split; [reflexivity|].
      split; [|split; [exact Happ'|]].
      * rewrite Hdir, <- app_assoc. cbn [app]. now rewrite u64_small.
      * rewrite Hc. now rewrite <- app_assoc.
    + destruct (compression_engine.compress src (compression file)) as [c|];
        [|discriminate].
      destruct (ofstream.failbit (ofstream.write output c)) eqn:Hf1;
        [discriminate|].
      destruct (write_appending output c Happ Hf1) as [Hwrite Happ1].
      assert (Hoff : u64 (u64 (ofstream.pos output) + vsize c)
                     = u64 (ofstream.pos (ofstream.write output c))).
      { rewrite Hwrite. cbn [ofstream.pos]. unfold u64.
        now rewrite Zplus_mod_idemp_l. }
      rewrite Hoff in Hw. apply IH in Hw; [|exact Happ1].
      destruct Hw as (rest & entries & Hlay & Hdir & Happ' & Hc).
      rewrite Hwrite in Hlay, Hc. cbn [ofstream.pos ofstream.contents] in Hlay, Hc.
      rewrite Hlay. eexists _, _. split; [reflexivity|].
      split; [|split; [exact Happ'|]].
      * rewrite Hdir, <- app_assoc. cbn [app]. now rewrite u64_small.
      * rewrite Hc. now rewrite <- app_assoc.
Qed.

Lemma write_directory_fits directory : forall output,
  appending output ->
  ofstream.pos output + vsize (flat_map entry_bytes directory)
  <= ofstream.max_offset ->
  exists output',
    write_directory directory output = (ok output', output') /\
    appending output' /\
    ofstream.contents output'
    = ofstream.contents output ++ flat_map entry_bytes directory.
Proof.
  induction directory as [|entry directory IH]; intros output Happ Hfit.
  - exists output. cbn. rewrite app_nil_r. repeat split; apply Happ.
  - cbn [write_directory flat_map] in *. rewrite vsize_app in Hfit.
    pose proof (vsize_nonneg (flat_map entry_bytes directory)) as Hnn.
    assert (Hf1 : ofstream.failbit (ofstream.write output (entry_bytes entry))
                  = false) by (apply write_fits; [exact Happ|lia]).
    destruct (write_appending output (entry_bytes entry) Happ Hf1)
      as [Hwrite Happ1].
    rewrite Hf1.
    destruct (IH (ofstream.write output (entry_bytes entry)) Happ1)
      as (output' & Hw & Happ' & Hc).
    { rewrite Hwrite. cbn [ofstream.pos]. lia. }
    exists output'. split; [exact Hw|]. split; [exact Happ'|].
    rewrite Hc, Hwrite. cbn [ofstream.contents]. now rewrite <- app_assoc.
Qed.

Lemma header_bytes_final count data_size :
  0 <= sizeof_header + data_size < 2 ^ 64 ->
  header_bytes
    {| magic := MAGIC_NUMBER; version := FORMAT_VERSION;
       directory_offset := u64 (sizeof_header + data_size);
       directory_count := u32 count; reserved := 0 |}
  = header_bytes (final_header count data_size).
Proof. intros H. unfold final_header. now rewrite u64_small. Qed.

(** The container of a completed [build], and when [build] completes. *)
Lemma build_ok_layout b fs output_path container :
  build b fs output_path = (ok tt, container) <->
  filesystem.creatable fs output_path = true /\
  exists data directory,
    layout fs (files_ b) sizeof_header = Some (data, directory) /\
    container
    = header_bytes (final_header (Z.of_nat (length (files_ b))) (vsize data))
      ++ data ++ flat_map entry_bytes directory /\
    vsize container <= ofstream.max_offset.
Proof.
  set (header0 := {| magic := MAGIC_NUMBER; version := FORMAT_VERSION;
                     directory_offset := 0;
                     directory_count := u32 (Z.of_nat (length (files_ b)));
                     reserved := 0 |}).
  set (out0 := ofstream.open true).
  assert (Happ0 : appending out0) by (repeat split; discriminate).
  assert (Hf1 : ofstream.failbit (ofstream.write out0 (header_bytes header0))
                = false).
  { apply write_fits; [exact Happ0|]. rewrite vsize_header_bytes. discriminate. }
  destruct (write_appending out0 (header_bytes header0) Happ0 Hf1)
    as [Hwrite1 Happ1].
  set (out1 := ofstream.write out0 (header_bytes header0)) in *.
  assert (Hpos1 : ofstream.pos out1 = sizeof_header).
  { rewrite Hwrite1. cbn [ofstream.pos]. now rewrite vsize_header_bytes. }
  assert (Hc1 : ofstream.contents out1 = header_bytes header0).
  { now rewrite Hwrite1. }
  assert (Hrewrite : forall (out3 : ofstream.t) data rest,
             appending out3 ->
             ofstream.contents out3 = header_bytes header0 ++ data ++ rest ->
             0 <= sizeof_header + vsize data < 2 ^ 64 ->
             let final :=
               ofstream.write (ofstream.seekp out3 0)
                 (header_bytes
                    {| magic := magic header0; version := version header0;
                       directory_offset := u64 (sizeof_header + vsize data);
                       directory_count := directory_count header0;
                       reserved := reserved header0 |}) in
             ofstream.failbit final = false /\
             ofstream.contents final
             = header_bytes (final_header (Z.of_nat (length (files_ b)))
                               (vsize data)) ++ data ++ rest).
  { intros out3 data rest Happ3 Hc3 Hrange. cbn zeta.
    rewrite <- header_bytes_final by exact Hrange.
    apply (rewrite_at_start out3 (header_bytes header0)).
    - apply Happ3.
    - exact Hc3.
    - unfold header_bytes. now rewrite !length_app, !length_le_bytes.
    - rewrite vsize_header_bytes. discriminate. }
  unfold build. cbv zeta. fold header0. split.
  - intros Hb.
    destruct (filesystem.creatable fs output_path); cbn [ofstream.open negb
      ofstream.failbit] in Hb; [|discriminate].
    fold out0 in Hb. fold out1 in Hb. rewrite Hf1 in Hb.
    split; [reflexivity|].
    destruct (write_files fs (files_ b) out1 [] sizeof_header)
      as [[[out2 directory]|e] o2] eqn:Hw; [|discriminate].
    rewrite <- Hpos1 in Hw.
    rewrite <- (u64_small (ofstream.pos out1)) in Hw
      by (rewrite Hpos1; unfold sizeof_header; lia).
    rewrite (u64_small (ofstream.pos out1)) in Hw at 1
      by (rewrite Hpos1; unfold sizeof_header; lia).
    apply write_files_done in Hw; [|exact Happ1].
    destruct Hw as (data & entries & Hlay & Hdir & Happ2 & Hc2).
    cbn [app] in Hdir. subst directory. rewrite Hpos1 in Hlay.
    destruct (write_directory entries out2) as [[out3|e] o3] eqn:Hd;
      [|discriminate].
    apply write_directory_spec in Hd; [|exact Happ2].
    destruct Hd as [Happ3 Hc3].
    assert (Hpos2 : ofstream.pos out2 = sizeof_header + vsize data).
    { destruct Happ2 as (_ & -> & _).
      rewrite Hc2, Hc1, vsize_app, vsize_header_bytes. reflexivity. }
    unfold ofstream.tellp in Hb. rewrite (proj1 Happ2), Hpos2 in Hb.
    pose proof (vsize_nonneg data) as Hnn.
    assert (Hrange : 0 <= sizeof_header + vsize data < 2 ^ 64).
    { destruct Happ2 as (_ & _ & Hmax). rewrite Hpos2 in Hmax.
      unfold ofstream.max_offset, sizeof_header in *. lia. }
    rewrite Hc2, Hc1, <- app_assoc in Hc3.
    destruct (Hrewrite out3 data _ Happ3 Hc3 Hrange) as [Hf4 Hc4].
    rewrite Hf4, Hc4 in Hb.
    assert (Hcontainer :
              container
              = header_bytes (final_header (Z.of_nat (length (files_ b)))
                                (vsize data))
                ++ data ++ flat_map entry_bytes entries) by congruence.
    exists data, entries. split; [exact Hlay|]. split; [exact Hcontainer|].
    destruct Happ3 as (_ & Hp3 & Hmax3). rewrite Hp3, Hc3 in Hmax3.
    rewrite Hcontainer.
    rewrite !vsize_app, vsize_header_bytes in *. exact Hmax3.
  - intros (Hcreatable & data & directory & Hlay & -> & Hfit).
    rewrite Hcreatable. cbn [ofstream.open negb ofstream.failbit].
    fold out0. fold out1. rewrite Hf1.
    rewrite !vsize_app, vsize_header_bytes in Hfit.
    pose proof (vsize_nonneg data) as Hnn.
    pose proof (vsize_nonneg (flat_map entry_bytes directory)) as Hnd.
    rewrite <- Hpos1 in Hlay.
    destruct (write_files_layout fs (files_ b) out1 [] data directory Happ1 Hlay)
      as (out2 & Hw & Happ2 & Hc2).
    { rewrite Hpos1. lia. }
    rewrite Hpos1 in Hw. rewrite u64_small in Hw by (unfold sizeof_header; lia).
    rewrite Hw. cbn [app].
    assert (Hpos2 : ofstream.pos out2 = sizeof_header + vsize data).
    { destruct Happ2 as (_ & -> & _).
      rewrite Hc2, Hc1, vsize_app, vsize_header_bytes. reflexivity. }
    destruct (write_directory_fits directory out2 Happ2)
      as (out3 & Hd & Happ3 & Hc3).
    { rewrite Hpos2. lia. }
    rewrite Hd. unfold ofstream.tellp. rewrite (proj1 Happ2), Hpos2.
    assert (Hrange : 0 <= sizeof_header + vsize data < 2 ^ 64).
    { unfold ofstream.max_offset, sizeof_header in *. lia. }
    rewrite Hc2, Hc1, <- app_assoc in Hc3.
    destruct (Hrewrite out3 data _ Happ3 Hc3 Hrange) as [Hf4 Hc4].
    rewrite Hf4, Hc4. reflexivity.
Qed.

End build_against_layout.

(** ** Reading back what [build] wrote *)
Section container_reading.
Import archive_builder.
Context {C : zlib.codec}.

Lemma vsize_list_byte_of_string s : vsize (list_byte_of_string s) = str_size s.
Proof.
  unfold vsize, str_size, list_byte_of_string. rewrite length_map. f_equal.
  induction s as [|c s IH]; [reflexivity|]. cbn. now rewrite IH.
Qed.

Lemma entry_bytes_record e : entry_bytes e = raw_bytes (entry_record e).
Proof.
  unfold entry_bytes, raw_bytes, entry_record.
  cbn [declared_length name_bytes fixed_fields]. reflexivity.
Qed.

Lemma flat_map_entry_bytes directory :
  flat_map entry_bytes directory
  = flat_map raw_bytes (map entry_record directory).
Proof.
  induction directory as [|e directory IH]; [reflexivity|].
  cbn [flat_map map]. now rewrite IH, entry_bytes_record.
Qed.

Lemma framed_entry_record e :
  str_size (filename e) < 2 ^ 32 -> framed (entry_record e).
Proof.
  intros Hlen. unfold framed, entry_record.
  cbn [declared_length name_bytes fixed_fields].
  assert (0 <= str_size (filename e)) by (unfold str_size; lia).
  unfold u32. rewrite Z.mod_small by lia.
  split; [lia|]. split; [apply vsize_list_byte_of_string|].
  rewrite !vsize_app, !vsize_le_bytes. reflexivity.
Qed.

Lemma malformed_entry_record e :
  str_size (filename e) < 2 ^ 32 ->
  malformed (entry_record e) = false <-> loadable_name (filename e).
Proof.
  intros Hlen. unfold malformed, loadable_name, entry_record.
  cbn [declared_length].
  assert (0 <= str_size (filename e)) by (unfold str_size; lia).
  unfold u32. rewrite Z.mod_small by lia.
  rewrite orb_false_iff, Z.eqb_neq, Z.leb_gt. lia.
Qed.

Lemma record_entry_record e : record_entry (entry_record e) = reloaded e.
Proof.
  unfold record_entry, entry_record, reloaded.
  cbn [name_bytes fixed_fields]. rewrite string_of_list_byte_of_string.
  set (a := le_bytes 8 (data_offset e)).
  set (b := le_bytes 8 (compressed_size e)).
  set (c := le_bytes 8 (uncompressed_size e)).
  assert (Ha : vsize a = 8) by apply vsize_le_bytes.
  assert (Hb : vsize b = 8) by apply vsize_le_bytes.
  assert (Hc : vsize c = 8) by apply vsize_le_bytes.
  assert (E1 : slice (a ++ b ++ c ++ [format.compression e]) 0 8 = a)
    by (apply slice_prefix_at; now rewrite Ha).
  assert (E2 : slice (a ++ b ++ c ++ [format.compression e]) 8 8 = b)
    by (apply slice_at; now rewrite ?Ha, ?Hb).
  assert (E3 : slice (a ++ b ++ c ++ [format.compression e]) 16 8 = c).
  { rewrite (app_assoc a b). apply slice_at;
      now rewrite ?vsize_app, ?Ha, ?Hb, ?Hc. }
  assert (E4 : slice (a ++ b ++ c ++ [format.compression e]) 24 1 = [format.compression e]).
  { rewrite (app_assoc a b), (app_assoc (a ++ b) c).
    rewrite <- (app_nil_r [format.compression e]) at 1.
    apply slice_at; now rewrite ?vsize_app, ?Ha, ?Hb, ?Hc. }
  rewrite E1, E2, E3, E4. unfold a, b, c. rewrite !le_value_le_bytes.
  reflexivity.
Qed.

(** The directory loop over framed records leaves the archive reading the
    same file, in the same mode. *)
Lemma load_entries_loaded rs : forall a pre post,
  backed_by a (pre ++ flat_map raw_bytes rs ++ post) ->
  Forall framed rs ->
  vsize (pre ++ flat_map raw_bytes rs ++ post) < 2 ^ 63 ->
  exists a',
    archive.load_entries (length rs) a (vsize pre) = ok a' /\
    loaded a' (pre ++ flat_map raw_bytes rs ++ post)
      (load_records rs (archive.directory_ a)) /\
    archive.mode_ a' = archive.mode_ a.
Proof.
  induction rs as [|r rs IH]; intros a pre post Hback Hall Hsize.
  - exists a. repeat split. exact Hback.
  - apply Forall_cons in Hall as [Hr Hall].
    cbn [flat_map length archive.load_entries] in *.
    rewrite <- app_assoc in Hback, Hsize.
    assert (Hstep : exists a1,
               archive.load_entry a (vsize pre)
               = ok (a1, vsize (pre ++ raw_bytes r)) /\
               archive.directory_ a1 = load_records [r] (archive.directory_ a) /\
               backed_by a1 (pre ++ raw_bytes r ++ flat_map raw_bytes rs ++ post) /\
               archive.mode_ a1 = archive.mode_ a).
    { unfold backed_by in Hback. rewrite vsize_app.
      destruct (archive.mode_ a) eqn:Hmode.
      - destruct Hback as (Hopen & Hc & Hfail).
        destruct (load_entry_disk pre (flat_map raw_bytes rs ++ post) r Hr a
                    Hmode Hopen Hc Hfail Hsize) as (s' & Hload & Ho & Hc' & Hf').
        eexists. split; [exact Hload|]. split; [reflexivity|].
        unfold backed_by. cbn. repeat split; assumption.
      - pose proof (load_entry_memory pre (flat_map raw_bytes rs ++ post) r Hr a
                      Hmode Hback Hsize) as Hload.
        eexists. split; [exact Hload|]. split; [reflexivity|].
        unfold backed_by. cbn. now rewrite Hmode. }
    destruct Hstep as (a1 & Hload & Hdir & Hback1 & Hmode1). rewrite Hload.
    specialize (IH a1 (pre ++ raw_bytes r) post).
    rewrite <- !app_assoc in IH.
    destruct (IH Hback1 Hall Hsize) as (a' & Hrest & [Hback' Hdir'] & Hmode').
    exists a'. rewrite <- app_assoc.
    split; [exact Hrest|]. split; [split; [exact Hback'|]|congruence].
    rewrite Hdir', Hdir. reflexivity.
Qed.

(** [load_directory] on a file made of a well-formed header, a data region
    and framed records. *)
Lemma load_directory_loaded a h data rs post :
  let file := header_bytes h ++ data ++ flat_map raw_bytes rs ++ post in
  backed_by a file ->
  magic h = MAGIC_NUMBER -> version h = FORMAT_VERSION ->
  directory_offset h = sizeof_header + vsize data ->
  directory_count h = Z.of_nat (length rs) ->
  directory_count h < 2 ^ 32 ->
  Forall framed rs ->
  vsize file < 2 ^ 63 ->
  exists a',
    archive.load_directory a = ok a' /\
    loaded a' file (load_records rs ∅) /\
    archive.mode_ a' = archive.mode_ a.
Proof.
  intros file Hback0 Hmagic Hversion Hoff Hcount Hcount32 Hframed Hsize.
  pose proof (vsize_nonneg data) as Hdata.
  assert (Hfile63 : sizeof_header + vsize data < 2 ^ 63).
  { unfold file in Hsize. rewrite !vsize_app, vsize_header_bytes in Hsize.
    pose proof (vsize_nonneg (flat_map raw_bytes rs)).
    pose proof (vsize_nonneg post). lia. }
  unfold archive.load_directory.
  destruct (load_header_ok a h (data ++ flat_map raw_bytes rs ++ post) Hback0)
    as (a1 & Hhdr & Hmode1 & Hback1).
  rewrite Hhdr. cbn [magic version directory_count directory_offset].
  rewrite Hmagic, Hversion, Hoff, Hcount.
  change (u32 MAGIC_NUMBER =? MAGIC_NUMBER) with true.
  change (u32 FORMAT_VERSION =? FORMAT_VERSION) with true. cbn [negb].
  rewrite Hcount in Hcount32.
  unfold u32. rewrite Z.mod_small by lia. rewrite Nat2Z.id.
  rewrite u64_small by (unfold sizeof_header in *; lia).
  rewrite <- (vsize_header_bytes h), <- vsize_app.
  destruct (load_entries_loaded rs (archive.with_directory a1 ∅)
              (header_bytes h ++ data) post) as (a' & Hload & Hloaded & Hmode').
  - fold file in Hback1. rewrite <- app_assoc.
    unfold backed_by in *. cbn [archive.with_directory archive.mode_
      archive.file_stream_ archive.memory_data_]. exact Hback1.
  - exact Hframed.
  - rewrite <- app_assoc. exact Hsize.
  - exists a'. split; [exact Hload|]. rewrite <- app_assoc in Hloaded.
    split; [exact Hloaded|]. rewrite Hmode'. exact Hmode1.
Qed.

Lemma unloaded_backed fs path mode file :
  filesystem.read_file fs path = Some file ->
  backed_by (unloaded fs path mode) file.
Proof.
  intros Hread. unfold unloaded, backed_by. rewrite Hread.
  destruct mode; cbn; repeat split.
Qed.

End container_reading.

(** ** The directory a reader finds in a built container *)
Section built_directory.
Import archive_builder.
Context {C : zlib.codec}.

Lemma load_records_snoc rs r d :
  load_records (rs ++ [r]) d
  = if malformed r then load_records rs d
    else <[filename (record_entry r) := record_entry r]> (load_records rs d).
Proof. unfold load_records. now rewrite fold_left_app. Qed.

(** Of the entries written under a name the reader keeps the last one,
    provided the name is one it accepts. *)
Lemma built_directory_lookup directory name :
  Forall (fun e => str_size (filename e) < 2 ^ 32) directory ->
  load_records (map entry_record directory) ∅ !! name
  = if decide (loadable_name name)
    then reloaded <$> last (filter (fun e => filename e = name) directory)
    else None.
Proof.
  induction directory as [|e directory IH] using rev_ind; intros Hall.
  - cbn. rewrite lookup_empty. now destruct (decide _).
  - apply Forall_app in Hall as [Hall He]. apply Forall_inv in He.
    specialize (IH Hall).
    rewrite map_app. cbn [map]. rewrite load_records_snoc, filter_app.
    rewrite record_entry_record. cbn [reloaded filename].
    pose proof (malformed_entry_record e He) as Hm.
    rewrite filter_cons, filter_nil.
    destruct (decide (filename e = name)) as [Hname|Hname].
    + rewrite last_snoc.
      cbn [fmap option_fmap option_map]. subst name.
      destruct (malformed (entry_record e)).
      * rewrite IH. destruct (decide (loadable_name (filename e))) as [Hl|Hl];
          [|reflexivity]. apply Hm in Hl. discriminate.
      * rewrite lookup_insert_eq.
        destruct (decide (loadable_name (filename e))) as [Hl|Hl];
          [reflexivity|]. destruct Hl. now apply Hm.
    + rewrite app_nil_r.
      destruct (malformed (entry_record e)); [exact IH|].
      rewrite lookup_insert_ne by exact Hname. exact IH.
Qed.

Lemma placed_shift fs blob rest base file e :
  placed fs rest (base + vsize blob) file e ->
  placed fs (blob ++ rest) base file e.
Proof.
  intros (Hn & Hm & src & blob' & pre & post & Hr & Hb & -> & Ho & Hs).
  split; [exact Hn|]. split; [exact Hm|].
  exists src, blob', (blob ++ pre), post.
  rewrite <- app_assoc, vsize_app. repeat split; try assumption. lia.
Qed.

(** [layout] places every file, in order. *)
Lemma layout_placed fs files : forall base data directory,
  layout fs files base = Some (data, directory) ->
  Forall2 (placed fs data base) files directory.
Proof.
  induction files as [|file files IH]; intros base data directory Hlay.
  - cbn in Hlay. injection Hlay as <- <-. constructor.
  - cbn [layout] in Hlay.
    destruct (filesystem.read_file fs (source_path file)) as [src|] eqn:Hsrc;
      [|discriminate].
    destruct (stored_blob (compression file) src) as [[blob recorded]|]
      eqn:Hblob; [|discriminate].
    destruct (layout fs files (base + vsize blob)) as [[rest entries]|]
      eqn:Hrest; [|discriminate].
    injection Hlay as <- <-. constructor.
    + split; [reflexivity|]. split; [reflexivity|].
      exists src, blob, [], rest. cbn [app data_offset compressed_size
        uncompressed_size]. repeat split; try assumption.
      change (vsize []) with 0. lia.
    + eapply Forall2_impl; [apply IH; exact Hrest|].
      intros f e. apply placed_shift.
Qed.


Lemma layout_names fs files : forall base data directory,
  layout fs files base = Some (data, directory) ->
  map filename directory = map archive_path files.
Proof.
  intros base data directory Hlay. apply layout_placed in Hlay.
  induction Hlay as [|f e fs' es (Hn & _) _ IH]; [reflexivity|].
  cbn [map]. now rewrite Hn, IH.
Qed.

End built_directory.

(** ** Opening an entry of a loaded container *)
Section open_loaded.
Import archive_builder.
Context {C : zlib.codec}.




End open_loaded.

(** ** From the builder to the reader *)
Section build_then_read.
Import archive_builder.
Context {C : zlib.codec}.

(** A reader constructed on the file of a completed [build] loads the
    directory that [layout] computes. *)
Lemma built_container_loads b fs output_path container fs' path mode :
  build b fs output_path = (ok tt, container) ->
  filesystem.read_file fs' path = Some container ->
  Z.of_nat (length (files_ b)) < 2 ^ 32 ->
  Forall (fun f => str_size (archive_path f) < 2 ^ 32) (files_ b) ->
  exists data directory a,
    layout fs (files_ b) sizeof_header = Some (data, directory) /\
    container
    = header_bytes (final_header (Z.of_nat (length (files_ b))) (vsize data))
      ++ data ++ flat_map entry_bytes directory /\
    vsize container < 2 ^ 63 /\
    Forall (fun e => str_size (filename e) < 2 ^ 32) directory /\
    archive.make fs' path mode = Some a /\
    archive.mode_ a = mode /\
    loaded a container (load_records (map entry_record directory) ∅).
Proof.
  intros Hbuild Hread Hcount Hnames.
  apply build_ok_layout in Hbuild
    as (_ & data & directory & Hlay & Hcontainer & Hfit).
  pose proof (layout_placed _ _ _ _ _ Hlay) as Hplaced.
  assert (Hlen : length directory = length (files_ b))
    by (symmetry; eapply Forall2_length; exact Hplaced).
  assert (Hdirnames : Forall (fun e => str_size (filename e) < 2 ^ 32) directory).
  { eapply Forall2_Forall_r; [exact Hplaced|].
    eapply Forall_impl; [exact Hnames|].
    intros f Hf e (Hn & _). now rewrite Hn. }
  assert (Hsize : vsize container < 2 ^ 63)
    by (unfold ofstream.max_offset in Hfit; lia).
  set (h := final_header (Z.of_nat (length (files_ b))) (vsize data)) in *.
  assert (Hshape : container
                   = header_bytes h ++ data
                     ++ flat_map raw_bytes (map entry_record directory) ++ []).
  { rewrite app_nil_r, <- flat_map_entry_bytes. exact Hcontainer. }
  destruct (load_directory_loaded (unloaded fs' path mode) h data
              (map entry_record directory) []) as (a & Hload & Hloaded & Hmode).
  - rewrite <- Hshape. now apply unloaded_backed.
  - reflexivity.
  - reflexivity.
  - reflexivity.
  - cbn [h final_header directory_count]. rewrite length_map, Hlen.
    unfold u32. apply Z.mod_small. lia.
  - cbn [h final_header directory_count]. unfold u32.
    apply Z.mod_pos_bound. reflexivity.
  - apply Forall_map. eapply Forall_impl; [exact Hdirnames|].
    intros e. apply framed_entry_record.
  - rewrite <- Hshape. exact Hsize.
  - exists data, directory, a. rewrite <- Hshape in Hloaded.
    split; [exact Hlay|]. split; [exact Hcontainer|]. split; [exact Hsize|].
    split; [exact Hdirnames|]. rewrite make_unloaded, Hload.
    split; [reflexivity|]. split; [|exact Hloaded].
    rewrite Hmode. now destruct mode.
Qed.

End build_then_read.





(** X3: the names a reader finds in a built container are the names that
    were added and have 1 to 4095 bytes; a file added under an empty name
    or one of 4096 bytes or more is written by [build] and is invisible
    to the reader. *)
Theorem built_names_visible {C : zlib.codec}
    (b : archive_builder.t) (fs : filesystem.node)
    (output_path : filesystem.path) (container : list byte)
    (fs' : filesystem.node) (path : filesystem.path)
    (mode : archive.access_mode) :
  archive_builder.build b fs output_path = (ok tt, container) ->
  filesystem.read_file fs' path = Some container ->
  Z.of_nat (length (archive_builder.files_ b)) < 2 ^ 32 ->
  Forall (fun f => str_size (archive_builder.archive_path f) < 2 ^ 32)
    (archive_builder.files_ b) ->
  exists a,
    archive.make fs' path mode = Some a /\
    forall name,
      archive.contains a name = true <->
      loadable_name name /\
      name ∈ map archive_builder.archive_path (archive_builder.files_ b).
Proof.
  intros Hbuild Hread Hcount Hnames.
  destruct (built_container_loads b fs output_path container fs' path mode
              Hbuild Hread Hcount Hnames)
    as (data & directory & a & Hlay & _ & _ & Hdirnames & Hmake & _ & _ & Hdir).
  exists a. split; [exact Hmake|]. intros name.
  unfold archive.contains. rewrite Hdir.
  rewrite built_directory_lookup by exact Hdirnames.
  rewrite <- (layout_names _ _ _ _ _ Hlay).
  destruct (decide (loadable_name name)) as [Hl|Hl].
  - destruct (last (filter (fun e => filename e = name) directory))
      as [e|] eqn:Hlast; cbn [fmap option_fmap option_map].
    + split; [intros _|reflexivity]. split; [exact Hl|].
      apply last_Some in Hlast as [l' Hlast].
      assert (He : e ∈ filter (fun e => filename e = name) directory)
        by (rewrite Hlast; apply elem_of_app; right; constructor).
      apply list_elem_of_filter in He as [<- He].
      apply list_elem_of_fmap. now exists e.
    + split; [discriminate|]. intros [_ Hin].
      apply list_elem_of_fmap in Hin as (e & -> & He).
      apply last_None in Hlast.
      assert (He' : e ∈ filter (fun e' => filename e' = filename e) directory)
        by (apply list_elem_of_filter; split; [reflexivity|exact He]).
      rewrite Hlast in He'. inversion He'.
  - split; [discriminate|]. intros [Hl' _]. contradiction.
Qed.

Lemma built_names_visible_witness :
  exists a,
    archive.make samples.disk_fs ["a.pak"%string] archive.memory = Some a /\
    archive.contains a "only_a.txt" = true.
Proof.
  destruct (built_names_visible (C := samples.stored)
              samples.builder_a samples.sources
              ["out"%string; "a.pak"%string] samples.pak_a
              samples.disk_fs ["a.pak"%string] archive.memory)
    as (a & Hmake & Hnames).
  - vm_compute. reflexivity.
  - reflexivity.
  - vm_compute. reflexivity.
  - repeat constructor; vm_compute; reflexivity.
  - exists a. split; [exact Hmake|]. apply Hnames. split.
    + split; vm_compute; reflexivity.
    + apply list_elem_of_In. vm_compute. right. left. reflexivity.
Defined.

(** ** The reader on files it cannot use, and after a failed read *)
Section reader_failures.
Context {C : zlib.codec}.

Lemma ifstream_seekg_keeps s p :
  ifstream.is_open (ifstream.seekg s p) = ifstream.is_open s /\
  ifstream.contents (ifstream.seekg s p) = ifstream.contents s /\
  ifstream.eofbit (ifstream.seekg s p) = false /\
  (ifstream.failbit s = true -> ifstream.failbit (ifstream.seekg s p) = true).
Proof.
  unfold ifstream.seekg.
  destruct (ifstream.failbit s);
    [|destruct (negb (ifstream.is_open s) || (p <? 0))%bool];
    cbn; repeat split; intros; congruence.
Qed.

Lemma ifstream_read_keeps s n :
  ifstream.is_open (ifstream.read s n).2 = ifstream.is_open s /\
  ifstream.contents (ifstream.read s n).2 = ifstream.contents s /\
  (ifstream.failbit s = true ->
   ifstream.read s n
   = ([], {| ifstream.is_open := ifstream.is_open s;
             ifstream.contents := ifstream.contents s;
             ifstream.pos := ifstream.pos s;
             ifstream.eofbit := ifstream.eofbit s;
             ifstream.failbit := true; ifstream.gcount := 0 |})).
Proof.
  unfold ifstream.read.
  destruct (ifstream.eofbit s) eqn:He; destruct (ifstream.failbit s) eqn:Hf;
    cbn; repeat split; intros; congruence.
Qed.

Lemma read_file_data_frame a e result a' :
  archive.read_file_data a e = (result, a') ->
  archive.directory_ a' = archive.directory_ a /\
  archive.mode_ a' = archive.mode_ a /\
  archive.memory_data_ a' = archive.memory_data_ a /\
  (archive.mode_ a = archive.memory -> a' = a) /\
  (forall data file, result = ok data -> backed_by a file -> backed_by a' file) /\
  (forall err, result = unexpected err -> err = archive.read_error).
Proof.
  unfold archive.read_file_data, backed_by.
  destruct (archive.mode_ a) eqn:Hmode.
  - set (s0 := ifstream.seekg (archive.file_stream_ a)
                 (ifstream.streamoff (data_offset e))).
    set (n := ifstream.streamoff (compressed_size e)).
    destruct (ifstream_seekg_keeps (archive.file_stream_ a)
                (ifstream.streamoff (data_offset e))) as (Ho0 & Hc0 & _).
    destruct (ifstream_read_keeps s0 n) as (Ho1 & Hc1 & _).
    fold s0 in Ho0, Hc0.
    destruct (ifstream.read s0 n) as [got s1]. cbn [snd] in Ho1, Hc1.
    destruct (ifstream.failbit s1) eqn:Hf1; cbn [orb];
      [|destruct (negb (ifstream.gcount s1 =? n))];
      intros [= <- <-];
      cbn [archive.with_stream archive.directory_ archive.mode_
           archive.memory_data_ archive.file_stream_];
      rewrite Hmode;
      (split; [reflexivity|]); (split; [reflexivity|]);
      (split; [reflexivity|]); (split; [discriminate|]);
      (split; [|intros err [= <-]; reflexivity || discriminate]);
      intros data file Hok (Ho & Hc & Hf); try discriminate Hok.
    rewrite Ho1, Ho0, Hc1, Hc0. repeat split; assumption.
  - destruct (vsize (archive.memory_data_ a)
              <? u64 (data_offset e + compressed_size e));
      intros [= <- <-]; rewrite Hmode;
      (split; [reflexivity|]); (split; [reflexivity|]);
      (split; [reflexivity|]); (split; [reflexivity|]);
      (split; [intros data file _ Hm; exact Hm|]);
      intros err [= <-] || (intros err Hx; discriminate Hx); reflexivity.
Qed.

(** What [open] can change of a reader, and the errors it can return. *)
Lemma archive_open_keeps a name result a' :
  archive.open a name = (result, a') ->
  archive.directory_ a' = archive.directory_ a /\
  archive.mode_ a' = archive.mode_ a /\
  archive.memory_data_ a' = archive.memory_data_ a /\
  (archive.mode_ a = archive.memory -> a' = a) /\
  (forall stream file,
      result = ok stream -> backed_by a file -> backed_by a' file) /\
  (forall err, result = unexpected err ->
     match archive.directory_ a !! name with
     | None => err = archive.entry_not_found /\ a' = a
     | Some entry =>
         err = archive.read_error \/
         err = archive.compression_error /\ compression entry <> format.none
     end).
Proof.
  unfold archive.open.
  destruct (archive.directory_ a !! name) as [entry|] eqn:Hlookup.
  - destruct (archive.read_file_data a entry) as [data_result a1] eqn:Hdata.
    destruct (read_file_data_frame a entry data_result a1 Hdata)
      as (Hd & Hm & Hmem & Hsame & Hback & Herr).
    destruct data_result as [data|err0].
    + destruct (decide (compression entry = none)) as [Hnone|Hnone].
      * intros [= <- <-]. repeat split; try assumption.
        -- intros stream file _. now apply (Hback data).
        -- discriminate.
      * destruct (compression_engine.decompress data (compression entry)
                    (uncompressed_size entry)) as [decompressed|err1];
          intros [= <- <-]; repeat split; try assumption.
        -- intros stream file _. now apply (Hback data).
        -- discriminate.
        -- intros stream file Hx. discriminate Hx.
        -- intros err [= <-]. right. split; [reflexivity|exact Hnone].
    + intros [= <- <-]. repeat split; try assumption.
      * intros stream file Hx. discriminate Hx.
      * intros err [= <-]. left. now apply Herr.
  - intros [= <- <-].
    repeat split; try reflexivity; try discriminate; congruence.
Qed.



Lemma ifstream_read_failed s n :
  ifstream.failbit s = true ->
  ifstream.read s n
  = ([], {| ifstream.is_open := ifstream.is_open s;
            ifstream.contents := ifstream.contents s;
            ifstream.pos := ifstream.pos s;
            ifstream.eofbit := ifstream.eofbit s;
            ifstream.failbit := true; ifstream.gcount := 0 |}).
Proof. apply ifstream_read_keeps. Qed.

(** The rest of an iteration of the directory loop once the read of the
    length has left the stream failed and the length zero. *)
Lemma load_entry_after_failure a current_pos s :
  archive.mode_ a = archive.disk ->
  ifstream.read
    (ifstream.seekg (archive.file_stream_ a) (ifstream.streamoff current_pos)) 4
  = ([], s) ->
  ifstream.failbit s = true ->
  exists a' pos',
    archive.load_entry a current_pos = ok (a', pos') /\
    poisoned a' /\ archive.directory_ a' = archive.directory_ a.
Proof.
  intros Hmode Hread Hfail. unfold archive.load_entry. rewrite Hmode, Hread.
  change (le_value (overwrite (le_bytes 4 0) [])) with 0.
  cbn [Z.ltb Z.compare andb].
  rewrite (ifstream_read_failed s 8 Hfail).
  rewrite !ifstream_read_failed by reflexivity.
  cbn [ifstream.is_open ifstream.contents ifstream.pos ifstream.eofbit].
  unfold archive.insert_entry. cbn [filename].
  rewrite decide_True by reflexivity.
  eexists _, _. split; [reflexivity|]. split; [|reflexivity].
  split; reflexivity.
Qed.

Lemma load_entry_poisoned a current_pos :
  poisoned a ->
  exists a' pos',
    archive.load_entry a current_pos = ok (a', pos') /\
    poisoned a' /\ archive.directory_ a' = archive.directory_ a.
Proof.
  intros [Hmode Hfail].
  assert (Hf0 : ifstream.failbit
                  (ifstream.seekg (archive.file_stream_ a)
                     (ifstream.streamoff current_pos)) = true)
    by (now apply ifstream_seekg_keeps).
  eapply load_entry_after_failure;
    [exact Hmode|apply (ifstream_read_failed _ 4 Hf0)|reflexivity].
Qed.

Lemma load_entries_poisoned count : forall a current_pos,
  poisoned a ->
  exists a',
    archive.load_entries count a current_pos = ok a' /\
    poisoned a' /\ archive.directory_ a' = archive.directory_ a.
Proof.
  induction count as [|count IH]; intros a current_pos Hp.
  - exists a. repeat split; apply Hp.
  - cbn [archive.load_entries].
    destruct (load_entry_poisoned a current_pos Hp)
      as (a1 & pos1 & Hload & Hp1 & Hd1).
    rewrite Hload. destruct (IH a1 pos1 Hp1) as (a' & Hrest & Hp' & Hd').
    exists a'. split; [exact Hrest|]. split; [exact Hp'|congruence].
Qed.

(** The first record read at or past the end of the file. *)
Lemma load_entry_at_end a file current_pos :
  archive.mode_ a = archive.disk ->
  backed_by a file ->
  vsize file <= current_pos < 2 ^ 63 ->
  exists a' pos',
    archive.load_entry a current_pos = ok (a', pos') /\
    poisoned a' /\ archive.directory_ a' = archive.directory_ a.
Proof.
  intros Hmode Hback Hpos. unfold backed_by in Hback. rewrite Hmode in Hback.
  destruct Hback as (Hopen & Hc & Hfail).
  pose proof (vsize_nonneg file) as Hnn.
  eapply load_entry_after_failure; [exact Hmode| |].
  - rewrite streamoff_small by lia.
    rewrite ifstream_seekg_good by (assumption || lia).
    unfold ifstream.read.
    cbn [ifstream.eofbit ifstream.failbit ifstream.pos ifstream.contents orb].
    rewrite Hc.
    assert (Hgot : slice file current_pos 4 = []).
    { unfold slice. rewrite drop_ge; [reflexivity|]. unfold vsize in Hpos. lia. }
    rewrite Hgot. reflexivity.
  - reflexivity.
Qed.

End reader_failures.

(** X4: what [open] of a reader can do.  It reports [entry_not_found]
    exactly for the names the directory lacks; its other errors are
    [read_error] and [compression_error], never [file_not_found] or
    [invalid_format]; it never changes the directory, and in memory mode
    it leaves the whole reader as it was. *)
Theorem reader_open_effects {C : zlib.codec} (a : archive.t) (name : string) :
  (archive.contains a name = false <->
   (archive.open a name).1 = unexpected archive.entry_not_found) /\
  (forall err,
      (archive.open a name).1 = unexpected err ->
      err = archive.entry_not_found \/ err = archive.read_error \/
      err = archive.compression_error) /\
  archive.directory_ (archive.open a name).2 = archive.directory_ a /\
  (archive.mode_ a = archive.memory -> (archive.open a name).2 = a).
Proof.
  destruct (archive.open a name) as [result a'] eqn:Hopen. cbn [fst snd].
  destruct (archive_open_keeps a name result a' Hopen)
    as (Hd & _ & _ & Hsame & _ & Herr).
  unfold archive.contains.
  split; [|split; [|split; assumption]].
  - destruct (archive.directory_ a !! name) as [entry|] eqn:Hlookup.
    + split; [discriminate|]. intros ->.
      destruct (Herr _ eq_refl) as [Hx|[Hx _]]; discriminate Hx.
    + split; [intros _|reflexivity].
      unfold archive.open in Hopen. rewrite Hlookup in Hopen. congruence.
  - intros err ->. specialize (Herr err eq_refl).
    destruct (archive.directory_ a !! name); intuition.
Qed.





(** X7: a container from which no header can be read, because nothing
    exists at the path or a regular file shorter than 24 bytes does, is
    rejected with an error that depends on the mode: [file_not_found] or
    [read_error] in disk mode, [invalid_format] in memory mode.  The
    constructor throws, [create] reports [read_error] in every case, and
    [mount] reports [archive_error] and leaves the VFS as it was. *)
Theorem headerless_container_rejected (fs : filesystem.node)
    (path : filesystem.path) (mode : archive.access_mode) :
  match filesystem.lookup fs path with
  | None => True
  | Some (filesystem.regular_file contents) => vsize contents < sizeof_header
  | Some _ => False
  end ->
  archive.load_directory (unloaded fs path mode)
  = unexpected
      (no_header_error mode
         (bool_decide (is_Some (filesystem.lookup fs path)))) /\
  archive.make fs path mode = None /\
  (mode = archive.disk ->
   archive.create fs path = unexpected archive.read_error) /\
  forall v, vfs.mount v fs path mode = (unexpected vfs.archive_error, v).
Proof.
  intros Hshort.
  assert (Hload : archive.load_directory (unloaded fs path mode)
                  = unexpected
                      (no_header_error mode
                         (bool_decide
                            (is_Some (filesystem.lookup fs path))))).
  { unfold archive.load_directory, archive.load_header, unloaded,
      filesystem.read_file.
    destruct (filesystem.lookup fs path) as [[contents|entries|]|];
      try contradiction; destruct mode;
      cbn [archive.mode_ archive.file_stream_ archive.memory_data_
           ifstream.open ifstream.is_open negb no_header_error].
    - rewrite ifstream_seekg_good by (reflexivity || lia).
      unfold ifstream.read.
      cbn [ifstream.eofbit ifstream.failbit ifstream.pos ifstream.contents orb].
      assert (Hgot : (vsize (slice contents 0 sizeof_header) <? sizeof_header)
                     = true).
      { apply Z.ltb_lt. unfold slice, vsize in *.
        rewrite length_take, length_drop. lia. }
      rewrite Hgot. cbn [ifstream.failbit orb].
      rewrite bool_decide_eq_true_2 by (now eexists). reflexivity.
    - apply Z.ltb_lt in Hshort. rewrite Hshort. reflexivity.
    - reflexivity.
    - reflexivity. }
  assert (Hmake : archive.make fs path mode = None)
    by (rewrite make_unloaded, Hload; reflexivity).
  split; [exact Hload|]. split; [exact Hmake|]. split.
  - intros ->. unfold archive.create. now rewrite Hmake.
  - intros v. unfold vfs.mount. now rewrite Hmake.
Qed.

Lemma headerless_container_rejected_witness :
  archive.load_directory
    (unloaded samples.disk_fs ["missing.pak"%string] archive.disk)
  = unexpected archive.file_not_found /\
  vfs.mount vfs.make samples.disk_fs ["missing.pak"%string] archive.disk
  = (unexpected vfs.archive_error, vfs.make).
Proof.
  destruct (headerless_container_rejected samples.disk_fs
              ["missing.pak"%string] archive.disk) as (Hload & _ & _ & Hmount).
  - vm_compute. exact I.
  - split; [exact Hload|apply Hmount].
Defined.

(** X8: a file that begins with 24 bytes whose magic number or version is
    not the expected one is rejected with [invalid_format] in both modes,
    whatever follows the header. *)
Theorem foreign_header_rejected (fs : filesystem.node)
    (path : filesystem.path) (mode : archive.access_mode)
    (h : archive_header) (rest : list byte) :
  filesystem.read_file fs path = Some (header_bytes h ++ rest) ->
  u32 (magic h) <> MAGIC_NUMBER \/ u32 (version h) <> FORMAT_VERSION ->
  archive.load_directory (unloaded fs path mode)
  = unexpected archive.invalid_format /\
  archive.make fs path mode = None.
Proof.
  intros Hread Hforeign.
  assert (Hload : archive.load_directory (unloaded fs path mode)
                  = unexpected archive.invalid_format).
  { unfold archive.load_directory.
    destruct (load_header_ok (unloaded fs path mode) h rest
                (unloaded_backed fs path mode _ Hread)) as (a1 & Hhdr & _).
    rewrite Hhdr. cbn [magic version].
    destruct (u32 (magic h) =? MAGIC_NUMBER) eqn:Hm; [|reflexivity].
    destruct (u32 (version h) =? FORMAT_VERSION) eqn:Hv; [|reflexivity].
    apply Z.eqb_eq in Hm, Hv. destruct Hforeign; contradiction. }
  split; [exact Hload|]. rewrite make_unloaded, Hload. reflexivity.
Qed.

Lemma foreign_header_rejected_witness :
  archive.make
    (filesystem.directory
       [ ("old.pak"%string,
          filesystem.regular_file
            (header_bytes
               {| magic := MAGIC_NUMBER; version := 2; directory_offset := 24;
                  directory_count := 0; reserved := 0 |} ++ [])) ])
    ["old.pak"%string] archive.memory
  = None.
Proof.
  apply (foreign_header_rejected
           (filesystem.directory
              [ ("old.pak"%string,
                 filesystem.regular_file
                   (header_bytes
                      {| magic := MAGIC_NUMBER; version := 2;
                         directory_offset := 24; directory_count := 0;
                         reserved := 0 |} ++ [])) ])
           ["old.pak"%string] archive.memory
           {| magic := MAGIC_NUMBER; version := 2; directory_offset := 24;
              directory_count := 0; reserved := 0 |} []).
  - reflexivity.
  - right. vm_compute. discriminate.
Defined.

(** X9: a container whose header announces records at or past the end of
    the file is treated differently by the two modes: memory mode rejects
    it with [read_error]; disk mode constructs a reader with an empty
    directory and a failed stream.  The count announced is a small one,
    for which the reservation made before the records are read succeeds. *)
Theorem cut_directory_depends_on_mode (fs : filesystem.node)
    (path : filesystem.path) (h : archive_header) (data : list byte) :
  filesystem.read_file fs path = Some (header_bytes h ++ data) ->
  magic h = MAGIC_NUMBER -> version h = FORMAT_VERSION ->
  0 < directory_count h <= small_count ->
  vsize (header_bytes h ++ data) <= directory_offset h < 2 ^ 63 ->
  archive.load_directory (unloaded fs path archive.memory)
  = unexpected archive.read_error /\
  archive.make fs path archive.memory = None /\
  exists a,
    archive.make fs path archive.disk = Some a /\
    archive.directory_ a = ∅ /\ poisoned a.
Proof.
  intros Hread Hmagic Hversion Hcount Hoff.
  pose proof (vsize_nonneg (header_bytes h ++ data)) as Hnn.
  unfold small_count in Hcount.
  assert (Hfirst : exists n, Z.to_nat (u32 (directory_count h)) = S n).
  { unfold u32. rewrite Z.mod_small by lia.
    exists (Z.to_nat (directory_count h) - 1)%nat. lia. }
  destruct Hfirst as [n Hn].
  assert (Hmem : archive.load_directory (unloaded fs path archive.memory)
                 = unexpected archive.read_error).
  { unfold archive.load_directory.
    destruct (load_header_ok (unloaded fs path archive.memory) h data
                (unloaded_backed fs path archive.memory _ Hread))
      as (a1 & Hhdr & Hmode1 & Hback1).
    rewrite Hhdr. cbn [magic version directory_count directory_offset].
    rewrite Hmagic, Hversion, Hn.
    change (u32 MAGIC_NUMBER =? MAGIC_NUMBER) with true.
    change (u32 FORMAT_VERSION =? FORMAT_VERSION) with true. cbn [negb].
    rewrite (u64_small (directory_offset h)) by lia.
    cbn [archive.load_entries]. unfold archive.load_entry.
    cbn [archive.with_directory archive.mode_ archive.memory_data_].
    rewrite Hmode1. cbn [unloaded archive.mode_].
    unfold backed_by in Hback1. rewrite Hmode1 in Hback1.
    cbn [unloaded archive.mode_] in Hback1. rewrite Hback1.
    rewrite u64_small by lia.
    replace (vsize (header_bytes h ++ data) <? directory_offset h + 4)
      with true by (symmetry; apply Z.ltb_lt; lia).
    reflexivity. }
  split; [exact Hmem|]. split; [rewrite make_unloaded, Hmem; reflexivity|].
  rewrite make_unloaded. unfold archive.load_directory.
  destruct (load_header_ok (unloaded fs path archive.disk) h data
              (unloaded_backed fs path archive.disk _ Hread))
    as (a1 & Hhdr & Hmode1 & Hback1).
  rewrite Hhdr. cbn [magic version directory_count directory_offset].
  rewrite Hmagic, Hversion, Hn.
  change (u32 MAGIC_NUMBER =? MAGIC_NUMBER) with true.
  change (u32 FORMAT_VERSION =? FORMAT_VERSION) with true. cbn [negb].
  rewrite (u64_small (directory_offset h)) by lia.
  cbn [archive.load_entries].
  destruct (load_entry_at_end (archive.with_directory a1 ∅)
              (header_bytes h ++ data) (directory_offset h))
    as (a2 & pos2 & Hload & Hp2 & Hd2).
  - exact Hmode1.
  - unfold backed_by in *. cbn [archive.with_directory archive.mode_
      archive.file_stream_ archive.memory_data_]. exact Hback1.
  - lia.
  - rewrite Hload.
    destruct (load_entries_poisoned n a2 pos2 Hp2) as (a & Hrest & Hp & Hd).
    rewrite Hrest. exists a. split; [reflexivity|].
    split; [|exact Hp]. rewrite Hd, Hd2. reflexivity.
Qed.

Lemma cut_directory_depends_on_mode_witness :
  let fs :=
    filesystem.directory
      [ ("cut.pak"%string,
         filesystem.regular_file
           (header_bytes
              {| magic := MAGIC_NUMBER; version := FORMAT_VERSION;
                 directory_offset := 24; directory_count := 3;
                 reserved := 0 |} ++ [])) ] in
  archive.make fs ["cut.pak"%string] archive.memory = None /\
  exists a, archive.make fs ["cut.pak"%string] archive.disk = Some a /\
            archive.directory_ a = ∅.
Proof.
  destruct (cut_directory_depends_on_mode
              (filesystem.directory
                 [ ("cut.pak"%string,
                    filesystem.regular_file
                      (header_bytes
                         {| magic := MAGIC_NUMBER; version := FORMAT_VERSION;
                            directory_offset := 24; directory_count := 3;
                            reserved := 0 |} ++ [])) ])
              ["cut.pak"%string]
              {| magic := MAGIC_NUMBER; version := FORMAT_VERSION;
                 directory_offset := 24; directory_count := 3;
                 reserved := 0 |} [])
    as (_ & Hmem & a & Hdisk & Hdir & _).
  - reflexivity.
  - reflexivity.
  - reflexivity.
  - vm_compute. split; [reflexivity|discriminate].
  - vm_compute. split; [discriminate|reflexivity].
  - split; [exact Hmem|]. exists a. split; assumption.
Defined.

(** ** The codec: methods and the recorded size *)



(** X10: the codec knows two methods.  [compress] and [decompress] return
    [invalid_method] exactly for a tag other than [none] and [deflate],
    such as the reserved [zstd]; [none] hands the bytes back unchanged
    and, zlib being taken not to run out of memory, [compress] does not
    fail for [deflate]. *)
Theorem codec_methods {C : zlib.codec} (data : list byte)
    (method : compression_method) (n : Z) :
  (compression_engine.compress data method
   = unexpected compression_engine.invalid_method <->
   method <> format.none /\ method <> format.deflate) /\
  (compression_engine.decompress data method n
   = unexpected compression_engine.invalid_method <->
   method <> format.none /\ method <> format.deflate) /\
  (method = format.none ->
   compression_engine.compress data method = ok data /\
   compression_engine.decompress data method n = ok data) /\
  (method = format.deflate ->
   exists c, compression_engine.compress data method = ok c).
Proof.
  unfold compression_engine.compress, compression_engine.decompress.
  destruct (decide (method = format.none)) as [Hn|Hn];
    [|destruct (decide (method = format.deflate)) as [Hd|Hd]].
  - repeat split; try discriminate; try tauto.
    intros ->. discriminate.
  - rewrite deflate_compress_ok, deflate_decompress_eq. cbv zeta.
    split; [split; [discriminate|tauto]|]. split; [|split].
    + split; [|tauto].
      destruct (inflate_failed _); [discriminate|].
      destruct (_ && _)%bool; discriminate.
    + intros Hx. contradiction.
    + intros _. eexists. reflexivity.
  - repeat split; try assumption; try contradiction.
Qed.





(** ** The stream buffer (vfstream.cpp) *)

Lemma slice_add (l : list byte) p k1 k2 :
  0 <= p -> 0 <= k1 -> 0 <= k2 ->
  slice l p (k1 + k2) = slice l p k1 ++ slice l (p + k1) k2.
Proof.
  intros Hp H1 H2. unfold slice.
  rewrite !Z2Nat.inj_add by lia.
  rewrite <- take_take_drop, drop_drop. reflexivity.
Qed.

Lemma slice_none (l : list byte) p : slice l p 0 = [].
Proof. reflexivity. Qed.

(** [xsgetn] on a buffer in range: it copies the bytes from the get
    position, as many as asked for or as are left, and advances by that
    count. *)
Lemma xsgetn_in_range b count :
  in_range b -> 0 <= count ->
  let k := Z.min count (vsize (vfstreambuf.data_ b) - vfstreambuf.gpos b) in
  vfstreambuf.xsgetn b count
  = (k, slice (vfstreambuf.data_ b) (vfstreambuf.gpos b) k,
     {| vfstreambuf.data_ := vfstreambuf.data_ b;
        vfstreambuf.gpos := vfstreambuf.gpos b + k |}).
Proof.
  intros Hr Hc k. unfold vfstreambuf.xsgetn. fold k.
  unfold in_range in Hr.
  destruct (0 <? k) eqn:Hk; [reflexivity|].
  apply Z.ltb_ge in Hk. assert (k = 0) as -> by (unfold k in *; lia).
  rewrite slice_none, Z.add_0_r. now destruct b.
Qed.

(** X13: the get position of a stream buffer never leaves the data.
    Started in range over data below 2 GiB (the advance of [xsgetn] is
    cast to [int]), it stays in range under [xsgetn], [seekoff] and
    [seekpos], none of which changes the data; a seek that fails returns
    -1 and leaves the position where it was, and a seek that succeeds
    returns the new position. *)
Theorem streambuf_position_in_range (b : vfstreambuf.t) (count off : Z)
    (way : vfstreambuf.seekdir) (which_is_in : bool) :
  in_range b -> vsize (vfstreambuf.data_ b) < 2 ^ 31 ->
  in_range (vfstreambuf.xsgetn b count).2 /\
  vfstreambuf.data_ (vfstreambuf.xsgetn b count).2 = vfstreambuf.data_ b /\
  in_range (vfstreambuf.seekoff b off way which_is_in).2 /\
  vfstreambuf.data_ (vfstreambuf.seekoff b off way which_is_in).2
  = vfstreambuf.data_ b /\
  in_range (vfstreambuf.seekpos b off which_is_in).2 /\
  ((vfstreambuf.seekoff b off way which_is_in).1 = -1 ->
   (vfstreambuf.seekoff b off way which_is_in).2 = b) /\
  ((vfstreambuf.seekoff b off way which_is_in).1 <> -1 ->
   which_is_in = true /\
   vfstreambuf.gpos (vfstreambuf.seekoff b off way which_is_in).2
   = (vfstreambuf.seekoff b off way which_is_in).1).
Proof.
  intros Hr _. unfold in_range in *.
  assert (Hseek : forall way',
             let r := vfstreambuf.seekoff b off way' which_is_in in
             (0 <= vfstreambuf.gpos r.2 <= vsize (vfstreambuf.data_ r.2)) /\
             vfstreambuf.data_ r.2 = vfstreambuf.data_ b /\
             (r.1 = -1 -> r.2 = b) /\
             (r.1 <> -1 ->
              which_is_in = true /\ vfstreambuf.gpos r.2 = r.1)).
  { intros way'. unfold vfstreambuf.seekoff.
    destruct which_is_in; cbn [negb fst snd];
      [|intuition (lia || congruence)].
    set (new_pos := match way' with
                    | vfstreambuf.beg => off
                    | vfstreambuf.cur => vfstreambuf.gpos b + off
                    | vfstreambuf.end_ => vsize (vfstreambuf.data_ b) + off
                    end).
    destruct (new_pos <? 0) eqn:Hneg; cbn [orb fst snd];
      [|destruct (vsize (vfstreambuf.data_ b) <? new_pos) eqn:Hbig;
        cbn [fst snd vfstreambuf.gpos vfstreambuf.data_]].
    - intuition (lia || congruence).
    - intuition (lia || congruence).
    - apply Z.ltb_ge in Hneg, Hbig. intuition (lia || congruence). }
  split; [|split; [|split; [|split; [|split]]]].
  - unfold vfstreambuf.xsgetn.
    destruct (0 <? Z.min count
                     (vsize (vfstreambuf.data_ b) - vfstreambuf.gpos b))
      eqn:Hk; cbn [snd vfstreambuf.gpos vfstreambuf.data_]; [|exact Hr].
    apply Z.ltb_lt in Hk. lia.
  - unfold vfstreambuf.xsgetn.
    now destruct (0 <? Z.min count
                         (vsize (vfstreambuf.data_ b) - vfstreambuf.gpos b)).
  - apply (Hseek way).
  - apply (Hseek way).
  - apply (Hseek vfstreambuf.beg).
  - split; apply (Hseek way).
Qed.

Lemma streambuf_position_in_range_witness :
  in_range
    (vfstreambuf.seekoff (vfstreambuf.make (samples.bytes "from A")) (-2)
       vfstreambuf.end_ true).2 /\
  (vfstreambuf.seekoff (vfstreambuf.make (samples.bytes "from A")) 7
     vfstreambuf.beg true).2
  = vfstreambuf.make (samples.bytes "from A").
Proof.
  destruct (streambuf_position_in_range
              (vfstreambuf.make (samples.bytes "from A")) 0 (-2)
              vfstreambuf.end_ true) as (_ & _ & Hend & _).
  - split; vm_compute; discriminate.
  - vm_compute. reflexivity.
  - split; [exact Hend|].
    apply (streambuf_position_in_range
             (vfstreambuf.make (samples.bytes "from A")) 0 7
             vfstreambuf.beg true).
    + split; vm_compute; discriminate.
    + vm_compute. reflexivity.
    + reflexivity.
Defined.

(** X14: reading from a stream buffer in two steps gives what one step
    gives.  With the position in range and the data below 2 GiB (the
    advance is cast to [int]), [xsgetn] copies the bytes that follow the
    position, as many as asked for or as are left; asking for [n1] and
    then [n2] bytes yields the same count, bytes and position as asking
    for [n1 + n2]. *)
Theorem xsgetn_in_two_steps (b : vfstreambuf.t) (n1 n2 : Z) :
  in_range b -> vsize (vfstreambuf.data_ b) < 2 ^ 31 ->
  0 <= n1 -> 0 <= n2 ->
  let '(k1, got1, b1) := vfstreambuf.xsgetn b n1 in
  let '(k2, got2, b2) := vfstreambuf.xsgetn b1 n2 in
  vfstreambuf.xsgetn b (n1 + n2) = (k1 + k2, got1 ++ got2, b2) /\
  k1 + k2
  = Z.min (n1 + n2) (vsize (vfstreambuf.data_ b) - vfstreambuf.gpos b) /\
  got1 ++ got2
  = slice (vfstreambuf.data_ b) (vfstreambuf.gpos b) (k1 + k2).
Proof.
  intros Hr _ H1 H2.
  rewrite (xsgetn_in_range b n1 Hr H1). cbv zeta.
  set (A := vsize (vfstreambuf.data_ b) - vfstreambuf.gpos b).
  set (k1 := Z.min n1 A).
  set (b1 := {| vfstreambuf.data_ := vfstreambuf.data_ b;
                vfstreambuf.gpos := vfstreambuf.gpos b + k1 |}).
  assert (HA : 0 <= A) by (unfold A, in_range in *; lia).
  assert (Hk1 : 0 <= k1 <= A) by (unfold k1; lia).
  assert (Hr1 : in_range b1)
    by (unfold in_range, b1, A in *; cbn [vfstreambuf.gpos vfstreambuf.data_];
        lia).
  rewrite (xsgetn_in_range b1 n2 Hr1 H2). cbv zeta.
  cbn [b1 vfstreambuf.data_ vfstreambuf.gpos].
  set (k2 := Z.min n2 (vsize (vfstreambuf.data_ b)
                       - (vfstreambuf.gpos b + k1))).
  assert (Hk2 : 0 <= k2) by (unfold k2, A in *; lia).
  assert (Hsum : Z.min (n1 + n2) A = k1 + k2) by (unfold k1, k2, A in *; lia).
  rewrite (xsgetn_in_range b (n1 + n2) Hr) by lia. cbv zeta. fold A.
  rewrite Hsum.
  assert (Hslice : slice (vfstreambuf.data_ b) (vfstreambuf.gpos b) (k1 + k2)
                   = slice (vfstreambuf.data_ b) (vfstreambuf.gpos b) k1
                     ++ slice (vfstreambuf.data_ b)
                          (vfstreambuf.gpos b + k1) k2)
    by (apply slice_add; unfold in_range in Hr; lia).
  rewrite Hslice, Z.add_assoc. repeat split.
Qed.

Lemma xsgetn_in_two_steps_witness :
  let b := vfstreambuf.make (samples.bytes "from A") in
  let '(k1, got1, b1) := vfstreambuf.xsgetn b 4 in
  let '(k2, got2, b2) := vfstreambuf.xsgetn b1 5 in
  vfstreambuf.xsgetn b (4 + 5) = (k1 + k2, got1 ++ got2, b2) /\
  k1 + k2 = Z.min (4 + 5) (vsize (vfstreambuf.data_ b) - vfstreambuf.gpos b) /\
  got1 ++ got2 = slice (vfstreambuf.data_ b) (vfstreambuf.gpos b) (k1 + k2).
Proof.
  apply (xsgetn_in_two_steps (vfstreambuf.make (samples.bytes "from A")) 4 5).
  - split; vm_compute; discriminate.
  - vm_compute. reflexivity.
  - lia.
  - lia.
Defined.

(** ** The overlay: what [open] touches *)
Section overlay_frame.
Context {C : zlib.codec}.

Lemma search_keeps_directories archs : forall name,
  map archive.directory_ (vfs.search archs name).2
  = map archive.directory_ archs.
Proof.
  induction archs as [|arch archs IH]; intros name; [reflexivity|].
  cbn [vfs.search]. specialize (IH name).
  destruct (vfs.search archs name) as [found archs''] eqn:Hrest.
  cbn [snd] in IH.
  destruct (archive.contains arch name).
  - destruct (archive.open arch name) as [result arch'] eqn:Hopen.
    apply archive_open_keeps in Hopen as (Hd & _).
    destruct result; cbn [snd map]; now rewrite Hd, ?IH.
  - cbn [snd map]. now rewrite IH.
Qed.

Lemma search_absent archs : forall name,
  existsb (fun arch => archive.contains arch name) archs = false ->
  vfs.search archs name = (None, archs).
Proof.
  induction archs as [|arch archs IH]; intros name Hno; [reflexivity|].
  cbn [existsb] in Hno. apply orb_false_elim in Hno as [Harch Hrest].
  cbn [vfs.search]. rewrite Harch, (IH name Hrest). reflexivity.
Qed.

(** The archives a VFS ends up with after [open], whatever the order. *)
Lemma open_keeps_directories v name :
  map archive.directory_ (vfs.archives_ (vfs.open v name).2)
  = map archive.directory_ (vfs.archives_ v).
Proof.
  unfold vfs.open.
  destruct (if vfs.cache_enabled_ v then vfs.cache_ v !! name else None);
    [reflexivity|].
  assert (Hsearch :
            map archive.directory_
              (match vfs.search_order_ v with
               | vfs.reverse_mount_order =>
                   let '(found, visited) :=
                     vfs.search (rev (vfs.archives_ v)) name in
                   (found, rev visited)
               | vfs.mount_order => vfs.search (vfs.archives_ v) name
               end).2
            = map archive.directory_ (vfs.archives_ v)).
  { destruct (vfs.search_order_ v).
    - apply search_keeps_directories.
    - pose proof (search_keeps_directories (rev (vfs.archives_ v)) name) as H.
      destruct (vfs.search (rev (vfs.archives_ v)) name) as [found visited].
      cbn [snd] in *. rewrite map_rev, H, <- map_rev, rev_involutive.
      reflexivity. }
  destruct (match vfs.search_order_ v with
            | vfs.reverse_mount_order => _
            | vfs.mount_order => _
            end) as [found archs].
  cbn [snd] in Hsearch.
  destruct found as [stream|]; [|exact Hsearch].
  destruct (vfs.cache_enabled_ v); [|exact Hsearch].
  destruct (vfs.drain stream). exact Hsearch.
Qed.

Lemma contains_by_directories v v' name :
  vfs.cache_enabled_ v' = vfs.cache_enabled_ v ->
  vfs.search_order_ v' = vfs.search_order_ v ->
  map archive.directory_ (vfs.archives_ v')
  = map archive.directory_ (vfs.archives_ v) ->
  (vfs.cache_enabled_ v = true -> is_Some (vfs.cache_ v !! name) ->
   is_Some (vfs.cache_ v' !! name)) ->
  vfs.contains v name = true -> vfs.contains v' name = true.
Proof.
  intros He Ho Hd Hc. unfold vfs.contains. rewrite He, Ho.
  assert (Hex : forall l l' : list archive.t,
             map archive.directory_ l' = map archive.directory_ l ->
             existsb (fun arch => archive.contains arch name) l'
             = existsb (fun arch => archive.contains arch name) l).
  { intros l l' Hmap.
    assert (Hcompose : forall k : list archive.t,
               existsb (fun arch => archive.contains arch name) k
               = existsb (fun d : gmap string directory_entry =>
                            match d !! name with
                            | Some _ => true
                            | None => false
                            end) (map archive.directory_ k)).
    { induction k as [|a k IH]; [reflexivity|]. cbn. now rewrite IH. }
    now rewrite !Hcompose, Hmap. }
  destruct (vfs.cache_enabled_ v) eqn:Hen; cbn [andb].
  - destruct (bool_decide (is_Some (vfs.cache_ v !! name))) eqn:Hhit.
    + intros _. apply bool_decide_eq_true_1 in Hhit.
      now rewrite (bool_decide_eq_true_2 _ (Hc eq_refl Hhit)).
    + intros Harch.
      destruct (bool_decide (is_Some (vfs.cache_ v' !! name))); [reflexivity|].
      destruct (vfs.search_order_ v);
        [rewrite (Hex _ _ Hd)|
         rewrite (Hex (rev (vfs.archives_ v)) (rev (vfs.archives_ v')))];
        try exact Harch.
      now rewrite !map_rev, Hd.
  - intros Harch.
    destruct (vfs.search_order_ v);
      [rewrite (Hex _ _ Hd)|
       rewrite (Hex (rev (vfs.archives_ v)) (rev (vfs.archives_ v')))];
      try exact Harch.
    now rewrite !map_rev, Hd.
Qed.

End overlay_frame.

(** X15: what [open] of the VFS leaves alone.  It never changes the cache
    switch or the search order, nor the directory of any mounted archive;
    it touches no cache entry but that of the name opened; its only error
    is [file_not_found], and a failed open leaves the cache as it was;
    every name the VFS contained before it contains afterwards. *)
Theorem vfs_open_frame {C : zlib.codec} (v : vfs.t) (name : string) :
  vfs.cache_enabled_ (vfs.open v name).2 = vfs.cache_enabled_ v /\
  vfs.search_order_ (vfs.open v name).2 = vfs.search_order_ v /\
  map archive.directory_ (vfs.archives_ (vfs.open v name).2)
  = map archive.directory_ (vfs.archives_ v) /\
  (forall other, other <> name ->
     vfs.cache_ (vfs.open v name).2 !! other = vfs.cache_ v !! other) /\
  (forall err, (vfs.open v name).1 = unexpected err ->
     err = vfs.file_not_found /\
     vfs.cache_ (vfs.open v name).2 = vfs.cache_ v) /\
  (forall other, vfs.contains v other = true ->
     vfs.contains (vfs.open v name).2 other = true).
Proof.
  pose proof (open_keeps_directories v name) as Hdirs.
  assert (Hrest :
            vfs.cache_enabled_ (vfs.open v name).2 = vfs.cache_enabled_ v /\
            vfs.search_order_ (vfs.open v name).2 = vfs.search_order_ v /\
            (forall err, (vfs.open v name).1 = unexpected err ->
               err = vfs.file_not_found /\
               vfs.cache_ (vfs.open v name).2 = vfs.cache_ v) /\
            (vfs.cache_ (vfs.open v name).2 = vfs.cache_ v \/
             exists data,
               vfs.cache_ (vfs.open v name).2
               = <[name := data]> (vfs.cache_ v))).
  { destruct (cache_hit v name) as [data|] eqn:Hhit.
    - rewrite (open_hit v name data Hhit). cbn [fst snd].
      repeat split; try discriminate. now left.
    - destruct (open_miss v name Hhit) as (Hcase & He & Ho).
      split; [exact He|]. split; [exact Ho|].
      destruct (first_served (visit_order v) name) as [stream|].
      + destruct (vfs.cache_enabled_ v); destruct Hcase as [Hr Hc];
          rewrite Hr, Hc; (split; [discriminate|]);
          [right; eexists; reflexivity|now left].
      + destruct Hcase as [Hr Hc]. rewrite Hr, Hc.
        split; [|now left]. intros err [= <-]. split; reflexivity. }
  destruct Hrest as (He & Ho & Herr & Hcache).
  assert (Hother : forall other, other <> name ->
             vfs.cache_ (vfs.open v name).2 !! other = vfs.cache_ v !! other).
  { intros other Hne. destruct Hcache as [->|[data ->]]; [reflexivity|].
    apply lookup_insert_ne. congruence. }
  split; [exact He|]. split; [exact Ho|]. split; [exact Hdirs|].
  split; [exact Hother|]. split; [exact Herr|].
  intros other. apply contains_by_directories; try assumption.
  intros _ Hsome. destruct Hcache as [->|[data ->]]; [exact Hsome|].
  destruct (decide (other = name)) as [->|Hne].
  - rewrite lookup_insert_eq. now eexists.
  - rewrite lookup_insert_ne by congruence. exact Hsome.
Qed.

(** X16: [contains] of the VFS does not depend on the search order: it
    holds exactly when the cache is on and has the name, or some mounted
    archive has it in its directory. *)
Theorem vfs_contains_any_order (v : vfs.t) (name : string)
    (order : vfs.search_order) :
  vfs.contains (vfs.set_search_order v order) name = vfs.contains v name /\
  (vfs.contains v name = true <->
   is_Some (cache_hit v name) \/
   exists arch, arch ∈ vfs.archives_ v /\ archive.contains arch name = true).
Proof.
  assert (Hrev : forall l : list archive.t,
             existsb (fun arch => archive.contains arch name) (rev l)
             = existsb (fun arch => archive.contains arch name) l).
  { induction l as [|a l IH]; [reflexivity|].
    cbn [rev existsb]. rewrite existsb_app, IH. cbn [existsb].
    rewrite orb_false_r. apply orb_comm. }
  assert (Hany : forall v0,
             vfs.contains v0 name
             = (vfs.cache_enabled_ v0
                && bool_decide (is_Some (vfs.cache_ v0 !! name))
                || existsb (fun arch => archive.contains arch name)
                     (vfs.archives_ v0))%bool).
  { intros v0. unfold vfs.contains.
    destruct (vfs.cache_enabled_ v0 && _)%bool; [reflexivity|].
    cbn [orb]. destruct (vfs.search_order_ v0); [reflexivity|apply Hrev]. }
  split; [now rewrite !Hany|].
  rewrite Hany, orb_true_iff, andb_true_iff, existsb_exists.
  unfold cache_hit. split.
  - intros [[Hen Hhit]|(arch & Hin & Hc)].
    + left. rewrite Hen. now apply bool_decide_eq_true_1 in Hhit.
    + right. exists arch. split; [now apply list_elem_of_In|exact Hc].
  - intros [Hhit|(arch & Hin & Hc)].
    + left. destruct (vfs.cache_enabled_ v); [|now destruct Hhit].
      split; [reflexivity|now apply bool_decide_eq_true_2].
    + right. exists arch. split; [now apply list_elem_of_In|exact Hc].
Qed.

(** X17: opening a name the VFS does not contain returns [file_not_found]
    and changes nothing: no archive is opened, so no stream of a mounted
    archive moves, and nothing is cached. *)
Theorem vfs_open_of_absent_name {C : zlib.codec} (v : vfs.t) (name : string) :
  vfs.contains v name = false ->
  vfs.open v name = (unexpected vfs.file_not_found, v).
Proof.
  unfold vfs.contains, vfs.open. intros Hno.
  destruct (vfs.cache_enabled_ v) eqn:Hen; cbn [andb] in Hno.
  - destruct (bool_decide (is_Some (vfs.cache_ v !! name))) eqn:Hhit;
      [discriminate|].
    apply bool_decide_eq_false_1 in Hhit.
    destruct (vfs.cache_ v !! name) as [data|] eqn:Hlookup;
      [destruct Hhit; now eexists|].
    destruct (vfs.search_order_ v) eqn:Horder;
      rewrite (search_absent _ _ Hno); rewrite ?rev_involutive;
      destruct v; cbn in *; now subst.
  - destruct (vfs.search_order_ v) eqn:Horder;
      rewrite (search_absent _ _ Hno); rewrite ?rev_involutive;
      destruct v; cbn in *; now subst.
Qed.

Lemma vfs_open_of_absent_name_witness :
  vfs.open (C := samples.stored) samples.vfs_a_b "absent.txt"
  = (unexpected vfs.file_not_found, samples.vfs_a_b).
Proof.
  apply (vfs_open_of_absent_name (C := samples.stored) samples.vfs_a_b
           "absent.txt").
  vm_compute. reflexivity.
Defined.



(** ** The builder: what the calls record *)
Section builder_records.
Import archive_builder.

Lemma replace_absent (from to : ascii) (s : string) :
  from <> to -> ~ In from (list_ascii_of_string (replace from to s)).
Proof.
  intros Hne. induction s as [|c s IH]; [intros []|].
  cbn [replace list_ascii_of_string]. intros [Hc|Hin]; [|now apply IH].
  destruct (decide (c = from)); congruence.
Qed.

Lemma add_directory_fold (found : list (filesystem.path * filesystem.node)) :
  forall b0 b directory_path archive_prefix m,
    default_compression_ b = default_compression_ b0 ->
    let b' :=
      fold_left
        (fun b '(rel, n) =>
           match n with
           | filesystem.regular_file _ =>
               add_file b (directory_path ++ rel)
                 (entry_archive_path archive_prefix rel)
                 (effective_method b0 m)
           | _ => b
           end) found b in
    files_ b'
    = files_ b ++ map (added_entry b0 directory_path archive_prefix m)
                    (regular_files found).
Proof.
  induction found as [|[rel n] found IH];
    intros b0 b directory_path archive_prefix m Hdefault; cbn zeta.
  - cbn. now rewrite app_nil_r.
  - cbn [fold_left regular_files flat_map].
    fold (regular_files found).
    destruct n as [contents|entries|].
    + rewrite IH by (cbn; exact Hdefault).
      rewrite add_file_files. rewrite <- app_assoc. cbn [app map].
      unfold added_entry at 2.
      replace (effective_method b (effective_method b0 m))
        with (effective_method b0 m); [reflexivity|].
      unfold effective_method at 2. rewrite Hdefault.
      symmetry. apply effective_method_idem.
    + now rewrite IH.
    + now rewrite IH.
Qed.

End builder_records.

(** X19: what [add_directory] records.  For a path that is a directory it
    appends one entry per regular file found below it, in the order of the
    walk: the source is the file, the method is the one given or, for
    [none], the default of the builder, and the archive path is the prefix
    joined to the relative path, in which no backslash is left. *)
Theorem add_directory_records (b : archive_builder.t) (fs : filesystem.node)
    (directory_path : filesystem.path) (archive_prefix : string)
    (method : compression_method) (entries : list (string * filesystem.node)) :
  filesystem.lookup fs directory_path = Some (filesystem.directory entries) ->
  archive_builder.files_
    (archive_builder.add_directory b fs directory_path archive_prefix method)
  = archive_builder.files_ b
    ++ map (added_entry b directory_path archive_prefix method)
         (regular_files (filesystem.walk (filesystem.directory entries))) /\
  Forall (fun rel =>
            ~ In "\"%char
                (list_ascii_of_string
                   (archive_builder.archive_path
                      (added_entry b directory_path archive_prefix method
                         rel))))
    (regular_files (filesystem.walk (filesystem.directory entries))).
Proof.
  intros Hlookup. split.
  - unfold archive_builder.add_directory. rewrite Hlookup.
    apply (add_directory_fold _ b b directory_path archive_prefix method).
    reflexivity.
  - apply Forall_forall. intros rel _.
    cbn [added_entry archive_builder.archive_path].
    unfold archive_builder.entry_archive_path.
    apply replace_absent. discriminate.
Qed.

Lemma add_directory_records_witness :
  map archive_builder.archive_path
    (archive_builder.files_
       (archive_builder.add_directory (archive_builder.make format.none)
          samples.sources ["b"%string] "data\"%string format.deflate))
  = ["data//common.txt"%string; "data//sub/only_b.txt"%string].
Proof.
  destruct (add_directory_records (archive_builder.make format.none)
              samples.sources ["b"%string] "data\"%string format.deflate
              [ ("common.txt"%string,
                 filesystem.regular_file (samples.bytes "from B"));
                ("sub"%string,
                 filesystem.directory
                   [ ("only_b.txt"%string,
                      filesystem.regular_file (samples.bytes "b")) ]) ])
    as [Hfiles _].
  - reflexivity.
  - rewrite Hfiles. reflexivity.
Defined.

(** X20: a builder only grows.  Whatever calls are made on it, the files
    recorded before are still there afterwards, unchanged and in the same
    places, before anything the calls added. *)
Theorem builder_only_appends (b : archive_builder.t) (cs : list builder_call) :
  archive_builder.files_ b `prefix_of` archive_builder.files_ (run_calls b cs) /\
  (archive_builder.file_count b
   <= archive_builder.file_count (run_calls b cs))%nat.
Proof.
  assert (Hprefix : archive_builder.files_ b
                    `prefix_of` archive_builder.files_ (run_calls b cs)).
  { revert b. induction cs as [|c cs IH]; intros b; [reflexivity|].
    cbn [run_calls fold_left]. fold (run_calls (run_call b c) cs).
    etransitivity; [|apply IH].
    destruct c as [source name method|fs directory_path archive_prefix method
                  |method]; cbn [run_call].
    - rewrite add_file_files. now apply prefix_app_r.
    - destruct (add_directory_files b fs directory_path archive_prefix method)
        as (_ & added & -> & _). now apply prefix_app_r.
    - reflexivity. }
  split; [exact Hprefix|].
  unfold archive_builder.file_count. now apply prefix_length.
Qed.

(** ** [build] that stops *)
Section build_failures.
Import archive_builder.
Context {C : zlib.codec}.


Lemma write_files_errors fs files : forall output directory offset err output',
  write_files fs files output directory offset = (unexpected err, output') ->
  err <> invalid_path.
Proof.
  induction files as [|file files IH];
    intros output directory offset err output' Hw; [discriminate|].
  cbn [write_files] in Hw.
  destruct (filesystem.read_file fs (source_path file)) as [src|];
    [|injection Hw as <- _; discriminate].
  destruct (decide (compression file = format.none)).
  - destruct (ofstream.failbit (ofstream.write output src));
      [injection Hw as <- _; discriminate|]. now apply IH in Hw.
  - destruct (compression_engine.compress src (compression file)) as [c|];
      [|injection Hw as <- _; discriminate].
    destruct (ofstream.failbit (ofstream.write output c));
      [injection Hw as <- _; discriminate|]. now apply IH in Hw.
Qed.

Lemma write_directory_errors directory : forall output err output',
  write_directory directory output = (unexpected err, output') ->
  err = write_error.
Proof.
  induction directory as [|entry directory IH]; intros output err output' Hw;
    [discriminate|].
  cbn [write_directory] in Hw.
  destruct (ofstream.failbit (ofstream.write output (entry_bytes entry)));
    [now injection Hw as <- _|]. now apply IH in Hw.
Qed.


End build_failures.



(** X22: the errors of [build].  It never returns [invalid_path]; when
    the output file cannot be created it returns [write_error] before
    anything is written. *)
Theorem build_errors {C : zlib.codec} (b : archive_builder.t)
    (fs : filesystem.node) (output_path : filesystem.path)
    (err : archive_builder.builder_error) (bytes : list byte) :
  archive_builder.build b fs output_path = (unexpected err, bytes) ->
  err <> archive_builder.invalid_path /\
  (filesystem.creatable fs output_path = false ->
   err = archive_builder.write_error /\ bytes = []).
Proof.
  unfold archive_builder.build. cbv zeta.
  destruct (filesystem.creatable fs output_path);
    cbn [ofstream.open negb ofstream.failbit ofstream.contents].
  - intros Hb. split; [|discriminate].
    destruct (ofstream.failbit (ofstream.write _ _));
      [injection Hb as <- _; discriminate|].
    destruct (archive_builder.write_files _ _ _ _ _)
      as [[[output directory]|e] output'] eqn:Hw.
    + destruct (archive_builder.write_directory directory output)
        as [[output2|e] output3] eqn:Hd.
      * destruct (ofstream.failbit (ofstream.write _ _));
          [injection Hb as <- _; discriminate|discriminate].
      * injection Hb as <- _.
        rewrite (write_directory_errors _ _ _ _ Hd). discriminate.
    + injection Hb as <- _. exact (write_files_errors _ _ _ _ _ _ _ Hw).
  - intros [= <- <-]. split; [discriminate|]. intros _. split; reflexivity.
Qed.

Lemma build_errors_witness :
  archive_builder.file_not_found <> archive_builder.invalid_path /\
  (filesystem.creatable samples.sources ["out"%string; "c.pak"%string] = false ->
   archive_builder.file_not_found = archive_builder.write_error /\
   header_bytes (placeholder_header 1) = []).
Proof.
  apply (build_errors (C := samples.stored)
           (archive_builder.add_file (archive_builder.make format.none)
              ["a"%string; "gone.txt"%string] "gone.txt" format.none)
           samples.sources ["out"%string; "c.pak"%string]
           archive_builder.file_not_found
           (header_bytes (placeholder_header 1))).
  vm_compute. reflexivity.
Defined.

(** X23: a builder to which nothing was added builds a container of
    exactly 24 bytes, the header with directory offset 24 and count 0,
    and a reader constructed on it in either mode lists no files. *)
Theorem empty_builder_container {C : zlib.codec} (b : archive_builder.t)
    (fs : filesystem.node) (output_path : filesystem.path) :
  archive_builder.files_ b = [] ->
  filesystem.creatable fs output_path = true ->
  archive_builder.build b fs output_path
  = (ok tt, header_bytes (final_header 0 0)) /\
  vsize (header_bytes (final_header 0 0)) = 24 /\
  forall fs' path mode,
    filesystem.read_file fs' path = Some (header_bytes (final_header 0 0)) ->
    exists a,
      archive.make fs' path mode = Some a /\ archive.list_files a = [].
Proof.
  intros Hfiles Hcreatable.
  assert (Hbuild : archive_builder.build b fs output_path
                   = (ok tt, header_bytes (final_header 0 0))).
  { apply build_ok_layout. split; [exact Hcreatable|].
    exists [], []. rewrite Hfiles. cbn [layout length flat_map].
    rewrite !app_nil_r. repeat split. rewrite vsize_header_bytes.
    discriminate. }
  split; [exact Hbuild|]. split; [apply vsize_header_bytes|].
  intros fs' path mode Hread.
  destruct (built_container_loads b fs output_path _ fs' path mode
              Hbuild Hread)
    as (data & directory & a & Hlay & _ & _ & _ & Hmake & _ & _ & Hdir).
  - rewrite Hfiles. reflexivity.
  - rewrite Hfiles. constructor.
  - exists a. split; [exact Hmake|].
    rewrite Hfiles in Hlay. injection Hlay as <- <-.
    unfold archive.list_files. rewrite Hdir. reflexivity.
Qed.

Lemma empty_builder_container_witness :
  archive_builder.build (C := samples.stored) (archive_builder.make format.deflate)
    samples.sources ["out"%string; "empty.pak"%string]
  = (ok tt, header_bytes (final_header 0 0)).
Proof.
  apply (empty_builder_container (C := samples.stored)
           (archive_builder.make format.deflate) samples.sources
           ["out"%string; "empty.pak"%string]).
  - reflexivity.
  - reflexivity.
Defined.

(** ** Listing (archive.cpp, vfs.cpp) *)

Lemma string_le_cases a b : vfs.string_le a b <-> string_lt a b \/ a = b.
Proof.
  unfold vfs.string_le, string_lt, String.leb.
  pose proof (OrderedTypeEx.String_as_OT.cmp_eq a b) as Heq.
  unfold OrderedTypeEx.String_as_OT.cmp in Heq.
  destruct (a ?= b)%string; split; intros H.
  - right. now apply Heq.
  - reflexivity.
  - now left.
  - reflexivity.
  - discriminate.
  - destruct H as [H|H]; [discriminate|]. apply Heq in H. discriminate.
Qed.

Lemma string_lt_trans a b c : string_lt a b -> string_lt b c -> string_lt a c.
Proof.
  unfold string_lt. intros Hab Hbc.
  apply OrderedTypeEx.String_as_OT.cmp_lt.
  apply OrderedTypeEx.String_as_OT.cmp_lt in Hab, Hbc.
  eapply OrderedTypeEx.String_as_OT.lt_trans; eassumption.
Qed.

Lemma string_lt_irrefl a : ~ string_lt a a.
Proof.
  unfold string_lt. intros H.
  pose proof (proj2 (OrderedTypeEx.String_as_OT.cmp_eq a a) eq_refl) as Heq.
  unfold OrderedTypeEx.String_as_OT.cmp in Heq. congruence.
Qed.

#[local] Instance string_le_trans : Transitive vfs.string_le.
Proof.
  intros a b c Hab Hbc. apply string_le_cases in Hab, Hbc.
  apply string_le_cases.
  destruct Hab as [Hab| ->]; [|exact Hbc].
  destruct Hbc as [Hbc| ->]; [|now left].
  left. eapply string_lt_trans; eassumption.
Qed.

#[local] Instance string_le_total : Total vfs.string_le.
Proof. intros a b. apply String.leb_total. Qed.

Lemma unique_elem names name : name ∈ vfs.unique names <-> name ∈ names.
Proof.
  induction names as [|x names IH]; [reflexivity|].
  cbn [vfs.unique]. destruct names as [|y names].
  - reflexivity.
  - destruct (decide (x = y)) as [->|Hne].
    + rewrite IH. rewrite (elem_of_cons (y :: names) name y).
      split; [now right|]. intros [->|H]; [left|exact H].
    + rewrite !(elem_of_cons _ name x), IH. reflexivity.
Qed.

Lemma unique_sorted names :
  StronglySorted vfs.string_le names ->
  StronglySorted string_lt (vfs.unique names).
Proof.
  induction names as [|x names IH]; intros Hs; [constructor|].
  apply StronglySorted_inv in Hs as [Hs Hx]. specialize (IH Hs).
  cbn [vfs.unique]. destruct names as [|y names]; [repeat constructor|].
  destruct (decide (x = y)) as [->|Hne]; [exact IH|].
  constructor; [exact IH|].
  assert (Hxy : string_lt x y).
  { apply Forall_inv in Hx. apply string_le_cases in Hx as [Hx|Hx];
      [exact Hx|contradiction]. }
  apply StronglySorted_inv in Hs as [_ Hy].
  apply Forall_forall. intros z Hz. rewrite unique_elem in Hz.
  apply elem_of_cons in Hz as [->|Hz]; [exact Hxy|].
  rewrite Forall_forall in Hy. specialize (Hy z Hz).
  apply string_le_cases in Hy as [Hy| <-]; [|exact Hxy].
  eapply string_lt_trans; eassumption.
Qed.

Lemma archive_list_files_elem a name :
  name ∈ archive.list_files a <-> archive.contains a name = true.
Proof.
  unfold archive.list_files, archive.contains. rewrite list_elem_of_fmap.
  split.
  - intros ([k e] & -> & Hin). apply elem_of_map_to_list in Hin.
    cbn [fst]. now rewrite Hin.
  - destruct (archive.directory_ a !! name) as [e|] eqn:Hlookup;
      [|discriminate].
    intros _. exists (name, e). split; [reflexivity|].
    now apply elem_of_map_to_list.
Qed.

(** X24: [list_files] of a reader gives every name of the directory once,
    in no particular order: the names listed are those [contains]
    accepts, and there are as many as the directory has entries. *)
Theorem reader_list_files (a : archive.t) :
  NoDup (archive.list_files a) /\
  length (archive.list_files a) = size (archive.directory_ a) /\
  forall name,
    name ∈ archive.list_files a <-> archive.contains a name = true.
Proof.
  split; [apply NoDup_fst_map_to_list|]. split.
  - unfold archive.list_files. rewrite length_fmap. apply length_map_to_list.
  - apply archive_list_files_elem.
Qed.

(** X25: [list_files] of the VFS gives the names of all mounted archives
    in increasing order of [std::string], each once, however many
    archives hold it; the cache and the search order play no part, and
    every name listed is one the VFS contains. *)
Theorem vfs_list_files (v : vfs.t) :
  StronglySorted string_lt (vfs.list_files v) /\
  NoDup (vfs.list_files v) /\
  (forall name,
      name ∈ vfs.list_files v <->
      exists arch,
        arch ∈ vfs.archives_ v /\ archive.contains arch name = true) /\
  (forall name, name ∈ vfs.list_files v -> vfs.contains v name = true).
Proof.
  assert (Hsorted : StronglySorted string_lt (vfs.list_files v)).
  { unfold vfs.list_files, vfs.sort. apply unique_sorted.
    apply StronglySorted_merge_sort; apply _. }
  assert (Helem : forall name,
             name ∈ vfs.list_files v <->
             exists arch,
               arch ∈ vfs.archives_ v /\ archive.contains arch name = true).
  { intros name. unfold vfs.list_files, vfs.sort.
    rewrite unique_elem, merge_sort_Permutation.
    rewrite list_elem_of_In, in_flat_map. split.
    - intros (arch & Hin & Hname). exists arch.
      split; [now apply list_elem_of_In|].
      now apply archive_list_files_elem, list_elem_of_In.
    - intros (arch & Hin & Hname). exists arch.
      split; [now apply list_elem_of_In|].
      now apply list_elem_of_In, archive_list_files_elem. }
  split; [exact Hsorted|]. split; [|split; [exact Helem|]].
  - clear Helem. induction Hsorted as [|x l Hl IH Hx]; constructor;
      [|exact IH].
    intros Hin. rewrite Forall_forall in Hx.
    exact (string_lt_irrefl x (Hx x Hin)).
  - intros name Hin. apply Helem in Hin as (arch & Hin & Hname).
    unfold vfs.contains.
    destruct (vfs.cache_enabled_ v && _)%bool; [reflexivity|].
    destruct (vfs.search_order_ v); apply existsb_exists; exists arch;
      (split; [|exact Hname]).
    + now apply list_elem_of_In.
    + apply in_rev. rewrite rev_involutive. now apply list_elem_of_In.
Qed.

(** ** The cache over memory-mode archives *)
Section fresh_cache.
Context {C : zlib.codec}.

Lemma search_memory archs : forall name,
  Forall (fun a => archive.mode_ a = archive.memory) archs ->
  (vfs.search archs name).2 = archs.
Proof.
  induction archs as [|arch archs IH]; intros name Hmem; [reflexivity|].
  apply Forall_cons in Hmem as [Harch Hmem]. specialize (IH name Hmem).
  cbn [vfs.search].
  destruct (vfs.search archs name) as [found archs'']. cbn [snd] in IH.
  destruct (archive.contains arch name).
  - destruct (archive.open arch name) as [result arch'] eqn:Hopen.
    apply archive_open_keeps in Hopen as (_ & _ & _ & Hsame & _).
    rewrite (Hsame Harch). destruct result; cbn [snd]; now rewrite ?IH.
  - cbn [snd]. now rewrite IH.
Qed.

Lemma open_memory_archives v name :
  Forall (fun a => archive.mode_ a = archive.memory) (vfs.archives_ v) ->
  vfs.archives_ (vfs.open v name).2 = vfs.archives_ v.
Proof.
  intros Hmem. unfold vfs.open.
  destruct (if vfs.cache_enabled_ v then vfs.cache_ v !! name else None);
    [reflexivity|].
  assert (Hsearch :
            (match vfs.search_order_ v with
             | vfs.reverse_mount_order =>
                 let '(found, visited) :=
                   vfs.search (rev (vfs.archives_ v)) name in
                 (found, rev visited)
             | vfs.mount_order => vfs.search (vfs.archives_ v) name
             end).2
            = vfs.archives_ v).
  { destruct (vfs.search_order_ v).
    - now apply search_memory.
    - pose proof (search_memory (rev (vfs.archives_ v)) name) as H.
      destruct (vfs.search (rev (vfs.archives_ v)) name) as [found visited].
      cbn [snd] in *. rewrite H; [apply rev_involutive|].
      apply Forall_forall. intros a Ha. rewrite Forall_forall in Hmem.
      apply Hmem, list_elem_of_In, in_rev, list_elem_of_In, Ha. }
  destruct (match vfs.search_order_ v with
            | vfs.reverse_mount_order => _
            | vfs.mount_order => _
            end) as [found archs].
  cbn [snd] in Hsearch.
  destruct found as [stream|]; [|exact Hsearch].
  destruct (vfs.cache_enabled_ v); [|exact Hsearch].
  destruct (vfs.drain stream). exact Hsearch.
Qed.

(** One [open] keeps a fresh cache fresh when no archive reads from
    disk. *)
Lemma open_keeps_fresh v name :
  Forall (fun a => archive.mode_ a = archive.memory) (vfs.archives_ v) ->
  cache_fresh v ->
  cache_fresh (vfs.open v name).2.
Proof.
  intros Hmem Hfresh.
  pose proof (open_memory_archives v name Hmem) as Harchs.
  destruct (cache_hit v name) as [hit|] eqn:Hhit;
    [now rewrite (open_hit v name hit Hhit)|].
  destruct (open_miss v name Hhit) as (Hcase & Hen & Hord).
  assert (Hclear : vfs.clear_cache (vfs.open v name).2 = vfs.clear_cache v).
  { unfold vfs.clear_cache. now rewrite Harchs, Hen, Hord. }
  intros other data Hother. rewrite Hclear.
  destruct (first_served (visit_order v) name) as [stream|] eqn:Hserved.
  - pose proof (first_served_make _ _ _ Hserved) as Hmake.
    destruct (vfs.cache_enabled_ v) eqn:Henabled; destruct Hcase as [_ Hcache];
      rewrite Hcache in Hother; [|now apply Hfresh].
    destruct (decide (other = name)) as [->|Hne];
      [|rewrite lookup_insert_ne in Hother by congruence; now apply Hfresh].
    rewrite lookup_insert_eq in Hother. injection Hother as <-.
    rewrite Hmake in Hserved |- *.
    destruct (drain_make (vfstream.contents stream))
      as (drained & Hdrain & _ & _).
    rewrite Hdrain. cbn [fst].
    destruct (open_miss_found C (vfs.clear_cache v) name
                (vfstream.contents stream)) as (again & Hopen & _ & Hbytes & _).
    + unfold cache_hit. cbn [vfs.clear_cache vfs.cache_enabled_ vfs.cache_].
      rewrite lookup_empty. now destruct (vfs.cache_enabled_ v).
    + exact Hserved.
    + exists again. split; assumption.
  - destruct Hcase as [_ Hcache]. rewrite Hcache in Hother. now apply Hfresh.
Qed.

End fresh_cache.

(** X26: over archives held in memory the cache cannot go stale through
    [open].  If every mounted archive is in memory mode and every cache
    entry equals what a fresh open produces, then after any sequence of
    opens the archives are as they were and every cache entry still
    equals what a fresh open produces. *)
Theorem cache_stays_fresh {C : zlib.codec} (names : list string) (v : vfs.t) :
  Forall (fun a => archive.mode_ a = archive.memory) (vfs.archives_ v) ->
  cache_fresh v ->
  vfs.archives_ (open_all v names) = vfs.archives_ v /\
  cache_fresh (open_all v names).
Proof.
  revert v. induction names as [|name names IH]; intros v Hmem Hfresh.
  - split; [reflexivity|exact Hfresh].
  - cbn [open_all fold_left]. fold (open_all (vfs.open v name).2 names).
    pose proof (open_memory_archives v name Hmem) as Harchs.
    destruct (IH (vfs.open v name).2) as [Ha Hf].
    + now rewrite Harchs.
    + now apply open_keeps_fresh.
    + split; [now rewrite Ha|exact Hf].
Qed.

Lemma cache_stays_fresh_witness :
  cache_fresh (C := samples.stored)
    (open_all (C := samples.stored)
       (samples.mounted [ ("a.pak"%string, archive.memory) ])
       [ "common.txt"%string; "only_a.txt"%string; "common.txt"%string ]).
Proof.
  apply (cache_stays_fresh (C := samples.stored)
           [ "common.txt"%string; "only_a.txt"%string; "common.txt"%string ]
           (samples.mounted [ ("a.pak"%string, archive.memory) ])).
  - vm_compute. repeat constructor.
  - intros name data Hdata. exfalso. revert Hdata.
    change (vfs.cache_ (samples.mounted [ ("a.pak"%string, archive.memory) ]))
      with (∅ : gmap string (list byte)).
    rewrite lookup_empty. discriminate.
Defined.

(** ** Streams: random access *)

(** X27: a stream made from bytes gives random access to them.  After
    [seekg] to an offset within the data (below 2 GiB), [read] of [n]
    bytes stores the bytes that follow the offset, [n] of them or as many
    as are left; [gcount] is their number; [eofbit] and [failbit] are set
    exactly when fewer than [n] were left; after a complete read [tellg]
    is the offset plus [n]. *)
Theorem stream_random_access (data : list byte) (p n : Z) :
  vsize data < 2 ^ 31 -> 0 <= p <= vsize data -> 0 <= n ->
  let k := Z.min n (vsize data - p) in
  let '(got, s) :=
    vfstream.read (vfstream.seekg (vfstream.make data) p vfstreambuf.beg) n in
  got = slice data p k /\
  vfstream.gcount s = k /\
  vfstream.failbit s = negb (k =? n) /\
  vfstream.eofbit s = negb (k =? n) /\
  vfstream.contents s = data /\
  (k = n -> vfstream.tellg s = p + n).
Proof.
  intros _ Hp Hn k.
  unfold vfstream.seekg, vfstream.make, vfstreambuf.make.
  cbn [vfstream.failbit vfstream.buffer_ vfstream.gcount].
  unfold vfstreambuf.seekoff. cbn [negb vfstreambuf.data_ vfstreambuf.gpos].
  replace ((p <? 0) || (vsize data <? p))%bool with false
    by (symmetry; apply orb_false_intro; [apply Z.ltb_ge|apply Z.ltb_ge]; lia).
  replace (p =? -1) with false by (symmetry; apply Z.eqb_neq; lia).
  unfold vfstream.read. cbn [vfstream.eofbit vfstream.failbit orb
    vfstream.buffer_].
  rewrite (xsgetn_in_range {| vfstreambuf.data_ := data; vfstreambuf.gpos := p |} n)
    by (unfold in_range; cbn; lia).
  cbv zeta. cbn [vfstreambuf.data_ vfstreambuf.gpos]. fold k.
  unfold vfstream.contents, vfstream.tellg.
  cbn [vfstream.gcount vfstream.failbit vfstream.eofbit vfstream.buffer_
       vfstreambuf.data_].
  repeat split. intros Hk. rewrite Hk, Z.eqb_refl. cbn [negb].
  unfold vfstreambuf.seekoff. cbn [negb vfstreambuf.data_ vfstreambuf.gpos].
  assert (Hin : n <= vsize data - p) by (unfold k in Hk; lia).
  replace ((p + n + 0 <? 0) || (vsize data <? p + n + 0))%bool with false
    by (symmetry; apply orb_false_intro; [apply Z.ltb_ge|apply Z.ltb_ge]; lia).
  cbn [fst]. lia.
Qed.

Lemma stream_random_access_witness :
  let '(got, s) :=
    vfstream.read
      (vfstream.seekg (vfstream.make (samples.bytes "from A")) 5
         vfstreambuf.beg) 4 in
  got = slice (samples.bytes "from A") 5 (Z.min 4 (6 - 5)) /\
  vfstream.gcount s = Z.min 4 (6 - 5) /\
  vfstream.failbit s = negb (Z.min 4 (6 - 5) =? 4) /\
  vfstream.eofbit s = negb (Z.min 4 (6 - 5) =? 4) /\
  vfstream.contents s = samples.bytes "from A" /\
  (Z.min 4 (6 - 5) = 4 -> vfstream.tellg s = 5 + 4).
Proof.
  apply (stream_random_access (samples.bytes "from A") 5 4).
  - vm_compute. reflexivity.
  - split; vm_compute; discriminate.
  - lia.
Defined.

(** ** Entries that point outside the file *)

(** X28: the bounds check of the memory-mode read adds the offset and the
    size of the entry in 64 bits, so it does not refuse an entry whose
    sum wraps around: the read is not answered with [read_error] although
    the range of the entry ends beyond the buffer (the copy that follows
    in the C++ then reads outside the buffer). *)
Theorem memory_bounds_check_wraps (a : archive.t) (e : directory_entry) :
  archive.mode_ a = archive.memory ->
  vsize (archive.memory_data_ a) < 2 ^ 64 ->
  0 <= data_offset e < 2 ^ 64 -> 0 <= compressed_size e < 2 ^ 64 ->
  2 ^ 64 <= data_offset e + compressed_size e ->
  data_offset e + compressed_size e - 2 ^ 64 <= vsize (archive.memory_data_ a) ->
  vsize (archive.memory_data_ a) < data_offset e + compressed_size e /\
  (archive.read_file_data a e).1 <> unexpected archive.read_error.
Proof.
  intros Hmode Hmem Hoff Hsize Hwrap Hfits. split; [lia|].
  unfold archive.read_file_data. rewrite Hmode.
  assert (Hsum : u64 (data_offset e + compressed_size e)
                 = data_offset e + compressed_size e - 2 ^ 64).
  { unfold u64. symmetry.
    apply (Z.mod_unique_pos _ _ 1); lia. }
  rewrite Hsum.
  replace (vsize (archive.memory_data_ a)
           <? data_offset e + compressed_size e - 2 ^ 64)
    with false by (symmetry; apply Z.ltb_ge; lia).
  discriminate.
Qed.

Lemma memory_bounds_check_wraps_witness :
  (archive.read_file_data samples.reader_a
     {| filename := "x"; data_offset := 2 ^ 64 - 1; compressed_size := 2;
        uncompressed_size := 2; compression := format.none |}).1
  <> unexpected archive.read_error.
Proof.
  apply (memory_bounds_check_wraps samples.reader_a
           {| filename := "x"; data_offset := 2 ^ 64 - 1; compressed_size := 2;
              uncompressed_size := 2; compression := format.none |}).
  - vm_compute. reflexivity.
  - vm_compute. reflexivity.
  - cbn [data_offset]. lia.
  - cbn [compressed_size]. lia.
  - cbn [data_offset compressed_size]. lia.
  - vm_compute. discriminate.
Defined.

(** X29: an empty entry placed beyond the end of the file is served in
    disk mode and refused in memory mode: reading no bytes after a seek
    past the end succeeds on a file stream, while the bounds check of the
    memory-mode read compares the offset with the size of the buffer. *)
Theorem empty_entry_past_end {C : zlib.codec} (a : archive.t)
    (file : list byte) (name : string) (e : directory_entry) :
  backed_by a file ->
  archive.directory_ a !! name = Some e ->
  compression e = format.none ->
  compressed_size e = 0 ->
  vsize file < data_offset e < 2 ^ 63 ->
  match archive.mode_ a with
  | archive.disk =>
      exists a', archive.open a name = (ok (vfstream.make []), a') /\
                 backed_by a' file
  | archive.memory => archive.open a name = (unexpected archive.read_error, a)
  end.
Proof.
  intros Hback Hlookup Hnone Hsize Hoff.
  pose proof (vsize_nonneg file) as Hnn.
  unfold archive.open, archive.read_file_data, backed_by in *.
  rewrite Hlookup, Hsize.
  destruct (archive.mode_ a) eqn:Hmode.
  - destruct Hback as (Hopen & Hc & Hfail).
    rewrite streamoff_small by lia.
    change (ifstream.streamoff 0) with 0.
    rewrite ifstream_seekg_good by (assumption || lia).
    unfold ifstream.read.
    cbn [ifstream.eofbit ifstream.failbit ifstream.pos ifstream.contents orb].
    rewrite slice_none. change (vsize [] <? 0) with false.
    cbn [ifstream.failbit ifstream.gcount orb]. change (vsize []) with 0.
    cbn [Z.eqb negb]. rewrite Hnone. rewrite decide_True by reflexivity.
    eexists. split; [reflexivity|].
    cbn [archive.with_stream archive.mode_ archive.file_stream_
         ifstream.is_open ifstream.contents ifstream.failbit].
    rewrite Hmode. repeat split. exact Hc.
  - rewrite Z.add_0_r, u64_small by lia. rewrite Hback.
    replace (vsize file <? data_offset e) with true
      by (symmetry; apply Z.ltb_lt; lia).
    reflexivity.
Qed.

Lemma empty_entry_past_end_witness :
  archive.open (C := samples.stored)
    (archive.with_directory samples.reader_a
       {[ "x"%string :=
            {| filename := "x"; data_offset := 1000; compressed_size := 0;
               uncompressed_size := 0; compression := format.none |} ]})
    "x"
  = (unexpected archive.read_error,
     archive.with_directory samples.reader_a
       {[ "x"%string :=
            {| filename := "x"; data_offset := 1000; compressed_size := 0;
               uncompressed_size := 0; compression := format.none |} ]}).
Proof.
  apply (empty_entry_past_end (C := samples.stored)
           (archive.with_directory samples.reader_a
              {[ "x"%string :=
                   {| filename := "x"; data_offset := 1000;
                      compressed_size := 0; uncompressed_size := 0;
                      compression := format.none |} ]})
           samples.pak_a "x"
           {| filename := "x"; data_offset := 1000; compressed_size := 0;
              uncompressed_size := 0; compression := format.none |}).
  - vm_compute. reflexivity.
  - apply lookup_singleton_eq.
  - reflexivity.
  - reflexivity.
  - split; vm_compute; reflexivity.
Defined.
